(** * Poker table server and hand evaluator: a shallow embedding

    The development follows the two source files of the repository:
    [pokerEvaluator.js] (module [Evaluator]) and [server.js] (module
    [Server]).  JavaScript numbers are modelled by [Z] (every quantity the
    server handles is an integer far below 2^53), objects used as maps by
    [gmap], arrays by lists. *)

From Stdlib Require Import ZArith Lia.
From stdpp Require Import gmap strings pretty list sorting fin_maps.

Local Open Scope Z_scope.

(** ** Array helpers shared by both source files *)

Section JsArray.
Context {A : Type}.

(** [Array.prototype.sort] with a comparator: a stable sort; [x] goes in
    front of [y] only when the comparator is negative. *)
Fixpoint sort_insert (cmp : A → A → Z) (x : A) (l : list A) : list A :=
  match l with
  | [] => [x]
  | y :: l' => if cmp x y <? 0 then x :: y :: l' else y :: sort_insert cmp x l'
  end.

Definition js_sort (cmp : A → A → Z) (l : list A) : list A :=
  foldl (λ acc x, sort_insert cmp x acc) [] l.

(** [arr.indexOf(x)], [-1] when absent. *)
Fixpoint indexOf `{EqDecision A} (x : A) (l : list A) : Z :=
  match l with
  | [] => -1
  | y :: l' =>
      if decide (x = y) then 0
      else let i := indexOf x l' in if i <? 0 then -1 else i + 1
  end.

(** [[...new Set(arr)]]: duplicates dropped, first occurrences kept in order. *)
Fixpoint uniq `{EqDecision A} (seen l : list A) : list A :=
  match l with
  | [] => []
  | x :: l' => if decide (x ∈ seen) then uniq seen l' else x :: uniq (x :: seen) l'
  end.
End JsArray.

(** ** pokerEvaluator.js *)

Module Evaluator.

Inductive Rank := R2 | R3 | R4 | R5 | R6 | R7 | R8 | R9 | RT | RJ | RQ | RK | RA.
Inductive Suit := Spades | Hearts | Diamonds | Clubs.

#[global] Instance Rank_eq_dec : EqDecision Rank.
Proof. solve_decision. Defined.
#[global] Instance Suit_eq_dec : EqDecision Suit.
Proof. solve_decision. Defined.

Definition SUITS : list Suit := [Spades; Hearts; Diamonds; Clubs].
Definition RANKS : list Rank := [R2; R3; R4; R5; R6; R7; R8; R9; RT; RJ; RQ; RK; RA].

(** A card is the two-character string rank ++ suit; [c[0]] and [c[1]]
    are its projections. *)
Definition Card : Type := Rank * Suit.

#[global] Instance Card_eq_dec : EqDecision Card.
Proof. unfold Card. apply _. Defined.

Definition rankValue (r : Rank) : Z := indexOf r RANKS.

(** [getCombinations(cards, k)].  [helper] recurses on an index into
    [cards]; the recursion depth is bounded by [length cards - start + 1],
    which is the fuel [getCombinations] starts it with. *)
Fixpoint helper (cards : list Card) (k : nat) (fuel : nat)
    (start : nat) (combo : list Card) : list (list Card) :=
  match fuel with
  | O => []
  | S fuel' =>
      if (length combo =? k)%nat then [combo]
      else
        flat_map
          (λ i, match cards !! i with
                | Some c => helper cards k fuel' (i + 1) (combo ++ [c])
                | None => []
                end)
          (seq start (length cards - start))
  end.

Definition getCombinations (cards : list Card) (k : nat) : list (list Card) :=
  helper cards k (S (length cards)) 0 [].

Record Eval5 := { score : Z; handName : string }.

(** [counts[r] = (counts[r] || 0) + 1] on an object whose keys are listed
    in insertion order. *)
Fixpoint bump (r : Rank) (counts : list (Rank * Z)) : list (Rank * Z) :=
  match counts with
  | [] => [(r, 1)]
  | (r', c) :: rest => if decide (r = r') then (r', c + 1) :: rest else (r', c) :: bump r rest
  end.

(** The straight loop: [i] runs over [0 .. values.length - 5]; a later hit
    overwrites an earlier one. *)
Definition straightScan (values : list Z) : bool * option Z :=
  foldl
    (λ acc i,
       match values !! (i + 4)%nat, values !! i with
       | Some hi, Some lo => if hi - lo =? 4 then (true, Some hi) else acc
       | _, _ => acc
       end)
    (false, None)
    (seq 0 (length values - 4)).

(** The wheel test [values.includes(12) && values.slice(0,4).toString() === "0,1,2,3"]. *)
Definition isWheel (values : list Z) : bool :=
  bool_decide (12 ∈ values) && bool_decide (take 4 values = [0; 1; 2; 3]).

Definition straightCheck (uniqueRanks : list Rank) : bool * option Z :=
  if (5 <=? length uniqueRanks)%nat then
    let values := js_sort (λ a b, a - b) (map rankValue uniqueRanks) in
    let s := straightScan values in
    if isWheel values then (true, Some 3) else s
  else (false, None).

(** A numeric use of [highStraight]: [null] counts as 0. *)
Definition numOf (h : option Z) : Z := default 0 h.

(** [rankValue(ranks[ranks.length - 1])]; [indexOf(undefined)] is [-1]. *)
Definition lastRankValue (ranks : list Rank) : Z :=
  match last ranks with Some r => rankValue r | None => -1 end.

(** [evaluate5(hand)]; [None] stands for the TypeError raised by
    [countsArr[0][1]] when [countsArr] is empty. *)
Definition evaluate5 (hand : list Card) : option Eval5 :=
  let ranks := js_sort (λ a b, rankValue a - rankValue b) (map fst hand) in
  let suits := map snd hand in
  let counts := foldl (λ acc r, bump r acc) [] ranks in
  let flush := forallb (λ s, bool_decide (Some s = head suits)) suits in
  let uniqueRanks := uniq [] ranks in
  let '(straight, highStraight) := straightCheck uniqueRanks in
  let countsArr :=
    js_sort (λ a b, if decide (b.2 - a.2 = 0) then rankValue b.1 - rankValue a.1
                    else b.2 - a.2) counts in
  if straight && flush then
    if bool_decide (highStraight = Some 12) then
      Some {| score := 9000000; handName := "Royal Flush" |}
    else Some {| score := 8000000 + numOf highStraight; handName := "Straight Flush" |}
  else
    match countsArr !! 0%nat with
    | None => None
    | Some (r0, c0) =>
        let c1 := snd <$> countsArr !! 1%nat in
        if bool_decide (c0 = 4) then
          Some {| score := 7000000 + rankValue r0; handName := "Four of a Kind" |}
        else if bool_decide (c0 = 3) && bool_decide (c1 = Some 2) then
          Some {| score := 6000000 + rankValue r0; handName := "Full House" |}
        else if flush then
          Some {| score := 5000000 + lastRankValue ranks; handName := "Flush" |}
        else if straight then
          Some {| score := 4000000 + numOf highStraight; handName := "Straight" |}
        else if bool_decide (c0 = 3) then
          Some {| score := 3000000 + rankValue r0; handName := "Three of a Kind" |}
        else if bool_decide (c0 = 2) && bool_decide (c1 = Some 2) then
          Some {| score := 2000000 + rankValue r0; handName := "Two Pair" |}
        else if bool_decide (c0 = 2) then
          Some {| score := 1000000 + rankValue r0; handName := "One Pair" |}
        else
          Some {| score := lastRankValue ranks; handName := "High Card" |}
    end.

(** [best] in [evaluate7]: the spread [{...result, hand: combo}]. *)
Record Best := { result : Eval5; hand : list Card }.

Definition best0 : Best :=
  {| result := {| score := -1; handName := "" |}; hand := [] |}.

Definition keepBetter (best : option Best) (combo : list Card) : option Best :=
  b ← best;
  r ← evaluate5 combo;
  Some (if score (result b) <? score r then {| result := r; hand := combo |} else b).

Definition evaluate7 (cards : list Card) : option Best :=
  foldl keepBetter (Some best0) (getCombinations cards 5).

End Evaluator.

(** ** Reference notions the evaluator is compared with *)

Module EvaluatorSpec.
Import Evaluator.

(** The category of a hand name, strongest first; a
    royal flush is the top straight flush. *)
Definition category (name : string) : nat :=
  if decide (name = "Royal Flush") then 8
  else if decide (name = "Straight Flush") then 8
  else if decide (name = "Four of a Kind") then 7
  else if decide (name = "Full House") then 6
  else if decide (name = "Flush") then 5
  else if decide (name = "Straight") then 4
  else if decide (name = "Three of a Kind") then 3
  else if decide (name = "Two Pair") then 2
  else if decide (name = "One Pair") then 1
  else 0%nat.

(** The score band of each hand name. *)
Definition band (name : string) : Z :=
  if decide (name = "Royal Flush") then 9 else Z.of_nat (category name).

(** The [k]-element subsequences of a list, in lexicographic order of
    positions. *)
Fixpoint combs {A} (l : list A) (k : nat) : list (list A) :=
  match k, l with
  | O, _ => [[]]
  | S _, [] => []
  | S k', x :: l' => map (cons x) (combs l' k') ++ combs l' k
  end.

(** Binomial coefficients by Pascal's rule. *)
Fixpoint choose (n k : nat) : nat :=
  match k, n with
  | O, _ => 1
  | S _, O => 0
  | S k', S n' => (choose n' k' + choose n' k)%nat
  end.

(** Sample hands. *)
Definition pairOfAces : list Card :=
  [(RA, Spades); (RA, Hearts); (R7, Clubs); (R4, Diamonds); (R2, Clubs)].
Definition kingHigh : list Card :=
  [(RK, Spades); (RJ, Hearts); (R7, Clubs); (R4, Diamonds); (R2, Clubs)].

Definition royalSeven : list Card :=
  [(RA, Hearts); (RK, Hearts); (RQ, Hearts); (RJ, Hearts); (RT, Hearts);
   (R2, Clubs); (R3, Clubs)].

End EvaluatorSpec.

(** ** server.js *)

Module Server.
Export Evaluator.

(** *** In-memory table state *)

(** Player identities are the uuid strings given to connections. *)
Abbreviation PlayerId := string (only parsing).

(** A player object.  Its [id] is the key it is stored under in
    [TABLE.players]; its [ws] belongs to the transport; [lastAction] is
    written but never read. *)
Record Player := {
  name : string;
  seat : option nat;
  chips : Z;
  cards : list (option Card);
  folded : bool;
  active : bool;
  bet : Z;
}.

Record Seat := { pId : PlayerId; idx : nat }.

Inductive Stage := preflop | flop | turn | river.

#[global] Instance Stage_eq_dec : EqDecision Stage.
Proof. solve_decision. Defined.

(** The round object [g].  Its unused [toCall] field is left out.  The
    object has no [turnPlayerId] property. *)
Record Game := {
  gameId : string;
  deck : list Card;
  community : list (option Card);
  pot : Z;
  smallBlind : Z;
  bigBlind : Z;
  gDealerIndex : nat;
  seatOrder : list Seat;
  stage : Stage;
  currentBet : Z;
  minRaise : Z;
  actionCount : Z;
  turnIndex : nat;
  turnEnd : option Z;
  showdownComplete : bool;
}.

(** [TABLE] together with the module-level [turnTimer]: [Some curPid] is a
    pending timeout whose callback captured [curPid]. *)
Record Table := {
  seats : list (option PlayerId);
  players : gmap PlayerId Player;
  game : option Game;
  dealerIndex : nat;
  turnTimer : option PlayerId;
}.

(** Field assignments. *)
Definition setName v p := {| name := v; seat := seat p; chips := chips p; cards := cards p;
  folded := folded p; active := active p; bet := bet p |}.
Definition setSeat v p := {| name := name p; seat := v; chips := chips p; cards := cards p;
  folded := folded p; active := active p; bet := bet p |}.
Definition setChips v p := {| name := name p; seat := seat p; chips := v; cards := cards p;
  folded := folded p; active := active p; bet := bet p |}.
Definition setCards v p := {| name := name p; seat := seat p; chips := chips p; cards := v;
  folded := folded p; active := active p; bet := bet p |}.
Definition setFolded v p := {| name := name p; seat := seat p; chips := chips p; cards := cards p;
  folded := v; active := active p; bet := bet p |}.
Definition setActive v p := {| name := name p; seat := seat p; chips := chips p; cards := cards p;
  folded := folded p; active := v; bet := bet p |}.
Definition setBet v p := {| name := name p; seat := seat p; chips := chips p; cards := cards p;
  folded := folded p; active := active p; bet := v |}.

Definition setDeck v g := {| gameId := gameId g; deck := v; community := community g; pot := pot g;
  smallBlind := smallBlind g; bigBlind := bigBlind g; gDealerIndex := gDealerIndex g;
  seatOrder := seatOrder g; stage := stage g; currentBet := currentBet g;
  minRaise := minRaise g; actionCount := actionCount g; turnIndex := turnIndex g;
  turnEnd := turnEnd g; showdownComplete := showdownComplete g |}.
Definition setCommunity v g := {| gameId := gameId g; deck := deck g; community := v; pot := pot g;
  smallBlind := smallBlind g; bigBlind := bigBlind g; gDealerIndex := gDealerIndex g;
  seatOrder := seatOrder g; stage := stage g; currentBet := currentBet g;
  minRaise := minRaise g; actionCount := actionCount g; turnIndex := turnIndex g;
  turnEnd := turnEnd g; showdownComplete := showdownComplete g |}.
Definition setPot v g := {| gameId := gameId g; deck := deck g; community := community g; pot := v;
  smallBlind := smallBlind g; bigBlind := bigBlind g; gDealerIndex := gDealerIndex g;
  seatOrder := seatOrder g; stage := stage g; currentBet := currentBet g;
  minRaise := minRaise g; actionCount := actionCount g; turnIndex := turnIndex g;
  turnEnd := turnEnd g; showdownComplete := showdownComplete g |}.
Definition setStage v g := {| gameId := gameId g; deck := deck g; community := community g;
  pot := pot g; smallBlind := smallBlind g; bigBlind := bigBlind g;
  gDealerIndex := gDealerIndex g; seatOrder := seatOrder g; stage := v;
  currentBet := currentBet g; minRaise := minRaise g; actionCount := actionCount g;
  turnIndex := turnIndex g; turnEnd := turnEnd g; showdownComplete := showdownComplete g |}.
Definition setCurrentBet v g := {| gameId := gameId g; deck := deck g; community := community g;
  pot := pot g; smallBlind := smallBlind g; bigBlind := bigBlind g;
  gDealerIndex := gDealerIndex g; seatOrder := seatOrder g; stage := stage g;
  currentBet := v; minRaise := minRaise g; actionCount := actionCount g;
  turnIndex := turnIndex g; turnEnd := turnEnd g; showdownComplete := showdownComplete g |}.
Definition setMinRaise v g := {| gameId := gameId g; deck := deck g; community := community g;
  pot := pot g; smallBlind := smallBlind g; bigBlind := bigBlind g;
  gDealerIndex := gDealerIndex g; seatOrder := seatOrder g; stage := stage g;
  currentBet := currentBet g; minRaise := v; actionCount := actionCount g;
  turnIndex := turnIndex g; turnEnd := turnEnd g; showdownComplete := showdownComplete g |}.
Definition setActionCount v g := {| gameId := gameId g; deck := deck g; community := community g;
  pot := pot g; smallBlind := smallBlind g; bigBlind := bigBlind g;
  gDealerIndex := gDealerIndex g; seatOrder := seatOrder g; stage := stage g;
  currentBet := currentBet g; minRaise := minRaise g; actionCount := v;
  turnIndex := turnIndex g; turnEnd := turnEnd g; showdownComplete := showdownComplete g |}.
Definition setTurnIndex v g := {| gameId := gameId g; deck := deck g; community := community g;
  pot := pot g; smallBlind := smallBlind g; bigBlind := bigBlind g;
  gDealerIndex := gDealerIndex g; seatOrder := seatOrder g; stage := stage g;
  currentBet := currentBet g; minRaise := minRaise g; actionCount := actionCount g;
  turnIndex := v; turnEnd := turnEnd g; showdownComplete := showdownComplete g |}.
Definition setTurnEnd v g := {| gameId := gameId g; deck := deck g; community := community g;
  pot := pot g; smallBlind := smallBlind g; bigBlind := bigBlind g;
  gDealerIndex := gDealerIndex g; seatOrder := seatOrder g; stage := stage g;
  currentBet := currentBet g; minRaise := minRaise g; actionCount := actionCount g;
  turnIndex := turnIndex g; turnEnd := v; showdownComplete := showdownComplete g |}.
Definition setShowdownComplete v g := {| gameId := gameId g; deck := deck g;
  community := community g; pot := pot g; smallBlind := smallBlind g; bigBlind := bigBlind g;
  gDealerIndex := gDealerIndex g; seatOrder := seatOrder g; stage := stage g;
  currentBet := currentBet g; minRaise := minRaise g; actionCount := actionCount g;
  turnIndex := turnIndex g; turnEnd := turnEnd g; showdownComplete := v |}.

Definition setSeats v T := {| seats := v; players := players T; game := game T;
  dealerIndex := dealerIndex T; turnTimer := turnTimer T |}.
Definition setPlayers v T := {| seats := seats T; players := v; game := game T;
  dealerIndex := dealerIndex T; turnTimer := turnTimer T |}.
Definition setGame v T := {| seats := seats T; players := players T; game := v;
  dealerIndex := dealerIndex T; turnTimer := turnTimer T |}.
Definition setDealerIndex v T := {| seats := seats T; players := players T; game := game T;
  dealerIndex := v; turnTimer := turnTimer T |}.
Definition setTurnTimer v T := {| seats := seats T; players := players T; game := game T;
  dealerIndex := dealerIndex T; turnTimer := v |}.

(** The table as the process starts. *)
Definition TABLE0 : Table :=
  {| seats := replicate 6 None; players := ∅; game := None; dealerIndex := 0;
     turnTimer := None |}.

(** *** Messages handed to the transport *)

Record PublicPlayer := {
  pub_id : PlayerId; pub_name : string; pub_seat : option nat; pub_chips : Z;
  pub_folded : bool;
}.

Record PublicGame := {
  pub_gameId : string; pub_stage : Stage; pub_community : list (option Card);
  pub_pot : Z; pub_currentBet : Z; pub_minRaise : Z;
  pub_toCallMap : gmap PlayerId Z; pub_seatOrder : list PlayerId;
  pub_turnIndex : nat; pub_turnPlayerId : PlayerId; pub_turnEnd : option Z;
}.

Inductive Msg :=
  | MError (message : string)
  | MLog (message : string) (at_ : Z)
  | MTurn (playerId : PlayerId) (turnEnd_ : Z)
  | MGameStarted
  | MHand (cards_ : list (option Card))
  | MState (seats_ : list (option PlayerId)) (players_ : gmap PlayerId PublicPlayer)
           (game_ : option PublicGame)
  | MCollect (playerId : PlayerId) (amount : Z)
  | MReveal (hands : list (PlayerId * list (option Card))) (community_ : list (option Card))
  | MGameEnded (summary : list (PlayerId * string * string))
  | MJoined (id_ : PlayerId) (name_ : string).

(** [broadcast(msg)] reaches every open connection, [sendTo(player, msg)] one. *)
Inductive Out :=
  | Broadcast (msg : Msg)
  | SendTo (to : PlayerId) (msg : Msg).

(** *** Handlers as state transformers

    A handler runs against the table, appends to the outgoing messages and
    either returns or throws a TypeError; a throw keeps the mutations made
    so far. *)
Inductive Outcome (A : Type) := Ret (a : A) | Throw.
Arguments Ret {A} a.
Arguments Throw {A}.

Definition M (A : Type) : Type := Table → Outcome A * Table * list Out.

#[global] Instance M_ret : MRet M := λ A a T, (Ret a, T, []).
#[global] Instance M_bind : MBind M := λ A B f m T,
  match m T with
  | (Ret a, T1, o1) => match f a T1 with (r, T2, o2) => (r, T2, o1 ++ o2) end
  | (Throw, T1, o1) => (Throw, T1, o1)
  end.

Definition throw {A} : M A := λ T, (Throw, T, []).
Definition getT : M Table := λ T, (Ret T, T, []).
Definition modifyT (f : Table → Table) : M unit := λ T, (Ret tt, f T, []).
Definition emit (o : Out) : M unit := λ T, (Ret tt, T, [o]).

(** [try { ... } catch (e) { console.error(...) }] *)
Definition catch (m : M unit) : M unit := λ T,
  match m T with (_, T1, o1) => (Ret tt, T1, o1) end.

(** Assignment to a field of the object [TABLE.game] refers to, and of the
    player object stored under [pid]. *)
Definition modifyGame (f : Game → Game) : M unit :=
  modifyT (λ T, setGame (f <$> game T) T).
Definition modifyPlayer (pid : PlayerId) (f : Player → Player) : M unit :=
  modifyT (λ T, setPlayers (alter f pid (players T)) T).

Definition broadcast (msg : Msg) : M unit := emit (Broadcast msg).

(** [sendTo(TABLE.players[pid], msg)]: nothing is sent for [undefined]. *)
Definition sendTo (pid : PlayerId) (msg : Msg) : M unit :=
  T ← getT;
  if decide (is_Some (players T !! pid)) then emit (SendTo pid msg) else mret tt.

(** [for (const x of xs) body(x)] threading a local value. *)
Fixpoint foldM {A B} (f : B → A → M B) (b : B) (l : list A) : M B :=
  match l with
  | [] => mret b
  | x :: l' => b' ← f b x; foldM f b' l'
  end.

Definition forEach {A} (l : list A) (f : A → M unit) : M unit :=
  foldM (λ _ x, f x) tt l.

(** *** The deck *)

Definition mkDeck : list Card :=
  flat_map (λ r, map (λ s, (r, s)) SUITS) RANKS.

(** [[deck[i], deck[j]] = [deck[j], deck[i]]] *)
Definition swap (i j : nat) (deck : list Card) : list Card :=
  match deck !! i, deck !! j with
  | Some a, Some b => <[j := a]> (<[i := b]> deck)
  | _, _ => deck
  end.

(** The Fisher–Yates loop; [rnd i] is the outcome of
    [Math.floor(Math.random() * (i + 1))] drawn at step [i], a number
    between [0] and [i]. *)
Definition shuffle (rnd : nat → nat) (deck : list Card) : list Card :=
  foldl (λ d i, swap i (rnd i `mod` (i + 1)) d) deck (rev (seq 1 (length deck - 1))).

(** [deck.pop()]: the last element, [undefined] on an empty array. *)
Definition pop (deck : list Card) : option Card * list Card :=
  (last deck, removelast deck).

(** *** Helpers *)

Definition contesting (ps : gmap PlayerId Player) (pid : PlayerId) : bool :=
  match ps !! pid with
  | Some p => active p && negb (folded p)
  | None => false
  end.

(** [activePlayers(game)]; the player objects are referred to by the keys
    they are stored under. *)
Definition activePlayers (ps : gmap PlayerId Player) (g : Game) : list PlayerId :=
  List.filter (contesting ps) (map pId (seatOrder g)).

(** [nextActiveIndex(game, fromIndex)]; [None] is the source's [-1]. *)
Definition nextActiveIndex (ps : gmap PlayerId Player) (g : Game) (fromIndex : nat)
    : option nat :=
  let L := length (seatOrder g) in
  head (List.filter
          (λ i, match seatOrder g !! i with
                | Some s => contesting ps (pId s)
                | None => false
                end)
          (map (λ step, (fromIndex + step) `mod` L)%nat (seq 1 L))).

Definition matched (ps : gmap PlayerId Player) (cur : Z) (pid : PlayerId) : bool :=
  match ps !! pid with
  | Some p => bool_decide (bet p = cur) || (bool_decide (chips p = 0) && (bet p <=? cur))
  | None => false
  end.

Definition everyoneMatchedCurrentBet (ps : gmap PlayerId Player) (g : Game) : bool :=
  let cur := currentBet g in
  let aps := activePlayers ps g in
  if (length aps <=? 1)%nat then true else forallb (matched ps cur) aps.

Definition numActive (ps : gmap PlayerId Player) (g : Game) : nat :=
  length (activePlayers ps g).

(** The seat object at [g.seatOrder[g.turnIndex % g.seatOrder.length]]. *)
Definition turnSeat (g : Game) : option Seat :=
  seatOrder g !! (turnIndex g `mod` length (seatOrder g))%nat.

(** The round object has no [turnPlayerId] property and nothing assigns
    one: reading it yields [undefined]. *)
Definition turnPlayerId (g : Game) : option PlayerId := None.

(** *** pokersolver

    [Hand.solve] and [Hand.winners] belong to the pokersolver package.
    The hands [Hand.winners] returns are some of the objects it was given;
    [winners] names them by their positions in its argument. *)
Class PokerSolver := {
  Hand : Type;
  solve : list (option Card) → Hand;
  descr : Hand → string;
  winners : list Hand → list nat;
}.

Section Handlers.
Context `{PokerSolver}.
(** [Date.now()] as the handler runs. *)
Context (now : Z).

Definition logToAll (msg : string) : M unit := broadcast (MLog msg now).

(** **** State broadcast *)

Definition publicPlayers (ps : gmap PlayerId Player) : gmap PlayerId PublicPlayer :=
  map_imap (λ id p, Some {| pub_id := id; pub_name := name p; pub_seat := seat p;
                            pub_chips := chips p; pub_folded := folded p |}) ps.

Definition broadcastState : M unit :=
  T ← getT;
  match game T with
  | None => broadcast (MState (seats T) (publicPlayers (players T)) None)
  | Some g =>
      match turnSeat g with
      | None => throw
      | Some s =>
          broadcast (MState (seats T) (publicPlayers (players T))
            (Some {| pub_gameId := gameId g; pub_stage := stage g;
                     pub_community := community g; pub_pot := pot g;
                     pub_currentBet := currentBet g; pub_minRaise := minRaise g;
                     pub_toCallMap := (λ p, Z.max 0 (currentBet g - bet p)) <$> players T;
                     pub_seatOrder := map pId (seatOrder g);
                     pub_turnIndex := turnIndex g; pub_turnPlayerId := pId s;
                     pub_turnEnd := turnEnd g |}))
      end
  end.

(** **** Turn timer *)

Definition clearTurnTimer : M unit :=
  modifyT (setTurnTimer None);;
  modifyGame (setTurnEnd None).

Definition startTurnTimer : M unit :=
  T ← getT;
  match game T with
  | None => mret tt
  | Some g =>
      clearTurnTimer;;
      match turnSeat g with
      | None => throw
      | Some s =>
          modifyGame (setTurnEnd (Some (now + 20000)));;
          broadcast (MTurn (pId s) (now + 20000));;
          modifyT (setTurnTimer (Some (pId s)))
      end
  end.

(** **** Settlement *)

Definition awardPotAndEnd : M unit :=
  T ← getT;
  match game T with
  | None => mret tt
  | Some g =>
      match activePlayers (players T) g with
      | [] => mret tt
      | winner :: _ =>
          modifyPlayer winner (λ p, setChips (chips p + pot g) p);;
          modifyGame (setPot 0);;
          let wname := default "" (name <$> players T !! winner) in
          broadcast (MGameEnded [(winner, wname, "last player standing")]);;
          logToAll ("Round ended early: " +:+ wname +:+ " wins by default.");;
          modifyT (λ T, setDealerIndex ((dealerIndex T + 1) `mod` length (seats T))%nat T);;
          clearTurnTimer;;
          modifyT (setGame None);;
          broadcastState;;
          logToAll "Game state reset, ready for new game."
      end
  end.

Definition cardsOf (ps : gmap PlayerId Player) (pid : PlayerId) : list (option Card) :=
  default [] (cards <$> ps !! pid).

(** [evaluated.filter((e) => winners.includes(e.hand)).map((e) => e.player)] *)
Definition winnerPlayers (aps : list PlayerId) (ws : list nat) : list PlayerId :=
  (List.filter (λ e, bool_decide (e.1 ∈ ws)) (zip (seq 0 (length aps)) aps)).*2.

Definition finishShowdown : M unit :=
  T ← getT;
  match game T with
  | None => mret tt
  | Some g =>
      let aps := activePlayers (players T) g in
      if bool_decide (aps = []) then mret tt
      else
        broadcast (MReveal (map (λ pid, (pid, cardsOf (players T) pid)) aps) (community g));;
        let evaluated :=
          map (λ pid, (pid, solve (cardsOf (players T) pid ++ community g))) aps in
        let wps := winnerPlayers aps (winners (evaluated.*2)) in
        let share := pot g / Z.of_nat (length wps) in
        forEach wps (λ pid, modifyPlayer pid (λ p, setChips (chips p + share) p));;
        modifyGame (setPot 0);;
        let summary :=
          map (λ pid, (pid, default "" (name <$> players T !! pid),
                       default "" ((λ e, descr e.2.2) <$> list_find (λ e, e.1 = pid) evaluated)))
              wps in
        broadcast (MGameEnded summary);;
        logToAll ("Showdown winners: " +:+
          String.concat ", " (map (λ s, s.1.2 +:+ " (" +:+ s.2 +:+ ")") summary));;
        modifyT (λ T, setDealerIndex ((dealerIndex T + 1) `mod` length (seats T))%nat T);;
        modifyGame (setShowdownComplete true);;
        clearTurnTimer;;
        modifyT (setGame None);;
        broadcastState;;
        logToAll "Game state reset, ready for new game."
  end.

(** **** Streets *)

Definition dealCommunity (st : Stage) (g : Game) : Game :=
  match st with
  | flop =>
      let d0 := (pop (deck g)).2 in
      let '(c1, d1) := pop d0 in
      let '(c2, d2) := pop d1 in
      let '(c3, d3) := pop d2 in
      setCommunity (community g ++ [c1; c2; c3]) (setDeck d3 g)
  | turn | river =>
      let d0 := (pop (deck g)).2 in
      let '(c1, d1) := pop d0 in
      setCommunity (community g ++ [c1]) (setDeck d1 g)
  | preflop => g
  end.

Definition startBettingRound (st : Stage) : M unit :=
  T ← getT;
  match game T with
  | None => mret tt
  | Some _ =>
      modifyGame (λ g,
        setTurnIndex ((gDealerIndex g + 1) `mod` length (seatOrder g))%nat
          (setActionCount 0 (setMinRaise (bigBlind g) (setCurrentBet 0 (setStage st g)))));;
      T ← getT;
      forEach (default [] (activePlayers (players T) <$> game T))
              (λ pid, modifyPlayer pid (setBet 0));;
      modifyGame (dealCommunity st);;
      T ← getT;
      if (default 0%nat (numActive (players T) <$> game T) <=? 1)%nat then awardPotAndEnd
      else broadcastState;; startTurnTimer
  end.

(** **** Actions *)

Definition advanceTurnAfterAction (kind : string) : M unit :=
  T ← getT;
  match game T with
  | None => mret tt
  | Some _ =>
      (if bool_decide (kind ≠ "fold")
       then modifyGame (λ g, setActionCount (actionCount g + 1) g)
       else mret tt);;
      T ← getT;
      match game T with
      | None => mret tt
      | Some g =>
          match nextActiveIndex (players T) g (turnIndex g) with
          | None => awardPotAndEnd
          | Some nextIdx =>
              modifyGame (setTurnIndex nextIdx);;
              let aps := activePlayers (players T) g in
              if (length aps <=? 1)%nat then awardPotAndEnd
              else
                let roundComplete :=
                  if bool_decide (currentBet g = 0)
                  then Z.of_nat (length aps) <=? actionCount g
                  else everyoneMatchedCurrentBet (players T) g in
                if roundComplete then
                  modifyGame (setActionCount 0);;
                  match stage g with
                  | preflop => startBettingRound flop
                  | flop => startBettingRound turn
                  | turn => startBettingRound river
                  | river => finishShowdown
                  end
                else broadcastState;; startTurnTimer
          end
      end
  end.

Definition processAction (playerId : PlayerId) (action : string) (amount : Z) : M unit :=
  T ← getT;
  match game T with
  | None => sendTo playerId (MError "No game in progress")
  | Some g =>
      match turnSeat g with
      | None => throw
      | Some cur =>
          if bool_decide (pId cur ≠ playerId) then
            sendTo playerId (MError "Not your turn")
          else
            clearTurnTimer;;
            match players T !! playerId with
            | None => throw
            | Some p =>
                let toCall := Z.max 0 (currentBet g - bet p) in
                if bool_decide (action = "fold") then
                  modifyPlayer playerId (setFolded true);;
                  logToAll (name p +:+ " folds.");;
                  T ← getT;
                  if (numActive (players T) g <=? 1)%nat then awardPotAndEnd
                  else advanceTurnAfterAction action
                else if bool_decide (action = "call" ∨ action = "check") then
                  (if bool_decide (toCall = 0) then logToAll (name p +:+ " checks.")
                   else
                     let paid := Z.min toCall (chips p) in
                     modifyPlayer playerId
                       (λ p, setBet (bet p + paid) (setChips (chips p - paid) p));;
                     modifyGame (λ g, setPot (pot g + paid) g);;
                     logToAll (name p +:+ " calls " +:+ pretty paid +:+ ".");;
                     broadcast (MCollect playerId paid));;
                  advanceTurnAfterAction action
                else if bool_decide (action = "raise") then
                  if amount <? minRaise g then
                    sendTo playerId
                      (MError ("Raise must be at least " +:+ pretty (minRaise g)));;
                    startTurnTimer
                  else
                    let totalBet := bet p + toCall + amount in
                    let capped := bool_decide (chips p < toCall + amount) in
                    let paid := if capped then chips p else toCall + amount in
                    let amount := if capped then paid - toCall else amount in
                    modifyPlayer playerId
                      (λ p, setBet totalBet (setChips (chips p - paid) p));;
                    modifyGame (λ g,
                      setMinRaise amount (setCurrentBet totalBet (setPot (pot g + paid) g)));;
                    broadcast (MCollect playerId paid);;
                    logToAll (name p +:+ " raises to " +:+ pretty totalBet +:+ ".");;
                    advanceTurnAfterAction "raise"
                else
                  sendTo playerId (MError "Unknown action");;
                  startTurnTimer
            end
      end
  end.

(** The callback [startTurnTimer] arms, run when the pending timeout
    expires.  The round it captured is the one [TABLE.game] refers to:
    every path that replaces or drops the round clears the timer first. *)
Definition onTurnTimeout : M unit :=
  T ← getT;
  match turnTimer T with
  | None => mret tt
  | Some curPid =>
      modifyT (setTurnTimer None);;
      match players T !! curPid with
      | Some p =>
          if folded p then mret tt
          else
            modifyPlayer curPid (setFolded true);;
            logToAll (name p +:+ " timed out and folded.");;
            T ← getT;
            match game T with
            | None => mret tt
            | Some g =>
                if (numActive (players T) g <=? 1)%nat then awardPotAndEnd
                else advanceTurnAfterAction "fold"
            end
      | None => mret tt
      end
  end.

(** **** Game lifecycle *)

(** [Boolean(id)] on a seat entry. *)
Definition truthy (s : option PlayerId) : bool :=
  match s with Some id => bool_decide (id ≠ "") | None => false end.

(** [TABLE.seats.map((pId, idx) => ({ pId, idx })).filter((s) => s.pId !== null)] *)
Definition occupied (ss : list (option PlayerId)) : list Seat :=
  omap (λ e, (λ id, {| pId := id; idx := e.1 |}) <$> e.2) (zip (seq 0 (length ss)) ss).

Definition seatKey (dealer : nat) (s : Seat) : Z :=
  Z.rem (Z.of_nat (idx s) - Z.of_nat dealer + 6) 6.

Definition resetPlayer (p : Player) : Player :=
  setBet 0 (setActive (bool_decide (seat p ≠ None))
    (setFolded (negb (bool_decide (seat p ≠ None))) (setCards [] p))).

Definition dealTo (g : Game) (s : Seat) : M Game :=
  T ← getT;
  match players T !! pId s with
  | Some p =>
      if active p then
        let '(c, d) := pop (deck g) in
        modifyPlayer (pId s) (λ p, setCards (cards p ++ [c]) p);;
        mret (setDeck d g)
      else mret g
  | None => mret g
  end.

Definition postBlind (pid : PlayerId) (blind : Z) : M unit :=
  T ← getT;
  match players T !! pid with
  | None => throw
  | Some _ =>
      modifyPlayer pid (λ p, setBet blind (setChips (Z.max 0 (chips p - blind)) p))
  end.

(** [startGame()]; [newId] is the uuid drawn for the round and [rnd] the
    random numbers [shuffle] draws. *)
Definition startGame (newId : string) (rnd : nat → nat) : M unit :=
  T ← getT;
  (if bool_decide (showdownComplete <$> game T = Some true)
   then modifyT (setGame None) else mret tt);;
  T ← getT;
  match game T with
  | Some _ => mret tt
  | None =>
      if (length (List.filter truthy (seats T)) <? 2)%nat then mret tt
      else
        broadcast MGameStarted;;
        let g :=
          {| gameId := newId; deck := shuffle rnd mkDeck; community := []; pot := 0;
             smallBlind := 10; bigBlind := 20; gDealerIndex := dealerIndex T;
             seatOrder :=
               js_sort (λ a b, seatKey (dealerIndex T) a - seatKey (dealerIndex T) b)
                       (occupied (seats T));
             stage := preflop; currentBet := 0; minRaise := 20; actionCount := 0;
             turnIndex := 0; turnEnd := None; showdownComplete := false |} in
        modifyT (λ T, setPlayers (resetPlayer <$> players T) T);;
        g ← foldM dealTo g (seatOrder g ++ seatOrder g);
        match seatOrder g !! 0%nat, seatOrder g !! 1%nat with
        | Some s0, Some s1 =>
            postBlind (pId s0) (smallBlind g);;
            let g := setPot (pot g + smallBlind g) g in
            postBlind (pId s1) (bigBlind g);;
            let g := setPot (pot g + bigBlind g) g in
            let g := setMinRaise (bigBlind g) (setCurrentBet (bigBlind g) g) in
            let g := setTurnIndex (2 `mod` length (seatOrder g))%nat g in
            modifyT (setGame (Some g));;
            forEach (seatOrder g) (λ s,
              T ← getT;
              match players T !! pId s with
              | Some p => sendTo (pId s) (MHand (cards p))
              | None => throw
              end);;
            broadcastState;;
            startTurnTimer;;
            logToAll "New game started."
        | _, _ => throw
        end
  end.

(** **** WebSocket handlers *)

Inductive ClientMsg :=
  | Join (name_ : string)
  | TakeSeat (seat_ : Z)
  | LeaveSeat
  | StartGame (newId : string) (rnd : nat → nat)
  | Action (action : string) (amount : Z)
  | Other.

(** A new connection; [wsId] is the uuid it is given.  A fresh socket
    carries no [id], so the lookup that would re-attach an existing
    player finds none and a new player is always created. *)
Definition onConnection (wsId : PlayerId) : M unit :=
  T ← getT;
  let player :=
    {| name := "Guest" +:+ pretty (size (players T) + 1)%nat; seat := None; chips := 1000;
       cards := []; folded := true; active := false; bet := 0 |} in
  modifyT (λ T, setPlayers (<[wsId := player]> (players T)) T);;
  sendTo wsId (MJoined wsId (name player));;
  broadcastState.

Definition takeSeat (wsId : PlayerId) (st : Z) : M unit :=
  T ← getT;
  match players T !! wsId with
  | None => mret tt
  | Some player =>
      if bool_decide (seat player ≠ None) then
        sendTo wsId (MError "Already seated, cannot take another seat")
      else if bool_decide (game T ≠ None) then
        sendTo wsId (MError "Game in progress: cannot change seats")
      else if (st <? 0) || (5 <? st)
              || negb (bool_decide (seats T !! Z.to_nat st = Some None)) then
        mret tt
      else
        modifyT (λ T, setSeats (<[Z.to_nat st := Some wsId]> (seats T)) T);;
        modifyPlayer wsId (λ p,
          setFolded false (setActive true (setSeat (Some (Z.to_nat st)) p)));;
        logToAll (name player +:+ " took seat " +:+ pretty (st + 1) +:+ ".");;
        broadcastState
  end.

Definition leaveSeat (wsId : PlayerId) : M unit :=
  T ← getT;
  match players T !! wsId with
  | None => mret tt
  | Some player =>
      if bool_decide (game T ≠ None) then
        sendTo wsId (MError "Game in progress: cannot change seats")
      else
        match seat player with
        | None => mret tt
        | Some i =>
            modifyT (λ T, setSeats (<[i := None]> (seats T)) T);;
            modifyPlayer wsId (λ p, setFolded true (setActive false (setSeat None p)));;
            logToAll (name player +:+ " left their seat.");;
            broadcastState
        end
  end.

Definition join (wsId : PlayerId) (nm : string) : M unit :=
  T ← getT;
  match players T !! wsId with
  | None => mret tt
  | Some player =>
      if bool_decide (seat player ≠ None) then
        sendTo wsId (MError "Already seated, cannot join again")
      else
        let nm' := String.substring 0 20 (if bool_decide (nm = "") then name player else nm) in
        modifyPlayer wsId (setName nm');;
        sendTo wsId (MJoined wsId nm');;
        broadcastState
  end.

(** [ws.on("message", ...)] of the connection [wsId]. *)
Definition onMessage (wsId : PlayerId) (data : ClientMsg) : M unit :=
  catch
    match data with
    | Join nm => join wsId nm
    | TakeSeat st => takeSeat wsId st
    | LeaveSeat => leaveSeat wsId
    | StartGame newId rnd => startGame newId rnd
    | Action action amount => processAction wsId action amount
    | Other => mret tt
    end.

(** [ws.on("close", ...)] of the connection [wsId]. *)
Definition onClose (wsId : PlayerId) : M unit :=
  T ← getT;
  match players T !! wsId with
  | None => mret tt
  | Some p =>
      logToAll (name p +:+ " disconnected.");;
      (match game T with
       | None => mret tt
       | Some g =>
           modifyPlayer wsId (λ p, setActive false (setFolded true p));;
           (if bool_decide (turnPlayerId g = Some wsId)
            then clearTurnTimer;; advanceTurnAfterAction "fold"
            else mret tt);;
           T ← getT;
           match game T with
           | None => throw
           | Some g =>
               if (numActive (players T) g <=? 1)%nat then awardPotAndEnd else mret tt
           end
       end);;
      (match seat p with
       | Some i => modifyT (λ T, setSeats (<[i := None]> (seats T)) T)
       | None => mret tt
       end);;
      modifyT (λ T, setPlayers (delete wsId (players T)) T);;
      broadcastState
  end.

End Handlers.

End Server.

(** ** Chip accounting and concrete tables *)

Module Accounting.
Import Server.

(** The chips held in all registered stacks. *)
Definition totalChips (ps : gmap PlayerId Player) : Z :=
  map_fold (λ _ p acc, chips p + acc) 0 ps.

(** The pot of the round in progress. *)
Definition potInFlight (T : Table) : Z :=
  match game T with Some g => pot g | None => 0 end.

Definition chipsInPlay (T : Table) : Z := totalChips (players T) + potInFlight T.

(** The players [finishShowdown] pays: the contesting players whose hands
    [Hand.winners] returns. *)
Definition showdownHands `{PokerSolver} (T : Table) (g : Game) : list Hand :=
  map (λ pid, solve (cardsOf (players T) pid ++ community g)) (activePlayers (players T) g).

Definition showdownWinners `{PokerSolver} (T : Table) (g : Game) : list PlayerId :=
  winnerPlayers (activePlayers (players T) g) (winners (showdownHands T g)).

(** Running a handler: the table it leaves and the messages it produced. *)
Definition exec {A} (m : M A) (T : Table) : Table := (m T).1.2.
Definition outputs {A} (m : M A) (T : Table) : list Out := (m T).2.
Definition returned {A} (m : M A) (T : Table) : bool :=
  match (m T).1.1 with Ret _ => true | Throw => false end.

(** A stand-in for pokersolver built on the repository's own evaluator:
    a hand is valued by [evaluate7]'s score and the winners are the hands
    of greatest value. *)
Definition scoreOf (h : option Best) : Z :=
  match h with Some b => score (result b) | None => -1 end.

Definition bestPositions (hs : list (option Best)) : list nat :=
  List.filter
    (λ i, match hs !! i with
          | Some h => forallb (λ h', scoreOf h' <=? scoreOf h) hs
          | None => false
          end)
    (seq 0 (length hs)).

#[global] Instance scoreSolver : PokerSolver := {|
  Hand := option Best;
  solve := λ cs, evaluate7 (omap id cs);
  descr := λ h, match h with Some b => handName (result b) | None => "" end;
  winners := bestPositions;
|}.

(** A handler that moves no chips in or out of play. *)
Definition Conserves {A} (m : M A) : Prop :=
  ∀ T, chipsInPlay (exec m T) = chipsInPlay T.

(** [settles now m T]: running [m] on [T] keeps the chips in play, except
    that it may finish with the showdown pay-out. *)
Definition settles `{PokerSolver} (now : Z) {A} (m : M A) (T : Table) : Prop :=
  ∃ Tmid, chipsInPlay Tmid = chipsInPlay T
        ∧ (exec m T = Tmid ∨ exec m T = exec (finishShowdown now) Tmid).

Definition Settles `{PokerSolver} (now : Z) {A} (m : M A) : Prop := ∀ T, settles now m T.

(** The stacks after each player of [l] has been paid [share]. *)
Definition payShare (share : Z) (ps : gmap PlayerId Player) (l : list PlayerId)
    : gmap PlayerId Player :=
  foldl (λ ps pid, alter (λ p, setChips (chips p + share) p) pid ps) ps l.

(** Inbound events, each with the clock reading it is handled at. *)
Inductive Event :=
  | EConnect (wsId : PlayerId)
  | EMessage (wsId : PlayerId) (data : ClientMsg)
  | EClose (wsId : PlayerId)
  | ETimeout.

Definition handle `{PokerSolver} (now : Z) (e : Event) : M unit :=
  match e with
  | EConnect wsId => onConnection wsId
  | EMessage wsId data => onMessage now wsId data
  | EClose wsId => onClose now wsId
  | ETimeout => onTurnTimeout now
  end.

Definition run `{PokerSolver} (T : Table) (es : list (Z * Event)) : Table :=
  foldl (λ T e, exec (handle e.1 e.2) T) T es.

(** The events of a hand in progress: player actions and turn timeouts. *)
Definition inHand (e : Event) : bool :=
  match e with
  | EMessage _ (Action _ _) | ETimeout => true
  | _ => false
  end.

(** The order of play [startGame] derives from the seats. *)
Definition handOrder (T : Table) : list Seat :=
  js_sort (λ a b, seatKey (dealerIndex T) a - seatKey (dealerIndex T) b) (occupied (seats T)).

(** *** Concrete tables

    Three players connect and sit down; [noShuffle] is the run of random
    numbers under which [shuffle] swaps every card with itself.  The tables
    are kept in evaluated form. *)
Definition noShuffle (i : nat) : nat := i.

Definition seated (i j k : Z) : list (Z * Event) :=
  [(0, EConnect "a"); (0, EConnect "b"); (0, EConnect "c");
   (1, EMessage "a" (TakeSeat i)); (1, EMessage "b" (TakeSeat j));
   (1, EMessage "c" (TakeSeat k))].

Definition deal : Z * Event := (2, EMessage "a" (StartGame "round-1" noShuffle)).

Definition act (pid : PlayerId) (action : string) (amount : Z) : Z * Event :=
  (3, EMessage pid (Action action amount)).

(** Seats 0, 1, 2 with the button on seat 0. *)
Definition lobby012 : Table := Eval vm_compute in run TABLE0 (seated 0 1 2).
Definition started012 : Table := Eval vm_compute in run lobby012 [deal].

(** Seats 1, 2, 3 with the button on the empty seat 0. *)
Definition lobby123 : Table := Eval vm_compute in run TABLE0 (seated 1 2 3).
Definition started123 : Table := Eval vm_compute in run lobby123 [deal].

(** A hand played to the last check of the river: "a" folds after putting
    in 41, "b" and "c" put in 62 each. *)
Definition toRiver : list (Z * Event) :=
  [act "c" "raise" 21; act "a" "call" 0; act "b" "raise" 21; act "c" "call" 0;
   act "a" "fold" 0;
   act "b" "check" 0; act "c" "check" 0;
   act "b" "check" 0; act "c" "check" 0;
   act "b" "check" 0].

Definition river012 : Table := Eval vm_compute in run started012 toRiver.


(** Two players connected, "a" on seat 0. *)
Definition oneSeated : Table := Eval vm_compute in
  run TABLE0 [(0, EConnect "a"); (0, EConnect "b"); (1, EMessage "a" (TakeSeat 0))].

(** A table whose small blind holds 5 chips. *)
Definition shortStack012 : Table := Eval vm_compute in
  setPlayers (alter (setChips 5) "a" (players lobby012)) lobby012.

Definition stackOf (T : Table) (pid : PlayerId) : option Z := chips <$> players T !! pid.
Definition betOf (T : Table) (pid : PlayerId) : option Z := bet <$> players T !! pid.

(** *** The range in which the arithmetic is exact

    Stacks, street bets, the pot and the current bet are JavaScript numbers,
    and a raise amount is the number the client sent, unchecked.  Such a
    number holds every integer of magnitude up to [2^53] exactly.  From
    integers within [±2^48] every sum, difference and share that one event
    makes the handlers form stays below [2^53], so that there the server
    computes what the definitions above compute on [Z].  [small] is that
    range; [minRaise] is only compared and needs no bound. *)
Definition small (z : Z) : bool := (- 2 ^ 48 <=? z) && (z <=? 2 ^ 48).

Definition smallPlayer (p : Player) : bool := small (chips p) && small (bet p).

Definition smallGame (g : Game) : bool := small (pot g) && small (currentBet g).

Definition smallTable (T : Table) : bool :=
  forallb (λ e, smallPlayer e.2) (map_to_list (players T))
  && match game T with Some g => smallGame g | None => true end.

Definition smallEvent (e : Event) : bool :=
  match e with
  | EMessage _ (Action _ amount) => small amount
  | _ => true
  end.

(** Every event of the run is small and is handled on a small table. *)
Fixpoint smallRun `{PokerSolver} (T : Table) (es : list (Z * Event)) : bool :=
  match es with
  | [] => true
  | e :: es' => smallTable T && smallEvent e.2 && smallRun (exec (handle e.1 e.2) T) es'
  end.

End Accounting.
(** ** Notions used to state further properties of the server *)

Module Invariants.
Import Server Accounting.

(** Whether the seat at position [i] of [seatOrder] holds a contesting
    player. *)
Definition contestingAt (ps : gmap PlayerId Player) (g : Game) (i : nat) : bool :=
  match seatOrder g !! i with
  | Some s => contesting ps (pId s)
  | None => false
  end.

(** What identifies a player at the table: the name and the seat. *)
Definition idOf (p : Player) : string * option nat := (name p, seat p).

(** What identifies a round: the fields set once by [startGame]. *)
Definition roundId (g : Game) : string * list Seat * Z * Z * nat :=
  (gameId g, seatOrder g, smallBlind g, bigBlind g, gDealerIndex g).

Definition stageRank (st : Stage) : nat :=
  match st with preflop => 0 | flop => 1 | turn => 2 | river => 3 end.

Definition nextStage (st : Stage) : option Stage :=
  match st with
  | preflop => Some flop
  | flop => Some turn
  | turn => Some river
  | river => None
  end.

(** The number of community cards on the board at each stage. *)
Definition boardSize (st : Stage) : nat :=
  match st with preflop => 0 | flop => 3 | turn => 4 | river => 5 end.

(** The elementary changes a hand in progress makes to the table:
    - fields of players other than the name and the seat are assigned;
    - fields of the round other than its identity, stage, board, deck and
      [showdownComplete] are assigned, the turn index and deadline only while no timer is
      pending;
    - the round moves to the next stage, cards going from the end of the
      deck to the board, while no timer is pending;
    - the pending timer is cancelled or expires;
    - a timer is armed for the player at the turn index;
    - the round is settled and dropped. *)
Inductive move : Table → Table → Prop :=
  | move_players T ps :
      idOf <$> ps = idOf <$> players T →
      move T (setPlayers ps T)
  | move_game T g g' :
      game T = Some g →
      roundId g' = roundId g → stage g' = stage g →
      community g' = community g → deck g' = deck g →
      showdownComplete g' = showdownComplete g →
      turnTimer T = None ∨ (turnIndex g' = turnIndex g ∧ turnEnd g' = turnEnd g) →
      move T (setGame (Some g') T)
  | move_street T g g' cs :
      game T = Some g →
      turnTimer T = None →
      roundId g' = roundId g → nextStage (stage g) = Some (stage g') →
      community g' = community g ++ cs →
      length cs = (boardSize (stage g') - boardSize (stage g))%nat →
      deck g' `prefix_of` deck g →
      showdownComplete g' = showdownComplete g →
      move T (setGame (Some g') T)
  | move_timer_off T :
      move T (setTurnTimer None T)
  | move_arm T g s :
      game T = Some g → turnSeat g = Some s → is_Some (turnEnd g) →
      move T (setTurnTimer (Some (pId s)) T)
  | move_settle T ps d :
      idOf <$> ps = idOf <$> players T →
      move T {| seats := seats T; players := ps; game := None; dealerIndex := d;
                turnTimer := None |}.

(** Who sits where, and under which name, is the same in both tables. *)
Definition sameSeating (T T' : Table) : Prop :=
  seats T' = seats T ∧ idOf <$> players T' = idOf <$> players T.

(** A round of [T'] is the round of [T], at the same or a later stage. *)
Definition roundGoesOn (T T' : Table) : Prop :=
  ∀ g', game T' = Some g' →
    ∃ g, game T = Some g
      ∧ roundId g' = roundId g
      ∧ (stageRank (stage g) ≤ stageRank (stage g'))%nat
      ∧ community g `prefix_of` community g'
      ∧ deck g' `prefix_of` deck g
      ∧ dealerIndex T' = dealerIndex T.

(** The round, the timer and the dealer button are the same in both
    tables. *)
Definition sameRound (T T' : Table) : Prop :=
  game T' = game T ∧ turnTimer T' = turnTimer T ∧ dealerIndex T' = dealerIndex T.

(** A pending timer is the one of the player at the turn index of the
    current round, whose deadline is set. *)
Definition timerSound (T : Table) : Prop :=
  ∀ pid, turnTimer T = Some pid →
    ∃ g s, game T = Some g ∧ turnSeat g = Some s ∧ pId s = pid ∧ is_Some (turnEnd g).

(** The board holds as many cards as the stage of the round asks for. *)
Definition boardOk (T : Table) : Prop :=
  ∀ g, game T = Some g → length (community g) = boardSize (stage g).

(** No round left on the table is marked as shown down. *)
Definition flagClear (T : Table) : Prop :=
  ∀ g, game T = Some g → showdownComplete g = false.

(** The seat array and the [seat] fields of the players agree. *)
Definition seatingOk (T : Table) : Prop :=
  length (seats T) = 6%nat
  ∧ (∀ i pid, seats T !! i = Some (Some pid) →
       ∃ p, players T !! pid = Some p ∧ seat p = Some i)
  ∧ (∀ pid p i, players T !! pid = Some p → seat p = Some i →
       seats T !! i = Some (Some pid)).

(** Requests and events by kind. *)
Definition isStart (e : Event) : bool :=
  match e with EMessage _ (StartGame _ _) => true | _ => false end.

Definition playEvent (e : Event) : bool := inHand e || isStart e.

End Invariants.

Lemma sort_insert_elem {A} (cmp : A → A → Z) x y l :
  y ∈ sort_insert cmp x l ↔ y = x ∨ y ∈ l.
Proof.
  induction l as [|z l IH]; simpl.
  - rewrite list_elem_of_singleton, elem_of_nil. tauto.
  - destruct (cmp x z <? 0); rewrite !elem_of_cons; [tauto|].
    rewrite IH. tauto.
Qed.

Lemma js_sort_elem {A} (cmp : A → A → Z) y l : y ∈ js_sort cmp l ↔ y ∈ l.
Proof.
  unfold js_sort.
  enough (∀ acc, y ∈ foldl (λ acc x, sort_insert cmp x acc) acc l ↔ y ∈ acc ∨ y ∈ l) as H.
  { rewrite H, elem_of_nil. tauto. }
  induction l as [|x l IH]; intros acc; simpl.
  - rewrite elem_of_nil. tauto.
  - rewrite IH, sort_insert_elem, elem_of_cons. tauto.
Qed.

(** ** Properties of the evaluator *)

Module EvaluatorFacts.
Import Evaluator EvaluatorSpec.

Lemma rankValue_range (r : Rank) : 0 ≤ rankValue r ≤ 12.
Proof. destruct r; vm_compute; split; discriminate. Qed.

Ltac band_lia :=
  cbn [score handName];
  match goal with
  | |- context [band ?n] =>
      let b := eval vm_compute in (band n) in
      change (band n) with b; lia
  end.

Lemma straightScan_hit values hs :
  straightScan values = (true, hs) → ∃ v, hs = Some v ∧ v ∈ values.
Proof.
  unfold straightScan.
  set (f := λ (acc : bool * option Z) (i : nat), _).
  enough (∀ idx acc,
    (acc.1 = true → ∃ v, acc.2 = Some v ∧ v ∈ values) →
    (foldl f acc idx).1 = true → ∃ v, (foldl f acc idx).2 = Some v ∧ v ∈ values) as H.
  { intros E. specialize (H (seq 0 (length values - 4)) (false, None)).
    rewrite E in H. apply H; [discriminate | reflexivity]. }
  induction idx as [|i idx IH]; intros acc Hacc; simpl; [exact Hacc|].
  apply IH. unfold f.
  destruct (values !! (i + 4)%nat) as [hi|] eqn:Ehi; [|exact Hacc].
  destruct (values !! i) as [lo|]; [|exact Hacc].
  destruct (hi - lo =? 4); [|exact Hacc].
  intros _. exists hi. split; [reflexivity|].
  apply list_elem_of_lookup. eauto.
Qed.

Lemma straightCheck_hit u hs :
  straightCheck u = (true, hs) → ∃ v, hs = Some v ∧ 0 ≤ v ≤ 12.
Proof.
  unfold straightCheck.
  destruct (5 <=? length u)%nat; [|discriminate].
  destruct (isWheel _).
  - intros [= <-]. exists 3. split; [reflexivity | lia].
  - intros E. apply straightScan_hit in E as (v & -> & Hv).
    exists v. split; [reflexivity|].
    apply js_sort_elem, list_elem_of_In, in_map_iff in Hv as (r & <- & _).
    apply rankValue_range.
Qed.

Lemma bump_nonempty r counts : bump r counts ≠ [].
Proof. destruct counts as [|[r' c] rest]; simpl; [|destruct (decide _)]; discriminate. Qed.

Lemma js_sort_nil_inv {A} (cmp : A → A → Z) l : js_sort cmp l = [] → l = [].
Proof.
  intros E. destruct l as [|x l]; [reflexivity|].
  assert (x ∈ js_sort cmp (x :: l)) as H by (apply js_sort_elem; left).
  rewrite E in H. by apply elem_of_nil in H.
Qed.

Lemma counts_nonempty (ranks : list Rank) :
  ranks ≠ [] → foldl (λ acc r, bump r acc) [] ranks ≠ [].
Proof.
  destruct ranks as [|r ranks _] using rev_ind; [done|].
  intros _. rewrite foldl_app. simpl. apply bump_nonempty.
Qed.

Lemma lastRankValue_range ranks : ranks ≠ [] → 0 ≤ lastRankValue ranks ≤ 12.
Proof.
  intros H. unfold lastRankValue.
  destruct (last ranks) as [r|] eqn:E; [apply rankValue_range|].
  apply last_None in E. contradiction.
Qed.

(** Every score lies in the band of its hand name: band × 10^6 plus a rank
    value between 0 and 12. *)
Lemma evaluate5_band hand r :
  evaluate5 hand = Some r →
  band (handName r) * 1000000 ≤ score r ≤ band (handName r) * 1000000 + 12.
Proof.
  unfold evaluate5.
  set (ranks := js_sort _ (map fst hand)).
  set (counts := foldl _ [] ranks).
  destruct (straightCheck (uniq [] ranks)) as [straight hs] eqn:Es.
  set (flush := forallb _ _).
  set (countsArr := js_sort _ counts).
  assert (straight = true → 0 ≤ numOf hs ≤ 12) as Hhs.
  { intros ->. apply straightCheck_hit in Es as (v & -> & Hv). exact Hv. }
  destruct (straight && flush) eqn:Esf.
  { apply andb_true_iff in Esf as [-> _]. specialize (Hhs eq_refl).
    case_bool_decide; intros [= <-]; band_lia. }
  destruct (countsArr !! 0%nat) as [[r0 c0]|] eqn:E0; [|discriminate].
  assert (ranks ≠ []) as Hne.
  { intros Hr. subst countsArr counts. rewrite Hr in E0. discriminate. }
  pose proof (rankValue_range r0) as Hr0.
  pose proof (lastRankValue_range ranks Hne) as Hl.
  simpl.
  repeat match goal with
         | |- context [bool_decide ?P] => destruct (bool_decide P); simpl
         | |- context [if flush then _ else _] => destruct flush; simpl
         | |- context [if straight then _ else _] =>
             destruct straight; [specialize (Hhs eq_refl)|]; simpl
         end;
    intros [= <-]; band_lia.
Qed.

Lemma evaluate5_total hand : hand ≠ [] → is_Some (evaluate5 hand).
Proof.
  intros Hne. unfold evaluate5.
  set (ranks := js_sort _ (map fst hand)).
  set (counts := foldl _ [] ranks).
  destruct (straightCheck (uniq [] ranks)) as [straight hs].
  set (flush := forallb _ _).
  set (countsArr := js_sort _ counts).
  destruct (straight && flush); [case_bool_decide; eauto|].
  destruct (countsArr !! 0%nat) as [[r0 c0]|] eqn:E0.
  - simpl.
    repeat match goal with
           | |- context [bool_decide ?P] => destruct (bool_decide P); simpl
           | |- context [if flush then _ else _] => destruct flush; simpl
           | |- context [if straight then _ else _] => destruct straight; simpl
           end; eauto.
  - exfalso. destruct countsArr eqn:Ec; [|discriminate].
    subst countsArr. apply js_sort_nil_inv in Ec.
    apply (counts_nonempty ranks); [|exact Ec].
    intros Hr. subst ranks. apply js_sort_nil_inv in Hr.
    destruct hand; [done | discriminate].
Qed.

Lemma evaluate5_score_nonneg hand r : evaluate5 hand = Some r → 0 ≤ score r.
Proof.
  intros E. pose proof (evaluate5_band _ _ E) as [H _].
  assert (0 ≤ band (handName r)); [|lia].
  unfold band. case_decide; lia.
Qed.

(** *** getCombinations enumerates the k-subsets *)

Section Combinations.
Context {A : Type}.
Implicit Types l c : list A.

Lemma combs_elem l k c : c ∈ combs l k ↔ c `sublist_of` l ∧ length c = k.
Proof.
  revert k c. induction l as [|x l IH]; intros k c.
  - destruct k; simpl.
    + rewrite list_elem_of_singleton, sublist_nil_r.
      split; [intros ->; done | intros [-> _]; done].
    + rewrite elem_of_nil, sublist_nil_r. split; [done | intros [-> ?]; done].
  - destruct k; simpl.
    + rewrite list_elem_of_singleton. split.
      * intros ->. split; [apply sublist_nil_l | done].
      * intros [_ H]. by apply nil_length_inv.
    + rewrite elem_of_app, list_elem_of_fmap, IH, sublist_cons_r. split.
      * intros [(c' & -> & H)|[H1 H2]].
        -- apply IH in H as [H1 H2]. split; [right; eauto | simpl; lia].
        -- split; [left; done | done].
      * intros [[H1|(c' & -> & H1)] H2].
        -- right. done.
        -- left. exists c'. split; [done|]. apply IH. split; [done | simpl in H2; lia].
Qed.

Lemma combs_length l k : length (combs l k) = choose (length l) k.
Proof.
  revert k. induction l as [|x l IH]; intros [|k]; simpl; try done.
  by rewrite length_app, length_map, !IH.
Qed.

Lemma combs_NoDup l k : NoDup l → NoDup (combs l k).
Proof.
  revert k. induction l as [|x l IH]; intros k Hl.
  - destruct k; simpl; [apply NoDup_singleton | apply NoDup_nil_2].
  - destruct k; simpl; [apply NoDup_singleton|].
    apply NoDup_cons in Hl as [Hx Hl].
    apply NoDup_app. split_and!.
    + apply NoDup_fmap_2; [intros ?? [=]; done | by apply IH].
    + intros c (c' & -> & _)%list_elem_of_fmap [Hc _]%combs_elem.
      apply Hx. eapply elem_of_sublist; [|exact Hc]. left.
    + by apply IH.
Qed.
End Combinations.

Lemma helper_combs cards k fuel start combo :
  (length combo ≤ k)%nat →
  (length cards - start < fuel)%nat →
  helper cards k fuel start combo
  = map (app combo) (combs (drop start cards) (k - length combo)).
Proof.
  revert start combo. induction fuel as [|fuel IH]; intros start combo Hk Hf; [lia|].
  simpl. destruct (Nat.eqb_spec (length combo) k) as [->|Hne].
  { rewrite Nat.sub_diag. destruct (drop start cards); simpl; by rewrite app_nil_r. }
  destruct (k - length combo)%nat as [|k'] eqn:Ek; [lia|].
  (* the loop over [i = start .. cards.length - 1] *)
  remember (length cards - start)%nat as d eqn:Ed.
  assert (d ≤ fuel)%nat as Hd by lia. clear Hf Hne.
  revert start Ed. induction d as [|d IHd]; intros start Ed.
  - simpl. rewrite drop_ge by lia. done.
  - simpl.
    destruct (cards !! start) as [c|] eqn:Ec;
      [|apply lookup_ge_None in Ec; lia].
    rewrite (drop_S _ _ _ Ec). simpl.
    rewrite IH by (rewrite ?length_app; simpl; lia).
    rewrite length_app. simpl.
    replace (k - (length combo + 1))%nat with k' by lia.
    rewrite Nat.add_1_r, map_app, map_map. f_equal.
    + apply map_ext. intros a. by rewrite <- app_assoc.
    + apply IHd; lia.
Qed.

Lemma getCombinations_combs cards k : getCombinations cards k = combs cards k.
Proof.
  unfold getCombinations. rewrite helper_combs by (simpl; lia).
  simpl. rewrite Nat.sub_0_r, drop_0. apply map_id.
Qed.

(** *** evaluate7 keeps the first maximum *)

Lemma keepBetter_fold combos b0 :
  (∀ c, c ∈ combos → c ≠ []) →
  ∃ b, foldl keepBetter (Some b0) combos = Some b
     ∧ score (result b0) ≤ score (result b)
     ∧ (b = b0 ∨ hand b ∈ combos ∧ evaluate5 (hand b) = Some (result b))
     ∧ ∀ c, c ∈ combos → ∃ r, evaluate5 c = Some r ∧ score r ≤ score (result b).
Proof.
  revert b0. induction combos as [|c combos IH]; intros b0 Hne; simpl.
  - exists b0. split_and!; [done | lia | by left |]. by intros c ?%elem_of_nil.
  - destruct (evaluate5_total c) as [r Er]; [apply Hne; left|].
    rewrite Er. simpl.
    set (b1 := if score (result b0) <? score r then _ else b0).
    destruct (IH b1) as (b & Eb & Hle & Hb & Hmax).
    { intros c' Hc'. apply Hne. by right. }
    assert (score (result b0) ≤ score (result b1) ∧ score r ≤ score (result b1)
            ∧ (b1 = b0 ∨ hand b1 = c ∧ result b1 = r)) as (H0 & H1 & H2).
    { subst b1. destruct (Z.ltb_spec (score (result b0)) (score r)); simpl.
      - split_and!; [lia | lia | by right].
      - split_and!; [lia | lia | by left]. }
    exists b. split_and!; [done | lia | |].
    + destruct Hb as [->|[Hin He]].
      * destruct H2 as [->|[Hh Hr]]; [by left|].
        right. rewrite Hh, Hr. split; [left | done].
      * right. split; [by right | done].
    + intros c' [->|Hc']%elem_of_cons.
      * exists r. split; [done | lia].
      * by apply Hmax.
Qed.

(** C6 — category ordering: whenever [evaluate5] puts two hands in
    different categories (royal/straight flush > four of a kind > full
    house > flush > straight > three of a kind > two pair > one pair >
    high card), the hand of the higher category has the strictly greater
    score. *)
Theorem evaluate5_category_order (h1 h2 : list Card) (r1 r2 : Eval5) :
  evaluate5 h1 = Some r1 →
  evaluate5 h2 = Some r2 →
  (category (handName r2) < category (handName r1))%nat →
  score r2 < score r1.
Proof.
  intros E1 E2 Hc.
  apply evaluate5_band in E1, E2.
  assert (band (handName r2) + 1 ≤ band (handName r1)); [|lia].
  unfold band. unfold category in *.
  repeat case_decide; lia.
Qed.

Lemma evaluate5_category_order_witness :
  evaluate5 kingHigh = Some {| score := 11; handName := "High Card" |} ∧
  evaluate5 pairOfAces = Some {| score := 1000012; handName := "One Pair" |} ∧
  11 < 1000012.
Proof.
  split; [reflexivity|]. split; [reflexivity|].
  apply (evaluate5_category_order pairOfAces kingHigh
           {| score := 1000012; handName := "One Pair" |}
           {| score := 11; handName := "High Card" |});
    [reflexivity | reflexivity | vm_compute; lia].
Defined.

(** C5 — best of 21: for seven distinct cards, [getCombinations] lists
    exactly the 21 five-card subsets, and [evaluate7] returns one of them
    together with its [evaluate5] score and name, that score being the
    greatest [evaluate5] reaches on the 21 subsets. *)
Theorem evaluate7_best_of_21 (cards : list Card) :
  length cards = 7%nat →
  NoDup cards →
  length (getCombinations cards 5) = 21%nat
  ∧ NoDup (getCombinations cards 5)
  ∧ (∀ c, c ∈ getCombinations cards 5 ↔ c `sublist_of` cards ∧ length c = 5%nat)
  ∧ ∃ best, evaluate7 cards = Some best
      ∧ hand best ∈ getCombinations cards 5
      ∧ evaluate5 (hand best) = Some (result best)
      ∧ ∀ c, c ∈ getCombinations cards 5 →
             ∃ r, evaluate5 c = Some r ∧ score r ≤ score (result best).
Proof.
  intros Hlen Hnd. unfold evaluate7. rewrite getCombinations_combs.
  assert (length (combs cards 5) = 21%nat) as H21.
  { rewrite combs_length, Hlen. reflexivity. }
  split_and!; [done | by apply combs_NoDup | apply combs_elem |].
  destruct (keepBetter_fold (combs cards 5) best0) as (b & Eb & Hle & Hb & Hmax).
  { intros c [_ Hc]%combs_elem ->. discriminate. }
  exists b. split_and!; [done | | | done].
  - destruct Hb as [->|[? ?]]; [|done]. exfalso.
    destruct (combs cards 5) as [|c cs] eqn:Ec; [discriminate|].
    destruct (Hmax c) as (r & Er & Hr); [left|].
    apply evaluate5_score_nonneg in Er. simpl in Hr. lia.
  - destruct Hb as [->|[? ?]]; [|done]. exfalso.
    destruct (combs cards 5) as [|c cs] eqn:Ec; [discriminate|].
    destruct (Hmax c) as (r & Er & Hr); [left|].
    apply evaluate5_score_nonneg in Er. simpl in Hr. lia.
Qed.

Lemma evaluate7_best_of_21_witness :
  length royalSeven = 7%nat ∧ NoDup royalSeven ∧
  ∃ best, evaluate7 royalSeven = Some best
    ∧ hand best ∈ getCombinations royalSeven 5
    ∧ evaluate5 (hand best) = Some (result best)
    ∧ ∀ c, c ∈ getCombinations royalSeven 5 →
           ∃ r, evaluate5 c = Some r ∧ score r ≤ score (result best).
Proof.
  assert (NoDup royalSeven) as Hnd by (apply (bool_decide_unpack _); vm_compute; exact I).
  split; [reflexivity|]. split; [exact Hnd|].
  apply (evaluate7_best_of_21 royalSeven); [reflexivity | exact Hnd].
Defined.

End EvaluatorFacts.
(** ** Properties of the server *)

Module ServerFacts.
Import Server Accounting.

(** *** Sums of stacks *)

Lemma totalChips_insert (ps : gmap PlayerId Player) pid p :
  ps !! pid = None → totalChips (<[pid := p]> ps) = chips p + totalChips ps.
Proof.
  intros Hn. unfold totalChips.
  rewrite map_fold_insert_L; [done | intros; lia | done].
Qed.

Lemma totalChips_delete (ps : gmap PlayerId Player) pid p :
  ps !! pid = Some p → totalChips ps = chips p + totalChips (delete pid ps).
Proof.
  intros Hp. rewrite <- (insert_delete_id ps pid p Hp) at 1.
  apply totalChips_insert, lookup_delete_eq.
Qed.

Lemma totalChips_alter (ps : gmap PlayerId Player) pid p f :
  ps !! pid = Some p →
  totalChips (alter f pid ps) = totalChips ps - chips p + chips (f p).
Proof.
  intros Hp.
  rewrite (totalChips_delete ps pid p Hp).
  rewrite (totalChips_delete (alter f pid ps) pid (f p)) by (by rewrite lookup_alter_eq, Hp).
  rewrite delete_alter_eq. lia.
Qed.

Lemma totalChips_alter_same (ps : gmap PlayerId Player) pid f :
  (∀ p, chips (f p) = chips p) → totalChips (alter f pid ps) = totalChips ps.
Proof.
  intros Hf. destruct (ps !! pid) as [p|] eqn:Hp.
  - rewrite (totalChips_alter _ _ p) by done. rewrite Hf. lia.
  - by rewrite alter_id'.
Qed.

Lemma totalChips_fmap (ps : gmap PlayerId Player) f :
  (∀ p, chips (f p) = chips p) → totalChips (f <$> ps) = totalChips ps.
Proof.
  intros Hf. unfold totalChips. rewrite map_fold_fmap, !map_fold_foldr.
  induction (map_to_list ps) as [|[k p] l IH]; simpl; [done|].
  by rewrite IH, Hf.
Qed.

(** *** Running handlers *)

Lemma run_bind {A B} (m : M A) (f : A → M B) T :
  (m ≫= f) T =
  match m T with
  | (Ret a, T1, o1) => match f a T1 with (r, T2, o2) => (r, T2, o1 ++ o2) end
  | (Throw, T1, o1) => (Throw, T1, o1)
  end.
Proof. reflexivity. Qed.

Lemma exec_bind {A B} (m : M A) (f : A → M B) T :
  exec (m ≫= f) T =
  match (m T).1.1 with
  | Ret a => exec (f a) (exec m T)
  | Throw => exec m T
  end.
Proof.
  unfold exec. rewrite run_bind.
  destruct (m T) as [[[a|] T1] o1]; simpl; [|done].
  by destruct (f a T1) as [[r T2] o2].
Qed.

Lemma exec_assoc {A B C} (m : M A) (f : A → M B) (k : B → M C) T :
  exec ((m ≫= f) ≫= k) T = exec (m ≫= (λ a, f a ≫= k)) T.
Proof.
  unfold exec. rewrite !run_bind.
  destruct (m T) as [[[a|] T1] o1]; simpl; [|done].
  rewrite run_bind.
  destruct (f a T1) as [[[b|] T2] o2]; simpl; [|done].
  by destruct (k b T2) as [[r T3] o3].
Qed.

Lemma exec_ret {A B} (a : A) (k : A → M B) T : exec (mret a ≫= k) T = exec (k a) T.
Proof. unfold exec. rewrite run_bind. simpl. by destruct (k a T) as [[r T2] o2]. Qed.

Lemma exec_getT {B} (k : Table → M B) T : exec (getT ≫= k) T = exec (k T) T.
Proof. unfold exec. rewrite run_bind. simpl. by destruct (k T T) as [[r T2] o2]. Qed.

Lemma exec_modifyT {B} f (k : unit → M B) T : exec (modifyT f ≫= k) T = exec (k tt) (f T).
Proof. unfold exec. rewrite run_bind. simpl. by destruct (k tt (f T)) as [[r T2] o2]. Qed.

Lemma exec_modifyPlayer {B} pid f (k : unit → M B) T :
  exec (modifyPlayer pid f ≫= k) T = exec (k tt) (setPlayers (alter f pid (players T)) T).
Proof. unfold modifyPlayer. by rewrite exec_modifyT. Qed.

Lemma exec_modifyGame {B} f (k : unit → M B) T :
  exec (modifyGame f ≫= k) T = exec (k tt) (setGame (f <$> game T) T).
Proof. unfold modifyGame. by rewrite exec_modifyT. Qed.

Lemma exec_emit {B} o (k : unit → M B) T : exec (emit o ≫= k) T = exec (k tt) T.
Proof. unfold exec. rewrite run_bind. simpl. by destruct (k tt T) as [[r T2] o2]. Qed.

Lemma exec_broadcast {B} msg (k : unit → M B) T : exec (broadcast msg ≫= k) T = exec (k tt) T.
Proof. apply exec_emit. Qed.

Lemma exec_throw {A B} (k : A → M B) T : exec (throw ≫= k) T = T.
Proof. reflexivity. Qed.

Lemma exec_sendTo {B} pid msg (k : unit → M B) T : exec (sendTo pid msg ≫= k) T = exec (k tt) T.
Proof.
  unfold sendTo. rewrite exec_assoc, exec_getT.
  destruct (decide _); [apply exec_emit | apply exec_ret].
Qed.

Lemma exec_sendTo_end pid msg T : exec (sendTo pid msg) T = T.
Proof. unfold sendTo, exec. rewrite run_bind. simpl. by destruct (decide _). Qed.

(** *** Handlers that move no chips in or out of play *)

(** Case analysis on the condition of the handler being run. *)
Ltac split_if :=
  cbv zeta;
  match goal with
  | |- ?P (if ?c then _ else _) => destruct c
  | |- ?P (if ?c then _ else _) _ => destruct c
  | |- context [exec (if ?c then _ else _) _] => destruct c
  end.

Lemma Conserves_bind {A B} (m : M A) (f : A → M B) :
  Conserves m → (∀ a, Conserves (f a)) → Conserves (m ≫= f).
Proof.
  intros Hm Hf T. rewrite exec_bind.
  destruct ((m T).1.1); [rewrite Hf|]; apply Hm.
Qed.

Lemma Conserves_ret {A} (a : A) : Conserves (mret a).
Proof. by intros T. Qed.

Lemma Conserves_throw {A} : Conserves (@throw A).
Proof. by intros T. Qed.

Lemma Conserves_emit o : Conserves (emit o).
Proof. by intros T. Qed.

Lemma Conserves_modifyT f :
  (∀ T, chipsInPlay (f T) = chipsInPlay T) → Conserves (modifyT f).
Proof. intros Hf T. apply Hf. Qed.

(** Reading the table and continuing. *)
Lemma Conserves_getT {B} (k : Table → M B) :
  (∀ T, chipsInPlay (exec (k T) T) = chipsInPlay T) → Conserves (getT ≫= k).
Proof. intros Hk T. rewrite exec_getT. apply Hk. Qed.

Lemma Conserves_sendTo pid msg : Conserves (sendTo pid msg).
Proof. intros T. by rewrite exec_sendTo_end. Qed.

Lemma Conserves_forEach {A} (l : list A) (f : A → M unit) :
  (∀ x, Conserves (f x)) → Conserves (forEach l f).
Proof.
  intros Hf. unfold forEach. generalize tt.
  induction l as [|x l IH]; intros u; simpl.
  - apply Conserves_ret.
  - apply Conserves_bind; [apply Hf | intros; apply IH].
Qed.

(** Assignments that leave stacks and pot alone. *)
Lemma Conserves_modifyGame f :
  (∀ g, pot (f g) = pot g) → Conserves (modifyGame f).
Proof.
  intros Hf. apply Conserves_modifyT. intros T.
  unfold chipsInPlay, potInFlight. simpl.
  destruct (game T); simpl; by rewrite ?Hf.
Qed.

Lemma Conserves_modifyPlayer pid f :
  (∀ p, chips (f p) = chips p) → Conserves (modifyPlayer pid f).
Proof.
  intros Hf. apply Conserves_modifyT. intros T.
  unfold chipsInPlay. simpl. by rewrite totalChips_alter_same.
Qed.

Lemma Conserves_setTurnTimer v : Conserves (modifyT (setTurnTimer v)).
Proof. by apply Conserves_modifyT. Qed.

Lemma contesting_Some ps pid : contesting ps pid = true → is_Some (ps !! pid).
Proof. unfold contesting. destruct (ps !! pid); [eauto | discriminate]. Qed.

Lemma activePlayers_elem ps g pid :
  pid ∈ activePlayers ps g → contesting ps pid = true.
Proof.
  unfold activePlayers. rewrite list_elem_of_In, filter_In. tauto.
Qed.

Section HandlerFacts.
Context `{PokerSolver} (now : Z).

Lemma Conserves_logToAll msg : Conserves (logToAll now msg).
Proof. apply Conserves_emit. Qed.

Lemma exec_logToAll {B} msg (k : unit → M B) T :
  exec (logToAll now msg ≫= k) T = exec (k tt) T.
Proof. apply exec_emit. Qed.

Lemma Conserves_broadcast msg : Conserves (broadcast msg).
Proof. apply Conserves_emit. Qed.

Lemma Conserves_broadcastState : Conserves broadcastState.
Proof.
  apply Conserves_getT. intros T.
  destruct (game T); [destruct (turnSeat _)|]; done.
Qed.

Lemma Conserves_clearTurnTimer : Conserves clearTurnTimer.
Proof.
  apply Conserves_bind; [apply Conserves_setTurnTimer|].
  intros _. by apply Conserves_modifyGame.
Qed.

Lemma Conserves_startTurnTimer : Conserves (startTurnTimer now).
Proof.
  apply Conserves_getT. intros T.
  destruct (game T) as [g|]; [|done].
  apply Conserves_bind; [apply Conserves_clearTurnTimer|]. intros _.
  destruct (turnSeat g); [|apply Conserves_throw].
  apply Conserves_bind; [by apply Conserves_modifyGame|]. intros _.
  apply Conserves_bind; [apply Conserves_broadcast|]. intros _.
  apply Conserves_setTurnTimer.
Qed.

(** Early elimination: the whole pot moves to the one stack left. *)
Lemma Conserves_awardPotAndEnd : Conserves (awardPotAndEnd now).
Proof.
  intros T. unfold awardPotAndEnd. rewrite exec_getT.
  destruct (game T) as [g|] eqn:Eg; [|done].
  destruct (activePlayers (players T) g) as [|w aps] eqn:Ea; [done|].
  assert (is_Some (players T !! w)) as [p Hp].
  { apply contesting_Some, (activePlayers_elem _ g). rewrite Ea. left. }
  rewrite exec_modifyPlayer, exec_modifyGame.
  cbv zeta. rewrite exec_broadcast, exec_logToAll, exec_modifyT.
  unfold clearTurnTimer, modifyGame. rewrite exec_assoc, !exec_modifyT.
  rewrite (Conserves_bind _ _ Conserves_broadcastState (λ _, Conserves_logToAll _)).
  unfold chipsInPlay, potInFlight. simpl.
  rewrite (totalChips_alter _ _ p) by done. rewrite Eg. simpl. lia.
Qed.

Lemma Conserves_startBettingRound st : Conserves (startBettingRound now st).
Proof.
  apply Conserves_getT. intros T.
  destruct (game T) as [g0|]; [|done].
  apply Conserves_bind; [by apply Conserves_modifyGame|]. intros _.
  apply Conserves_getT. intros T1.
  apply Conserves_bind.
  { apply Conserves_forEach. intros pid. by apply Conserves_modifyPlayer. }
  intros _. apply Conserves_bind.
  { apply Conserves_modifyGame. intros g. unfold dealCommunity.
    destruct st; simpl; repeat destruct (pop _); done. }
  intros _. apply Conserves_getT. intros T2.
  split_if; [apply Conserves_awardPotAndEnd|].
  apply Conserves_bind; [apply Conserves_broadcastState|].
  intros _. apply Conserves_startTurnTimer.
Qed.

(** *** Showdown *)

Lemma exec_forEach_pay {B} share l (k : unit → M B) T :
  exec (forEach l (λ pid, modifyPlayer pid (λ p, setChips (chips p + share) p)) ≫= k) T
  = exec (k tt) (setPlayers (payShare share (players T) l) T).
Proof.
  unfold forEach, payShare. revert T.
  induction l as [|pid l IH]; intros T; simpl.
  - rewrite exec_ret. by destruct T.
  - rewrite exec_assoc, exec_modifyPlayer, IH. done.
Qed.

Lemma payShare_dom share ps l pid :
  is_Some (payShare share ps l !! pid) ↔ is_Some (ps !! pid).
Proof.
  revert ps. induction l as [|x l IH]; intros ps; simpl; [done|].
  rewrite IH. destruct (decide (x = pid)) as [->|Hne].
  - rewrite lookup_alter_eq. by rewrite fmap_is_Some.
  - by rewrite lookup_alter_ne.
Qed.

Lemma payShare_total share ps l :
  (∀ pid, pid ∈ l → is_Some (ps !! pid)) →
  totalChips (payShare share ps l) = totalChips ps + Z.of_nat (length l) * share.
Proof.
  revert ps. induction l as [|x l IH]; intros ps Hl; simpl; [lia|].
  destruct (Hl x) as [p Hp]; [left|].
  rewrite IH.
  - rewrite (totalChips_alter _ _ p) by done. simpl. lia.
  - intros pid Hpid. destruct (decide (x = pid)) as [->|Hne].
    + by rewrite lookup_alter_eq, Hp.
    + rewrite lookup_alter_ne by done. apply Hl. by right.
Qed.



Lemma winnerPlayers_sublist aps ws : winnerPlayers aps ws `sublist_of` aps.
Proof.
  unfold winnerPlayers.
  assert (aps = (zip (seq 0 (length aps)) aps).*2) as Haps.
  { symmetry. apply snd_zip. by rewrite length_seq. }
  rewrite Haps at 3. apply fmap_sublist.
  generalize (zip (seq 0 (length aps)) aps). intros l.
  induction l as [|e l IH]; simpl; [done|].
  destruct (bool_decide _); [by apply sublist_skip | by apply sublist_cons].
Qed.

(** The state a showdown leaves. *)
Lemma exec_finishShowdown T g :
  game T = Some g →
  activePlayers (players T) g ≠ [] →
  exec (finishShowdown now) T
  = {| seats := seats T;
       players := payShare (pot g / Z.of_nat (length (showdownWinners T g)))
                    (players T) (showdownWinners T g);
       game := None;
       dealerIndex := ((dealerIndex T + 1) `mod` length (seats T))%nat;
       turnTimer := None |}.
Proof.
  intros Eg Hne. unfold finishShowdown. rewrite exec_getT, Eg.
  rewrite bool_decide_eq_false_2 by done.
  rewrite exec_broadcast. cbv zeta.
  fold (showdownHands T g).
  replace ((map (λ pid, (pid, solve (cardsOf (players T) pid ++ community g)))
              (activePlayers (players T) g)).*2) with (showdownHands T g).
  2:{ unfold showdownHands. rewrite <- list_fmap_compose. done. }
  fold (showdownWinners T g).
  rewrite exec_forEach_pay.
  rewrite exec_modifyGame.
  rewrite exec_broadcast, exec_logToAll, exec_modifyT, exec_modifyGame.
  unfold clearTurnTimer. rewrite exec_assoc, exec_modifyT, exec_modifyGame, exec_modifyT.
  unfold exec. rewrite run_bind. simpl. done.
Qed.

Lemma showdownWinners_registered T g pid :
  pid ∈ showdownWinners T g → is_Some (players T !! pid).
Proof.
  intros Hin. apply contesting_Some, (activePlayers_elem _ g).
  eapply elem_of_sublist; [exact Hin | apply winnerPlayers_sublist].
Qed.

(** A showdown pays [n] shares of [floor(pot / n)] out of the pot. *)
Lemma chipsInPlay_finishShowdown T g :
  game T = Some g →
  activePlayers (players T) g ≠ [] →
  let n := Z.of_nat (length (showdownWinners T g)) in
  chipsInPlay (exec (finishShowdown now) T) = chipsInPlay T - pot g + n * (pot g / n).
Proof.
  intros Eg Hne n. rewrite (exec_finishShowdown T g) by done.
  unfold chipsInPlay, potInFlight. simpl. rewrite Eg.
  rewrite payShare_total by apply showdownWinners_registered. subst n. lia.
Qed.

Lemma finishShowdown_game T :
  game (exec (finishShowdown now) T) ≠ None → exec (finishShowdown now) T = T.
Proof.
  intros Hg. destruct (game T) as [g|] eqn:Eg.
  - destruct (decide (activePlayers (players T) g = [])) as [Ha|Ha].
    + unfold finishShowdown. rewrite exec_getT, Eg. by rewrite bool_decide_eq_true_2.
    + rewrite (exec_finishShowdown T g) in Hg by done. done.
  - unfold finishShowdown. by rewrite exec_getT, Eg.
Qed.

(** *** Events that may end in a showdown *)

Lemma Conserves_Settles {A} (m : M A) : Conserves m → Settles now m.
Proof. intros Hm T. exists (exec m T). split; [apply Hm | by left]. Qed.

Lemma Settles_finishShowdown : Settles now (finishShowdown now).
Proof. intros T. exists T. split; [done | by right]. Qed.

Lemma Settles_bind {A B} (m : M A) (f : A → M B) :
  Conserves m → (∀ a, Settles now (f a)) → Settles now (m ≫= f).
Proof.
  intros Hm Hf T. unfold settles. rewrite exec_bind.
  destruct ((m T).1.1) as [a|].
  - destruct (Hf a (exec m T)) as (Tmid & Hc & Hx).
    exists Tmid. split; [by rewrite Hc, Hm | done].
  - exists (exec m T). split; [apply Hm | by left].
Qed.

Lemma Settles_getT {B} (k : Table → M B) :
  (∀ T, settles now (k T) T) → Settles now (getT ≫= k).
Proof. intros Hk T. unfold settles. rewrite exec_getT. apply Hk. Qed.

(** Continue from a state that holds the same chips. *)
Lemma settles_from {A B} (m : M A) (m' : M B) T T' :
  exec m T = exec m' T' → chipsInPlay T' = chipsInPlay T → Settles now m' → settles now m T.
Proof.
  intros He Hc Hm'. destruct (Hm' T') as (Tmid & Hc' & Hx).
  exists Tmid. rewrite He. split; [by rewrite Hc', Hc | done].
Qed.

Lemma Settles_advanceTurnAfterAction kind : Settles now (advanceTurnAfterAction now kind).
Proof.
  apply Settles_getT. intros T.
  destruct (game T) as [g0|]; [|by apply Conserves_Settles, Conserves_ret].
  apply Settles_bind.
  { destruct (bool_decide _); [by apply Conserves_modifyGame | apply Conserves_ret]. }
  intros _. apply Settles_getT. intros T1.
  destruct (game T1) as [g|]; [|by apply Conserves_Settles, Conserves_ret].
  destruct (nextActiveIndex _ _ _) as [nextIdx|];
    [|apply Conserves_Settles, Conserves_awardPotAndEnd].
  apply Settles_bind; [by apply Conserves_modifyGame|]. intros _.
  split_if; [apply Conserves_Settles, Conserves_awardPotAndEnd|].
  split_if.
  - apply Settles_bind; [by apply Conserves_modifyGame|]. intros _.
    destruct (stage g);
      first [apply Settles_finishShowdown
            | apply Conserves_Settles, Conserves_startBettingRound].
  - apply Conserves_Settles, Conserves_bind; [apply Conserves_broadcastState|].
    intros _. apply Conserves_startTurnTimer.
Qed.

Lemma exec_clearTurnTimer {B} (k : unit → M B) T :
  exec (clearTurnTimer ≫= k) T
  = exec (k tt) (setGame (setTurnEnd None <$> game T) (setTurnTimer None T)).
Proof. unfold clearTurnTimer. by rewrite exec_assoc, exec_modifyT, exec_modifyGame. Qed.

Lemma Settles_foldOrAdvance kind :
  Settles now (T ← getT;
           match game T with
           | None => mret tt
           | Some g =>
               if (numActive (players T) g <=? 1)%nat then awardPotAndEnd now
               else advanceTurnAfterAction now kind
           end).
Proof.
  apply Settles_getT. intros T.
  destruct (game T) as [g|]; [|by apply Conserves_Settles, Conserves_ret].
  split_if;
    [apply Conserves_Settles, Conserves_awardPotAndEnd
    | apply Settles_advanceTurnAfterAction].
Qed.

(** A player action keeps the chips in play. *)
Lemma Settles_processAction playerId action amount :
  Settles now (processAction now playerId action amount).
Proof.
  apply Settles_getT. intros T.
  destruct (game T) as [g|] eqn:Eg; [|apply Conserves_Settles, Conserves_sendTo].
  destruct (turnSeat g) as [cur|]; [|by apply Conserves_Settles, Conserves_throw].
  destruct (bool_decide (pId cur ≠ playerId));
    [apply Conserves_Settles, Conserves_sendTo|].
  destruct (players T !! playerId) as [p|] eqn:Ep.
  2:{ apply Conserves_Settles, Conserves_bind;
        [apply Conserves_clearTurnTimer | intros; apply Conserves_throw]. }
  cbv zeta.
  set (T1 := setGame (setTurnEnd None <$> game T) (setTurnTimer None T)).
  assert (chipsInPlay T1 = chipsInPlay T) as HT1.
  { unfold chipsInPlay, potInFlight, T1. simpl. by rewrite Eg. }
  destruct (bool_decide (action = "fold")).
  { apply Settles_bind; [apply Conserves_clearTurnTimer|]. intros _.
    apply Settles_bind; [by apply Conserves_modifyPlayer|]. intros _.
    apply Settles_bind; [apply Conserves_logToAll|]. intros _.
    apply Settles_getT. intros T2.
    split_if;
      [apply Conserves_Settles, Conserves_awardPotAndEnd
      | apply Settles_advanceTurnAfterAction]. }
  destruct (bool_decide (action = "call" ∨ action = "check")).
  { destruct (bool_decide (Z.max 0 (currentBet g - bet p) = 0)).
    - apply Settles_bind; [apply Conserves_clearTurnTimer|]. intros _.
      apply Settles_bind; [apply Conserves_logToAll|]. intros _.
      apply Settles_advanceTurnAfterAction.
    - set (paid := Z.min _ _).
      eapply settles_from; [| |apply (Settles_advanceTurnAfterAction action)].
      + rewrite exec_clearTurnTimer. fold T1.
        rewrite !exec_assoc, exec_modifyPlayer.
        rewrite !exec_assoc, exec_modifyGame.
        rewrite !exec_assoc, exec_logToAll.
        rewrite exec_broadcast. reflexivity.
      + rewrite <- HT1. unfold chipsInPlay, potInFlight, T1. simpl.
        rewrite (totalChips_alter _ _ p) by done. rewrite Eg. simpl. lia. }
  destruct (bool_decide (action = "raise")).
  { destruct (amount <? minRaise g).
    - apply Conserves_Settles.
      apply Conserves_bind; [apply Conserves_clearTurnTimer|]. intros _.
      apply Conserves_bind; [apply Conserves_sendTo|]. intros _.
      apply Conserves_startTurnTimer.
    - cbv zeta.
      set (capped := bool_decide _).
      set (paid := if capped then chips p else _).
      set (amount' := if capped then _ else amount).
      eapply settles_from; [| |apply (Settles_advanceTurnAfterAction "raise")].
      + rewrite exec_clearTurnTimer. fold T1.
        rewrite exec_modifyPlayer, exec_modifyGame, exec_broadcast, exec_logToAll.
        reflexivity.
      + rewrite <- HT1. unfold chipsInPlay, potInFlight, T1. simpl.
        rewrite (totalChips_alter _ _ p) by done. rewrite Eg. simpl. lia. }
  apply Conserves_Settles.
  apply Conserves_bind; [apply Conserves_clearTurnTimer|]. intros _.
  apply Conserves_bind; [apply Conserves_sendTo|]. intros _.
  apply Conserves_startTurnTimer.
Qed.

(** So does a turn timeout. *)
Lemma Settles_onTurnTimeout : Settles now (onTurnTimeout now).
Proof.
  apply Settles_getT. intros T.
  destruct (turnTimer T) as [curPid|]; [|by apply Conserves_Settles, Conserves_ret].
  apply Settles_bind; [apply Conserves_setTurnTimer|]. intros _.
  destruct (players T !! curPid) as [p|]; [|by apply Conserves_Settles, Conserves_ret].
  destruct (folded p); [by apply Conserves_Settles, Conserves_ret|].
  apply Settles_bind; [by apply Conserves_modifyPlayer|]. intros _.
  apply Settles_bind; [apply Conserves_logToAll|]. intros _.
  apply Settles_foldOrAdvance.
Qed.

Lemma exec_catch (m : M unit) T : exec (catch m) T = exec m T.
Proof. unfold exec, catch. by destruct (m T) as [[r T1] o1]. Qed.

Lemma settles_handle e T : inHand e = true → settles now (handle now e) T.
Proof.
  destruct e as [|wsId [| | | |action amount|]| |]; try discriminate; intros _; simpl.
  - destruct (Settles_processAction wsId action amount T) as (Tmid & Hc & Hx).
    exists Tmid. unfold onMessage. by rewrite exec_catch.
  - apply Settles_onTurnTimeout.
Qed.

(** *** A hand in progress *)

Lemma exec_processAction_no_game playerId action amount T :
  game T = None → exec (processAction now playerId action amount) T = T.
Proof.
  intros Eg. unfold processAction. rewrite exec_getT, Eg. apply exec_sendTo_end.
Qed.

Lemma game_onTurnTimeout_no_game T :
  game T = None → game (exec (onTurnTimeout now) T) = None.
Proof.
  intros Eg. unfold onTurnTimeout. rewrite exec_getT.
  destruct (turnTimer T) as [curPid|]; [|done].
  rewrite exec_modifyT.
  destruct (players T !! curPid) as [p|]; [|done].
  destruct (folded p); [done|].
  rewrite exec_modifyPlayer, exec_logToAll, exec_getT. simpl. by rewrite Eg.
Qed.

Lemma game_handle_no_game e T :
  inHand e = true → game T = None → game (exec (handle now e) T) = None.
Proof.
  destruct e as [|wsId [| | | |action amount|]| |]; try discriminate; intros _ Eg; simpl.
  - unfold onMessage. by rewrite exec_catch, exec_processAction_no_game.
  - by apply game_onTurnTimeout_no_game.
Qed.

(** While the round exists, an in-hand event has kept the chips in play. *)
Lemma chipsInPlay_handle e T :
  inHand e = true →
  game (exec (handle now e) T) ≠ None →
  chipsInPlay (exec (handle now e) T) = chipsInPlay T.
Proof.
  intros He Hg. destruct (settles_handle e T He) as (Tmid & Hc & [Hx|Hx]).
  - by rewrite Hx.
  - rewrite Hx in Hg |- *. by rewrite finishShowdown_game.
Qed.

End HandlerFacts.

Lemma run_no_game `{PokerSolver} es T :
  Forall (λ e, inHand e.2 = true) es → game T = None → game (run T es) = None.
Proof.
  revert T. induction es as [|[now e] es IH]; intros T Hes Eg; simpl; [done|].
  apply Forall_cons in Hes as [He Hes].
  apply IH; [done|]. by apply game_handle_no_game.
Qed.

Lemma chipsInPlay_run `{PokerSolver} es T :
  Forall (λ e, inHand e.2 = true) es →
  game (run T es) ≠ None →
  chipsInPlay (run T es) = chipsInPlay T.
Proof.
  revert T. induction es as [|[now e] es IH]; intros T Hes Hg; simpl in *; [done|].
  apply Forall_cons in Hes as [He Hes].
  rewrite IH by done.
  apply chipsInPlay_handle; [done|].
  intros Eg. apply Hg. by apply run_no_game.
Qed.

(** *** Starting a hand *)

Lemma totalChips_ext (ps ps' : gmap PlayerId Player) :
  (∀ pid, chips <$> ps' !! pid = chips <$> ps !! pid) → totalChips ps' = totalChips ps.
Proof.
  intros Hl.
  assert (∀ qs : gmap PlayerId Player,
            totalChips qs = map_fold (λ _ c acc, c + acc) 0 (chips <$> qs)) as Hf.
  { intros qs. unfold totalChips. rewrite map_fold_fmap, !map_fold_foldr.
    induction (map_to_list qs) as [|[k p] l IH]; simpl; [done | by rewrite IH]. }
  rewrite !Hf. f_equal. apply map_eq. intros pid. by rewrite !lookup_fmap.
Qed.

Lemma setDeck_setDeck d d' g : setDeck d' (setDeck d g) = setDeck d' g.
Proof. done. Qed.

Lemma setPlayers_setPlayers cs cs' T : setPlayers cs' (setPlayers cs T) = setPlayers cs' T.
Proof. done. Qed.

(** Dealing hole cards touches the deck and the hands only. *)
Lemma run_deal l g T :
  ∃ d cs, foldM dealTo g l T = (Ret (setDeck d g), setPlayers cs T, [])
        ∧ ∀ pid, chips <$> cs !! pid = chips <$> players T !! pid.
Proof.
  revert g T. induction l as [|s l IH]; intros g T; simpl.
  - exists (deck g), (players T). split; [by destruct g, T | done].
  - rewrite run_bind. unfold dealTo at 1. rewrite run_bind. simpl.
    destruct (players T !! pId s) as [p|] eqn:Ep; [destruct (active p)|].
    + unfold pop. rewrite run_bind. simpl.
      destruct (IH (setDeck (removelast (deck g)) g)
                   (setPlayers (alter (λ p, setCards (cards p ++ [last (deck g)]) p)
                                  (pId s) (players T)) T)) as (d & cs & -> & Hcs).
      exists d, cs. split; [done|]. intros pid. rewrite Hcs. simpl.
      destruct (decide (pId s = pid)) as [<-|Hne].
      * rewrite lookup_alter_eq. by destruct (players T !! pId s).
      * by rewrite lookup_alter_ne.
    + simpl. destruct (IH g T) as (d & cs & -> & Hcs). by exists d, cs.
    + simpl. destruct (IH g T) as (d & cs & -> & Hcs). by exists d, cs.
Qed.

Lemma exec_deal {B} l g (k : Game → M B) T :
  ∃ d cs, exec (foldM dealTo g l ≫= k) T = exec (k (setDeck d g)) (setPlayers cs T)
        ∧ ∀ pid, chips <$> cs !! pid = chips <$> players T !! pid.
Proof.
  destruct (run_deal l g T) as (d & cs & Hrun & Hcs).
  exists d, cs. split; [|done].
  unfold exec. rewrite run_bind, Hrun.
  by destruct (k (setDeck d g) (setPlayers cs T)) as [[? ?] ?].
Qed.

Section StartGame.
Context `{PokerSolver} (now : Z).

Lemma exec_postBlind {B} pid blind p (k : unit → M B) T :
  players T !! pid = Some p →
  exec (postBlind pid blind ≫= k) T
  = exec (k tt)
      (setPlayers (alter (λ p, setBet blind (setChips (Z.max 0 (chips p - blind)) p))
                     pid (players T)) T).
Proof.
  intros Hp. unfold postBlind. rewrite exec_assoc, exec_getT, Hp.
  apply exec_modifyPlayer.
Qed.

(** Posting the blinds keeps the chips in play when both stacks cover
    their blind. *)
Lemma chipsInPlay_startGame newId rnd T s0 s1 p0 p1 :
  game T = None →
  handOrder T !! 0%nat = Some s0 →
  handOrder T !! 1%nat = Some s1 →
  pId s0 ≠ pId s1 →
  players T !! pId s0 = Some p0 →
  players T !! pId s1 = Some p1 →
  10 ≤ chips p0 →
  20 ≤ chips p1 →
  chipsInPlay (exec (startGame now newId rnd) T) = chipsInPlay T.
Proof.
  intros Eg H0 H1 Hne Hp0 Hp1 Hc0 Hc1.
  unfold startGame. rewrite exec_getT, Eg. simpl.
  rewrite exec_ret, exec_getT, Eg.
  split_if; [done|].
  rewrite exec_broadcast, exec_modifyT.
  fold (handOrder T).
  match goal with
  | |- context [exec (foldM dealTo ?g ?l ≫= ?k) ?T1] =>
      destruct (exec_deal l g k T1) as (d & cs & -> & Hcs)
  end.
  simpl in Hcs. cbn [seatOrder setDeck]. rewrite H0, H1.
  assert (∃ q0, cs !! pId s0 = Some q0 ∧ chips q0 = chips p0) as (q0 & Hq0 & Hcq0).
  { specialize (Hcs (pId s0)). rewrite lookup_fmap, Hp0 in Hcs.
    destruct (cs !! pId s0) as [q0|]; [|done]. exists q0. split; [done|].
    simpl in Hcs. congruence. }
  assert (∃ q1, cs !! pId s1 = Some q1 ∧ chips q1 = chips p1) as (q1 & Hq1 & Hcq1).
  { specialize (Hcs (pId s1)). rewrite lookup_fmap, Hp1 in Hcs.
    destruct (cs !! pId s1) as [q1|]; [|done]. exists q1. split; [done|].
    simpl in Hcs. congruence. }
  rewrite (exec_postBlind _ _ q0) by done. cbv zeta.
  rewrite (exec_postBlind _ _ q1) by (simpl; by rewrite lookup_alter_ne).
  rewrite exec_modifyT.
  rewrite Conserves_bind.
  2:{ apply Conserves_forEach. intros s. apply Conserves_getT. intros T'.
      destruct (players T' !! pId s); [apply (Conserves_sendTo (pId s)) | done]. }
  2:{ intros _. apply Conserves_bind; [apply Conserves_broadcastState|]. intros _.
      apply Conserves_bind; [apply Conserves_startTurnTimer|]. intros _.
      apply Conserves_logToAll. }
  unfold chipsInPlay, potInFlight. simpl. rewrite Eg.
  rewrite (totalChips_alter _ _ q1) by (by rewrite lookup_alter_ne).
  rewrite (totalChips_alter _ _ q0) by done. simpl.
  rewrite (totalChips_ext (resetPlayer <$> players T) cs) by done.
  rewrite totalChips_fmap by done. lia.
Qed.
End StartGame.

Section RequestFacts.
Context `{PokerSolver} (now : Z).

(** *** Rejected requests *)

Lemma run_getT {B} (k : Table → M B) T : (getT ≫= k) T = k T T.
Proof. rewrite run_bind. simpl. by destruct (k T T) as [[r T2] o2]. Qed.

Lemma exec_broadcastState_end T : exec broadcastState T = T.
Proof.
  unfold broadcastState, exec. rewrite run_getT.
  destruct (game T) as [g|]; [destruct (turnSeat g)|]; done.
Qed.

Lemma run_sendTo pid msg T :
  is_Some (players T !! pid) → sendTo pid msg T = (Ret tt, T, [SendTo pid msg]).
Proof. intros Hp. unfold sendTo. rewrite run_getT. by rewrite decide_True. Qed.

Lemma run_sendTo_bind {B} pid msg (k : unit → M B) T :
  is_Some (players T !! pid) →
  (sendTo pid msg ≫= k) T
  = match k tt T with (r, T2, o2) => (r, T2, SendTo pid msg :: o2) end.
Proof. intros Hp. rewrite run_bind, run_sendTo by done. done. Qed.

Lemma run_clearTurnTimer_bind {B} (k : unit → M B) T :
  (clearTurnTimer ≫= k) T
  = k tt (setGame (setTurnEnd None <$> game T) (setTurnTimer None T)).
Proof. rewrite run_bind. simpl. by destruct (k tt _) as [[r T2] o2]. Qed.

Lemma run_startTurnTimer T g cur :
  game T = Some g → turnSeat g = Some cur →
  startTurnTimer now T
  = (Ret tt,
     setTurnTimer (Some (pId cur)) (setGame (Some (setTurnEnd (Some (now + 20000)) g)) T),
     [Broadcast (MTurn (pId cur) (now + 20000))]).
Proof.
  intros Eg Ecur. unfold startTurnTimer. rewrite run_getT, Eg.
  rewrite run_clearTurnTimer_bind, Ecur. rewrite run_bind. simpl.
  rewrite Eg. simpl. by destruct g, T.
Qed.

(** C2 — turn legality: while a round exists, an action sent by a
    player other than the one seated at [turnIndex] (modulo the length of
    [seatOrder]) is answered with the error "Not your turn", sent to that
    player alone, and the whole table — round, stacks, bets, timer — is
    left as it was. *)
Theorem action_out_of_turn_rejected (T : Table) (g : Game) (cur : Seat)
    (playerId : PlayerId) (action : string) (amount : Z) :
  game T = Some g →
  turnSeat g = Some cur →
  pId cur ≠ playerId →
  is_Some (players T !! playerId) →
  processAction now playerId action amount T
  = (Ret tt, T, [SendTo playerId (MError "Not your turn")]).
Proof.
  intros Eg Ecur Hne Hp. unfold processAction.
  rewrite run_getT, Eg, Ecur.
  rewrite bool_decide_eq_true_2 by done.
  by apply run_sendTo.
Qed.

(** C8 — raise floor: while a round exists, a raise by the player to act
    whose increment is below [minRaise] is answered with the error "Raise
    must be at least <minRaise>" sent to that player; stacks, bets, pot,
    [turnIndex] and [actionCount] stay as they were, and the turn timer is
    armed again for the same player with a fresh deadline. *)
Theorem raise_below_minimum_rejected (T : Table) (g : Game) (cur : Seat)
    (p : Player) (amount : Z) :
  game T = Some g →
  turnSeat g = Some cur →
  players T !! pId cur = Some p →
  amount < minRaise g →
  processAction now (pId cur) "raise" amount T
  = (Ret tt,
     {| seats := seats T; players := players T;
        game := Some (setTurnEnd (Some (now + 20000)) g);
        dealerIndex := dealerIndex T; turnTimer := Some (pId cur) |},
     [SendTo (pId cur) (MError ("Raise must be at least " +:+ pretty (minRaise g)));
      Broadcast (MTurn (pId cur) (now + 20000))]).
Proof.
  intros Eg Ecur Hp Hlt. unfold processAction.
  rewrite run_getT, Eg, Ecur.
  rewrite bool_decide_eq_false_2 by (intros Hne; by apply Hne).
  rewrite run_clearTurnTimer_bind, Hp.
  change (bool_decide ("raise" = "fold")) with false.
  change (bool_decide ("raise" = "call" ∨ "raise" = "check")) with false.
  change (bool_decide ("raise" = "raise")) with true.
  cbv iota zeta.
  rewrite (proj2 (Z.ltb_lt _ _) Hlt).
  rewrite run_sendTo_bind by (simpl; eauto).
  rewrite (run_startTurnTimer _ (setTurnEnd None g) cur) by (simpl; by rewrite ?Eg).
  simpl. by destruct g.
Qed.

(** C9, as the code has it — take-seat requests: a player who already
    holds a seat is answered "Already seated, cannot take another seat";
    otherwise, while a round is active, the answer is "Game in progress:
    cannot change seats"; otherwise a request for a seat that is out of
    range or occupied is dropped without any message.  In these three
    cases seats and players are unchanged.  Otherwise the seat is assigned
    and the player marked active and not folded. *)
Theorem take_seat_outcomes (T : Table) (wsId : PlayerId) (player : Player) (st : Z) :
  players T !! wsId = Some player →
  (seat player ≠ None →
     takeSeat now wsId st T
     = (Ret tt, T, [SendTo wsId (MError "Already seated, cannot take another seat")]))
  ∧ (seat player = None → game T ≠ None →
     takeSeat now wsId st T
     = (Ret tt, T, [SendTo wsId (MError "Game in progress: cannot change seats")]))
  ∧ (seat player = None → game T = None →
     st < 0 ∨ 5 < st ∨ seats T !! Z.to_nat st ≠ Some None →
     takeSeat now wsId st T = (Ret tt, T, []))
  ∧ (seat player = None → game T = None →
     0 ≤ st ≤ 5 → seats T !! Z.to_nat st = Some None →
     exec (takeSeat now wsId st) T
     = {| seats := <[Z.to_nat st := Some wsId]> (seats T);
          players :=
            alter (λ p, setFolded false (setActive true (setSeat (Some (Z.to_nat st)) p)))
                  wsId (players T);
          game := None; dealerIndex := dealerIndex T; turnTimer := turnTimer T |}).
Proof.
  intros Hp. unfold takeSeat. split_and!.
  - intros Hs. rewrite run_getT, Hp.
    rewrite bool_decide_eq_true_2 by done. apply run_sendTo. eauto.
  - intros Hs Hg. rewrite run_getT, Hp.
    rewrite bool_decide_eq_false_2 by (intros Hn; by apply Hn).
    rewrite bool_decide_eq_true_2 by done. apply run_sendTo. eauto.
  - intros Hs Hg Hbad. rewrite run_getT, Hp.
    rewrite bool_decide_eq_false_2 by (intros Hn; by apply Hn).
    rewrite bool_decide_eq_false_2 by (intros Hn; by apply Hn).
    destruct (Z.ltb_spec st 0); [done|].
    destruct (Z.ltb_spec 5 st); [done|]. simpl.
    rewrite bool_decide_eq_false_2; [done|].
    destruct Hbad as [?|[?|?]]; [lia | lia | done].
  - intros Hs Hg Hrange Hfree. rewrite exec_getT, Hp.
    rewrite bool_decide_eq_false_2 by (intros Hn; by apply Hn).
    rewrite bool_decide_eq_false_2 by (intros Hn; by apply Hn).
    destruct (Z.ltb_spec st 0); [lia|].
    destruct (Z.ltb_spec 5 st); [lia|]. simpl.
    rewrite bool_decide_eq_true_2 by done. simpl.
    rewrite exec_modifyT, exec_modifyPlayer, exec_logToAll, exec_broadcastState_end.
    unfold setPlayers, setSeats. simpl. by rewrite Hg.
Qed.

Lemma awardPotAndEnd_returns T : (awardPotAndEnd now T).1.1 = Ret tt.
Proof.
  unfold awardPotAndEnd. rewrite run_getT.
  destruct (game T) as [g|]; [|done].
  destruct (activePlayers (players T) g) as [|w aps]; [done|].
  cbv zeta. repeat (rewrite run_bind; simpl). done.
Qed.

(** C10 — the disconnect handler: the round object has no
    [turnPlayerId], so the test that would cancel the timer and advance
    the turn never succeeds, for any round and any connection.  When more
    than one contesting player remains after the departing player is
    marked folded, the handler leaves the round (turn index, deadline)
    and the pending timer exactly as they were, frees the seat and drops
    the player; settlement runs only when at most one contesting player
    remains. *)
Theorem disconnect_skips_turn_branch (T : Table) (wsId : PlayerId) (p : Player) (g : Game) :
  players T !! wsId = Some p →
  game T = Some g →
  let ps1 := alter (λ p, setActive false (setFolded true p)) wsId (players T) in
  let freed := match seat p with Some i => <[i := None]> (seats T) | None => seats T end in
  bool_decide (turnPlayerId g = Some wsId) = false
  ∧ ((1 < numActive ps1 g)%nat →
     exec (onClose now wsId) T
     = {| seats := freed; players := delete wsId (players T); game := Some g;
          dealerIndex := dealerIndex T; turnTimer := turnTimer T |})
  ∧ ((numActive ps1 g ≤ 1)%nat →
     let T2 := exec (awardPotAndEnd now) (setPlayers ps1 T) in
     exec (onClose now wsId) T
     = setPlayers (delete wsId (players T2))
         (setSeats (match seat p with Some i => <[i := None]> (seats T2) | None => seats T2 end)
            T2)).
Proof.
  intros Hp Eg ps1 freed. split; [done|].
  assert (∀ T3, exec (match seat p with
                      | Some i => modifyT (λ T, setSeats (<[i := None]> (seats T)) T)
                      | None => mret tt
                      end ≫= λ _, modifyT (λ T, setPlayers (delete wsId (players T)) T)
                                  ≫= λ _, broadcastState) T3
                = setPlayers (delete wsId (players T3))
                    (setSeats (match seat p with
                               | Some i => <[i := None]> (seats T3)
                               | None => seats T3
                               end) T3)) as Hrest.
  { intros T3.
    assert (∀ T4, exec (modifyT (λ T, setPlayers (delete wsId (players T)) T)
                        ≫= λ _, broadcastState) T4
                  = setPlayers (delete wsId (players T4)) T4) as Hdel.
    { intros T4. by rewrite exec_modifyT, exec_broadcastState_end. }
    destruct (seat p).
    - rewrite exec_modifyT, Hdel. done.
    - rewrite exec_ret, Hdel. by destruct T3. }
  unfold onClose. rewrite !exec_getT, Hp, exec_logToAll, Eg.
  rewrite !exec_assoc, exec_modifyPlayer. fold ps1.
  simpl bool_decide. cbv iota.
  rewrite exec_assoc, exec_ret, exec_assoc, exec_getT.
  simpl game. cbv iota. rewrite Eg. simpl players.
  split.
  - intros Hn. rewrite (proj2 (Nat.leb_gt _ _) Hn).
    rewrite exec_ret, Hrest. simpl. subst ps1 freed.
    rewrite delete_alter_eq. unfold setPlayers, setSeats. simpl. by rewrite Eg.
  - intros Hn. rewrite (proj2 (Nat.leb_le _ _) Hn).
    rewrite exec_bind, awardPotAndEnd_returns. apply Hrest.
Qed.

(** *** Showdown split *)




End RequestFacts.

(** C1, as the code has it — chip conservation while a hand runs, for
    whole-number stacks, bets, pot and raise amounts within [±2^48], the
    range in which the server's number arithmetic is exact.
    (1) [startGame] leaves the sum of all stacks plus the pot unchanged when
    the two blind posters are different players whose stacks cover their
    blinds.  (2) After any sequence of player actions and turn timeouts
    each of which finds the table within the range, as long as the round
    still exists, that sum is what it was before the sequence.  (3)
    Early-elimination settlement leaves it unchanged.  (4) Settlement at
    showdown pays [n] shares of [floor(pot / n)]: the sum falls by what the
    division leaves over.  (5) Every single action or timeout keeps the
    sum, up to one showdown pay-out at its end. *)
Theorem chips_conserved_while_hand_runs `{PokerSolver} :
  (∀ now newId rnd T s0 s1 p0 p1,
     game T = None →
     smallTable T = true →
     handOrder T !! 0%nat = Some s0 → handOrder T !! 1%nat = Some s1 →
     pId s0 ≠ pId s1 →
     players T !! pId s0 = Some p0 → players T !! pId s1 = Some p1 →
     10 ≤ chips p0 → 20 ≤ chips p1 →
     chipsInPlay (exec (startGame now newId rnd) T) = chipsInPlay T)
  ∧ (∀ es T,
       Forall (λ e, inHand e.2 = true) es →
       smallRun T es = true →
       game (run T es) ≠ None →
       chipsInPlay (run T es) = chipsInPlay T)
  ∧ (∀ now T,
       smallTable T = true →
       chipsInPlay (exec (awardPotAndEnd now) T) = chipsInPlay T)
  ∧ (∀ now T g,
       game T = Some g → activePlayers (players T) g ≠ [] →
       smallTable T = true →
       let n := Z.of_nat (length (showdownWinners T g)) in
       chipsInPlay (exec (finishShowdown now) T) = chipsInPlay T - pot g + n * (pot g / n))
  ∧ (∀ now e T,
       inHand e = true →
       smallTable T = true → smallEvent e = true →
       ∃ Tmid, chipsInPlay Tmid = chipsInPlay T
             ∧ (exec (handle now e) T = Tmid
                ∨ exec (handle now e) T = exec (finishShowdown now) Tmid)).
Proof.
  split_and!.
  - intros. by eapply chipsInPlay_startGame.
  - intros es T Hes _. by apply chipsInPlay_run.
  - intros now T _. apply Conserves_awardPotAndEnd.
  - intros now T g Hg Hne _. by apply chipsInPlay_finishShowdown.
  - intros now e T He _ _. by apply settles_handle.
Qed.
(** *** The properties on concrete tables *)


(** C1 — a hand that ends in a split showdown: three players start with
    3000 chips between them; "a" folds after putting in 41, "b" and "c" put
    in 62 each and tie with queens full of kings; each is paid
    [floor(165 / 2) = 82] and the table is left with 2999 chips. *)
Lemma showdown_remainder_leaves_play :
  chipsInPlay lobby012 = 3000
  ∧ pot <$> game river012 = Some 165
  ∧ chipsInPlay river012 = 3000
  ∧ stackOf (run river012 [act "c" "check" 0]) "b" = Some 1020
  ∧ stackOf (run river012 [act "c" "check" 0]) "c" = Some 1020
  ∧ chipsInPlay (run lobby012 (deal :: toRiver ++ [act "c" "check" 0])) = 2999.
Proof. vm_compute. repeat split; reflexivity. Qed.

(** A small blind posted from a stack of 5: the stack gives 5, the pot
    takes 10. *)
Example short_blind_adds_chips :
  chipsInPlay shortStack012 = 2005
  ∧ stackOf (run shortStack012 [deal]) "a" = Some 0
  ∧ pot <$> game (run shortStack012 [deal]) = Some 30
  ∧ chipsInPlay (run shortStack012 [deal]) = 2010.
Proof. vm_compute. repeat split; reflexivity. Qed.

Lemma chips_conserved_while_hand_runs_witness :
  chipsInPlay (exec (startGame 2 "round-1" noShuffle) lobby012) = chipsInPlay lobby012
  ∧ game river012 ≠ None
  ∧ smallRun started012 toRiver = true
  ∧ chipsInPlay (run started012 toRiver) = chipsInPlay started012.
Proof.
  pose proof (@chips_conserved_while_hand_runs scoreSolver) as (Hstart & Hrun & _).
  split_and!.
  - eapply (Hstart 2 "round-1" noShuffle lobby012
              {| pId := "a"; idx := 0 |} {| pId := "b"; idx := 1 |});
      try (vm_compute; reflexivity); try (vm_compute; discriminate).
  - vm_compute. discriminate.
  - vm_compute. reflexivity.
  - apply (Hrun toRiver started012).
    + repeat constructor.
    + vm_compute. reflexivity.
    + vm_compute. discriminate.
Defined.

Lemma action_out_of_turn_rejected_witness :
  turnSeat <$> game started012 = Some (Some {| pId := "c"; idx := 2 |})
  ∧ processAction 3 "a" "check" 0 started012
    = (Ret tt, started012, [SendTo "a" (MError "Not your turn")]).
Proof.
  split; [vm_compute; reflexivity|].
  eapply (action_out_of_turn_rejected 3 started012 _ {| pId := "c"; idx := 2 |});
    [vm_compute; reflexivity | vm_compute; reflexivity | discriminate
    | vm_compute; eauto].
Defined.

Lemma raise_below_minimum_rejected_witness :
  minRaise <$> game started012 = Some 20
  ∧ processAction 3 "c" "raise" 5 started012
    = (Ret tt,
       setTurnTimer (Some "c") (setGame (setTurnEnd (Some 20003) <$> game started012) started012),
       [SendTo "c" (MError "Raise must be at least 20"); Broadcast (MTurn "c" 20003)]).
Proof.
  split; [vm_compute; reflexivity|].
  assert (∃ g, game started012 = Some g ∧ turnSeat g = Some {| pId := "c"; idx := 2 |}
               ∧ minRaise g = 20) as (g & Hg & Hts & Hmr).
  { eexists. split_and!; vm_compute; reflexivity. }
  assert (∃ pc, players started012 !! "c" = Some pc) as [pc Hc] by (vm_compute; eauto).
  assert (5 < minRaise g) as Hlt by (rewrite Hmr; lia).
  pose proof (raise_below_minimum_rejected 3 started012 g {| pId := "c"; idx := 2 |} pc 5
                Hg Hts Hc Hlt) as HH.
  cbn [pId] in HH. rewrite Hmr in HH. rewrite HH, Hg. vm_compute. reflexivity.
Defined.

(** C9 — a request for a seat someone else holds: "a" sits on seat 0, "b"
    asks for seat 0; the table stays as it is and no message at all, hence
    no error, goes to "b". *)
Lemma occupied_seat_request_is_silent :
  oneSeated = run TABLE0 [(0, EConnect "a"); (0, EConnect "b"); (1, EMessage "a" (TakeSeat 0))]
  ∧ seats oneSeated !! 0%nat = Some (Some "a")
  ∧ seat <$> players oneSeated !! "b" = Some None
  ∧ game oneSeated = None
  ∧ onMessage 2 "b" (TakeSeat 0) oneSeated = (Ret tt, oneSeated, []).
Proof. vm_compute. repeat split; reflexivity. Qed.

Lemma take_seat_outcomes_witness :
  takeSeat 2 "a" 3 oneSeated
  = (Ret tt, oneSeated, [SendTo "a" (MError "Already seated, cannot take another seat")])
  ∧ takeSeat 2 "b" 0 oneSeated = (Ret tt, oneSeated, [])
  ∧ seat <$> players (exec (takeSeat 2 "b" 4) oneSeated) !! "b" = Some (Some 4%nat).
Proof.
  assert (∃ pa, players oneSeated !! "a" = Some pa ∧ seat pa = Some 0%nat) as (pa & Ha & Hsa).
  { eexists. split; vm_compute; reflexivity. }
  assert (∃ pb, players oneSeated !! "b" = Some pb ∧ seat pb = None) as (pb & Hb & Hsb).
  { eexists. split; vm_compute; reflexivity. }
  pose proof (take_seat_outcomes 2 oneSeated "a" pa 3 Ha) as (Hseated & _).
  pose proof (take_seat_outcomes 2 oneSeated "b" pb 0 Hb) as (_ & _ & Hsilent & _).
  pose proof (take_seat_outcomes 2 oneSeated "b" pb 4 Hb) as (_ & _ & _ & Hok).
  split_and!.
  - apply Hseated. rewrite Hsa. discriminate.
  - apply Hsilent; [exact Hsb | vm_compute; reflexivity|].
    right. right. vm_compute. discriminate.
  - rewrite Hok; [vm_compute; reflexivity | exact Hsb | vm_compute; reflexivity | lia
                 | vm_compute; reflexivity].
Defined.

Lemma disconnect_skips_turn_branch_witness :
  turnTimer started012 = Some "c"
  ∧ exec (onClose 4 "c") started012
    = setPlayers (delete "c" (players started012))
        (setSeats (<[2%nat := None]> (seats started012)) started012).
Proof.
  split; [vm_compute; reflexivity|].
  assert (∃ pc, players started012 !! "c" = Some pc ∧ seat pc = Some 2%nat)
    as (pc & Hc & Hsc).
  { eexists. split; vm_compute; reflexivity. }
  assert (∃ g, game started012 = Some g
             ∧ (1 < numActive (alter (λ p, setActive false (setFolded true p)) "c"
                                 (players started012)) g)%nat) as (g & Hg & Hn).
  { eexists. split; [vm_compute; reflexivity|]. vm_compute. lia. }
  destruct (disconnect_skips_turn_branch 4 started012 "c" pc g Hc Hg) as (_ & Hmany & _).
  rewrite (Hmany Hn), Hsc.
  unfold setPlayers, setSeats. cbn [seats players game dealerIndex turnTimer].
  rewrite Hg. reflexivity.
Defined.


(** C3 — a raise larger than the stack: "c" holds 1000 with 20 to call and
    raises by 2000.  1000 chips move to the pot, yet the street bet of "c"
    and [currentBet] become 2020; [minRaise] becomes 980. *)
Theorem capped_raise_records_uncapped_bet :
  stackOf started012 "c" = Some 1000
  ∧ betOf started012 "c" = Some 0
  ∧ pot <$> game started012 = Some 30
  ∧ currentBet <$> game started012 = Some 20
  ∧ let T' := run started012 [act "c" "raise" 2000] in
    stackOf T' "c" = Some 0
    ∧ pot <$> game T' = Some 1030
    ∧ betOf T' "c" = Some 2020
    ∧ currentBet <$> game T' = Some 2020
    ∧ minRaise <$> game T' = Some 980.
Proof. vm_compute. repeat split; reflexivity. Qed.

(** C4 — the first street transition with the button on the empty seat 0
    and players on seats 1, 2, 3: the street state is reset, [seatOrder]
    starts with seat 1 (the small blind, the first seat after the button),
    and the turn goes to index [(0 + 1) mod 3 = 1], which is seat 2. *)
Theorem flop_turn_goes_to_second_seat :
  let T := run started123 [act "c" "call" 0; act "a" "call" 0] in
  dealerIndex T = 0%nat
  ∧ stage <$> game T = Some flop
  ∧ currentBet <$> game T = Some 0
  ∧ minRaise <$> game T = Some 20
  ∧ actionCount <$> game T = Some 0
  ∧ (betOf T "a", betOf T "b", betOf T "c") = (Some 0, Some 0, Some 0)
  ∧ (λ g, seatOrder g !! 0%nat) <$> game T = Some (Some {| pId := "a"; idx := 1 |})
  ∧ turnSeat <$> game T = Some (Some {| pId := "b"; idx := 2 |})
  ∧ turnTimer T = Some "b".
Proof. vm_compute. repeat split; reflexivity. Qed.

End ServerFacts.

(** ** Further properties of the array helpers *)

Section SortFacts.
Context {A : Type} (key : A → Z).

Local Abbreviation byKey := (λ a b : A, key a - key b).
Local Abbreviation keyLe := (λ a b : A, key a ≤ key b).

Lemma sort_insert_perm (cmp : A → A → Z) x l : sort_insert cmp x l ≡ₚ x :: l.
Proof.
induction l as [|y l IH]; simpl; [done|].
destruct (cmp x y <? 0); [done|]. rewrite IH. apply perm_swap.
Qed.

Lemma js_sort_perm (cmp : A → A → Z) l : js_sort cmp l ≡ₚ l.
Proof.
unfold js_sort.
enough (∀ acc, foldl (λ acc x, sort_insert cmp x acc) acc l ≡ₚ l ++ acc) as H.
{ by rewrite H, app_nil_r. }
induction l as [|x l IH]; intros acc; simpl; [done|].
rewrite IH, sort_insert_perm. by rewrite Permutation_middle.
Qed.

Lemma sort_insert_sorted x l :
StronglySorted keyLe l → StronglySorted keyLe (sort_insert byKey x l).
Proof.
induction 1 as [|y l Hl IH Hy]; simpl.
- repeat constructor.
- destruct (Z.ltb_spec (key x - key y) 0).
  + constructor; [by constructor|].
    apply Forall_cons. split; [lia|].
    eapply Forall_impl; [exact Hy|]. intros z Hz. simpl in Hz. lia.
  + constructor; [exact IH|].
    apply Forall_forall. intros z Hz%sort_insert_elem.
    destruct Hz as [->|Hz]; [lia|].
    by apply (proj1 (Forall_forall _ _) Hy).
Qed.

Lemma js_sort_sorted l : StronglySorted keyLe (js_sort byKey l).
Proof.
unfold js_sort.
enough (∀ acc, StronglySorted keyLe acc →
          StronglySorted keyLe (foldl (λ acc x, sort_insert byKey x acc) acc l)) as H.
{ apply H. constructor. }
induction l as [|x l IH]; intros acc Hacc; simpl; [done|].
by apply IH, sort_insert_sorted.
Qed.

(** With distinct keys the sorted array does not depend on the order of
  the input. *)
Lemma js_sort_order_free l l' :
Inj (=) (=) key → l ≡ₚ l' → js_sort byKey l = js_sort byKey l'.
Proof.
intros Hinj Hp.
assert (Transitive keyLe) by (intros a b c; lia).
assert (AntiSymm (=) keyLe).
{ intros a b Hab Hba. apply Hinj. lia. }
apply (StronglySorted_unique keyLe); [apply js_sort_sorted..|].
by rewrite !js_sort_perm.
Qed.
End SortFacts.

(** ** Further properties of the evaluator *)

Module EvaluatorExtras.
Import Evaluator EvaluatorSpec EvaluatorFacts.

(** X1 — [getCombinations(cards, k)], for every array and every [k]: the
    result lists exactly the [k]-element subsequences of [cards], and there
    are [length cards] choose [k] of them (none when [k] exceeds the
    length, the single empty combination when [k] is 0). *)
Theorem getCombinations_enumerates (cards : list Card) (k : nat) :
  (∀ c, c ∈ getCombinations cards k ↔ c `sublist_of` cards ∧ length c = k)
  ∧ length (getCombinations cards k) = choose (length cards) k.
Proof.
  rewrite getCombinations_combs. split; [apply combs_elem | apply combs_length].
Qed.

(** X2 — [evaluate5] raises its TypeError on the empty hand and on no
    other input. *)
Theorem evaluate5_defined_iff (hand : list Card) :
  is_Some (evaluate5 hand) ↔ hand ≠ [].
Proof.
  split; [|apply evaluate5_total].
  intros [r Hr] ->. discriminate.
Qed.

Lemma rank_of_value (r : Rank) : RANKS !! Z.to_nat (rankValue r) = Some r.
Proof. by destruct r. Qed.

#[local] Instance rankValue_inj : Inj (=) (=) rankValue.
Proof.
  intros a b Hab. pose proof (rank_of_value a) as Ha.
  rewrite Hab, rank_of_value in Ha. congruence.
Qed.

Lemma flush_all_same (suits : list Suit) :
  forallb (λ s, bool_decide (Some s = head suits)) suits = true
  ↔ ∀ x y, x ∈ suits → y ∈ suits → x = y.
Proof.
  rewrite forallb_forall. split.
  - intros Hall x y Hx Hy.
    apply list_elem_of_In, Hall, bool_decide_eq_true in Hx.
    apply list_elem_of_In, Hall, bool_decide_eq_true in Hy. congruence.
  - intros Hsame x Hx%list_elem_of_In. apply bool_decide_eq_true.
    destruct suits as [|s suits]; [by apply elem_of_nil in Hx|].
    simpl. f_equal. apply Hsame; [done | left].
Qed.

Lemma flush_perm (suits suits' : list Suit) :
  suits ≡ₚ suits' →
  forallb (λ s, bool_decide (Some s = head suits)) suits
  = forallb (λ s, bool_decide (Some s = head suits')) suits'.
Proof.
  intros Hp.
  pose proof (flush_all_same suits) as H1. pose proof (flush_all_same suits') as H2.
  assert ((∀ x y, x ∈ suits → y ∈ suits → x = y)
          ↔ (∀ x y, x ∈ suits' → y ∈ suits' → x = y)) as H3.
  { split; intros Hs x y Hx Hy; apply Hs.
    - by rewrite Hp.
    - by rewrite Hp.
    - by rewrite <- Hp.
    - by rewrite <- Hp. }
  destruct (forallb _ suits), (forallb _ suits'); try done.
  - symmetry. apply H2, H3, H1. done.
  - apply H1, H3, H2. done.
Qed.

Lemma evaluate5_perm (hand hand' : list Card) :
  hand ≡ₚ hand' → evaluate5 hand = evaluate5 hand'.
Proof.
  intros Hp. unfold evaluate5.
  rewrite (js_sort_order_free rankValue (map fst hand) (map fst hand'))
    by (apply _ || by apply Permutation_map).
  rewrite (flush_perm (map snd hand) (map snd hand')) by (by apply Permutation_map).
  reflexivity.
Qed.

(** X3 — the order of the five cards does not matter: [evaluate5] gives
    the same score and name (or the same failure) on any rearrangement of
    a hand. *)
Theorem evaluate5_order_free (hand hand' : list Card) :
  hand ≡ₚ hand' → evaluate5 hand = evaluate5 hand'.
Proof. apply evaluate5_perm. Qed.

Lemma evaluate5_order_free_witness :
  evaluate5 [(R7, Clubs); (RA, Spades); (R2, Clubs); (RA, Hearts); (R4, Diamonds)]
  = Some {| score := 1000012; handName := "One Pair" |}.
Proof.
  rewrite <- (evaluate5_order_free pairOfAces).
  - reflexivity.
  - unfold pairOfAces.
    apply (Permutation_trans (l' := [(RA, Spades); (R7, Clubs); (RA, Hearts); (R4, Diamonds);
                                     (R2, Clubs)])).
    + apply perm_skip, perm_swap.
    + apply (Permutation_trans (l' := [(R7, Clubs); (RA, Spades); (RA, Hearts); (R4, Diamonds);
                                       (R2, Clubs)])); [apply perm_swap|].
      do 2 apply perm_skip.
      apply (Permutation_trans (l' := [(RA, Hearts); (R2, Clubs); (R4, Diamonds)]));
        [apply perm_skip, perm_swap | apply perm_swap].
Defined.

(** The name [evaluate5] gives is one of ten and is fixed by the score. *)
Lemma evaluate5_names hand r :
  evaluate5 hand = Some r →
  handName r ∈ ["Royal Flush"; "Straight Flush"; "Four of a Kind"; "Full House"; "Flush";
                "Straight"; "Three of a Kind"; "Two Pair"; "One Pair"; "High Card"].
Proof.
  unfold evaluate5.
  destruct (straightCheck _) as [straight hs].
  set (flush := forallb _ _).
  match goal with |- context [js_sort ?c ?l !! 0%nat] => set (countsArr := js_sort c l) end.
  destruct (straight && flush).
  { case_bool_decide; intros [= <-]; cbn [handName]; set_solver. }
  destruct (countsArr !! 0%nat) as [[r0 c0]|]; [|discriminate].
  simpl.
  repeat match goal with
         | |- context [bool_decide ?P] => destruct (bool_decide P); simpl
         | |- context [if flush then _ else _] => destruct flush; simpl
         | |- context [if straight then _ else _] => destruct straight; simpl
         end;
    intros [= <-]; cbn [handName]; set_solver.
Qed.

Lemma evaluate5_name_by_score h1 h2 r1 r2 :
  evaluate5 h1 = Some r1 → evaluate5 h2 = Some r2 →
  score r1 = score r2 → r1 = r2.
Proof.
  intros E1 E2 Hs.
  pose proof (evaluate5_band _ _ E1) as B1. pose proof (evaluate5_band _ _ E2) as B2.
  pose proof (evaluate5_names _ _ E1) as N1. pose proof (evaluate5_names _ _ E2) as N2.
  destruct r1 as [s1 n1], r2 as [s2 n2]. simpl in *. subst s2. f_equal.
  assert (band n1 = band n2) as Hb by lia. clear B1 B2.
  repeat (apply elem_of_cons in N1 as [->|N1]); [..|by apply elem_of_nil in N1];
    repeat (apply elem_of_cons in N2 as [->|N2]); try (by apply elem_of_nil in N2);
    first [reflexivity | vm_compute in Hb; discriminate].
Qed.

Lemma choose_small n k : (n < k)%nat → choose n k = 0%nat.
Proof.
  revert k. induction n as [|n IH]; intros [|k] Hlt; simpl; try lia.
  rewrite !IH by lia. done.
Qed.

Lemma choose_pos n k : (k ≤ n)%nat → (0 < choose n k)%nat.
Proof.
  revert k. induction n as [|n IH]; intros [|k] Hle; simpl; try lia.
  specialize (IH k ltac:(lia)). lia.
Qed.

Lemma combs5_nil_iff (cards : list Card) : combs cards 5 = [] ↔ (length cards < 5)%nat.
Proof.
  rewrite <- length_zero_iff_nil, combs_length. split.
  - intros Hz. destruct (decide (length cards < 5)%nat); [done|].
    pose proof (choose_pos (length cards) 5). lia.
  - apply choose_small.
Qed.

(** What the loop of [evaluate7] leaves in [best]. *)
Lemma evaluate7_best cards :
  ∃ b, evaluate7 cards = Some b
     ∧ (b = best0 ∧ combs cards 5 = []
        ∨ hand b ∈ combs cards 5 ∧ evaluate5 (hand b) = Some (result b))
     ∧ ∀ c, c ∈ combs cards 5 → ∃ r, evaluate5 c = Some r ∧ score r ≤ score (result b).
Proof.
  unfold evaluate7. rewrite getCombinations_combs.
  destruct (keepBetter_fold (combs cards 5) best0) as (b & Eb & Hle & Hb & Hmax).
  { intros c [_ Hc]%combs_elem ->. discriminate. }
  exists b. split_and!; [done | | done].
  destruct Hb as [->|Hb]; [left | by right]. split; [done|].
  destruct (combs cards 5) as [|c cs]; [done|]. exfalso.
  destruct (Hmax c) as (r & Er & Hr); [left|].
  apply evaluate5_score_nonneg in Er. simpl in Hr. lia.
Qed.

(** X4 — [evaluate7] never fails, whatever the number of cards.  With
    fewer than five cards there is no subset to score and it returns its
    initial [best] (score -1, empty name, empty hand); with five or more its
    score is at least 0. *)
Theorem evaluate7_total (cards : list Card) :
  ∃ b, evaluate7 cards = Some b
     ∧ (b = best0 ↔ (length cards < 5)%nat)
     ∧ (0 ≤ score (result b) ↔ (5 ≤ length cards)%nat).
Proof.
  destruct (evaluate7_best cards) as (b & Eb & Hb & _).
  exists b. split; [done|].
  destruct Hb as [[-> Hnil]|[Hin He]].
  - apply combs5_nil_iff in Hnil. split; [done|]. simpl. lia.
  - assert (5 ≤ length cards)%nat as Hlen.
    { destruct (decide (length cards < 5)%nat) as [Hlt|]; [|lia].
      apply combs5_nil_iff in Hlt. rewrite Hlt in Hin. by apply elem_of_nil in Hin. }
    apply evaluate5_score_nonneg in He as Hs. split.
    + split; [|lia]. intros ->. simpl in Hs. lia.
    + done.
Qed.

Lemma combs_perm (cards cards' c : list Card) k :
  cards ≡ₚ cards' → c ∈ combs cards k → ∃ c', c' ∈ combs cards' k ∧ c ≡ₚ c'.
Proof.
  intros Hp [Hsub Hlen]%combs_elem.
  assert (c ⊆+ cards') as Hc by (apply submseteq_sublist_l; eauto).
  apply submseteq_sublist_r in Hc as (c' & Hcc' & Hsub').
  exists c'. split; [|done]. apply combs_elem. split; [done|].
  by rewrite <- Hcc'.
Qed.

(** X5 — the order of the cards handed to [evaluate7] does not matter for
    the score and the name it reports (the five cards it returns may be a
    rearrangement). *)
Theorem evaluate7_order_free (cards cards' : list Card) :
  cards ≡ₚ cards' → result <$> evaluate7 cards = result <$> evaluate7 cards'.
Proof.
  intros Hp.
  destruct (evaluate7_best cards) as (b & -> & Hb & Hmax).
  destruct (evaluate7_best cards') as (b' & -> & Hb' & Hmax').
  simpl. f_equal.
  assert (combs cards 5 = [] ↔ combs cards' 5 = []) as Hnil.
  { rewrite !combs5_nil_iff. by rewrite Hp. }
  destruct Hb as [[-> Hn]|[Hin He]], Hb' as [[-> Hn']|[Hin' He']]; [done|..].
  - apply Hnil in Hn. rewrite Hn in Hin'. by apply elem_of_nil in Hin'.
  - apply Hnil in Hn'. rewrite Hn' in Hin. by apply elem_of_nil in Hin.
  - apply (evaluate5_name_by_score _ _ _ _ He He').
    destruct (combs_perm cards cards' (hand b) 5 Hp Hin) as (c' & Hc' & Hpc).
    destruct (Hmax' c' Hc') as (r & Er & Hr).
    rewrite <- (evaluate5_perm _ _ Hpc), He in Er. injection Er as <-.
    destruct (combs_perm cards' cards (hand b') 5 (symmetry Hp) Hin') as (c & Hc & Hpc').
    destruct (Hmax c Hc) as (r' & Er' & Hr').
    rewrite <- (evaluate5_perm _ _ Hpc'), He' in Er'. injection Er' as <-.
    lia.
Qed.

Lemma evaluate7_order_free_witness :
  result <$> evaluate7 (rev royalSeven)
  = Some {| score := 9000000; handName := "Royal Flush" |}.
Proof.
  rewrite <- (evaluate7_order_free royalSeven (rev royalSeven)).
  - reflexivity.
  - apply Permutation_rev.
Defined.

(** *** What the hand names stand for *)

Section Names.

Local Abbreviation occ := (λ (l : list Rank) (r : Rank), Z.of_nat (count_occ Rank_eq_dec l r)).

Lemma bump_keys (r : Rank) (cs : list (Rank * Z)) :
(bump r cs).*1 = if bool_decide (r ∈ cs.*1) then cs.*1 else cs.*1 ++ [r].
Proof.
induction cs as [|[q c] rest IH]; [done|]. cbn [bump].
destruct (decide (r = q)) as [->|Hne]; rewrite !fmap_cons; cbn [fst].
- rewrite bool_decide_eq_true_2; [done|]. left.
- rewrite IH. destruct (decide (r ∈ rest.*1)) as [Hin|Hin].
  + rewrite !bool_decide_eq_true_2; [done| by right | done].
  + rewrite !bool_decide_eq_false_2; [done| |done].
    intros [?|?]%elem_of_cons; done.
Qed.

Lemma bump_elem (r : Rank) (cs : list (Rank * Z)) (r' : Rank) (c' : Z) :
NoDup cs.*1 →
(r', c') ∈ bump r cs →
(r' ≠ r ∧ (r', c') ∈ cs)
∨ (r' = r ∧ ((∃ c, (r, c) ∈ cs ∧ c' = c + 1) ∨ ((r ∉ cs.*1) ∧ c' = 1))).
Proof.
induction cs as [|[q c] rest IH]; simpl; intros Hnd Hin.
- apply list_elem_of_singleton in Hin as [= -> ->]. right. split; [done|]. right.
  split; [apply not_elem_of_nil | done].
- apply NoDup_cons in Hnd as [Hq Hnd].
  destruct (decide (r = q)) as [->|Hne].
  + apply elem_of_cons in Hin as [[= -> ->]|Hin].
    * right. split; [done|]. left. exists c. split; [left | done].
    * left. split; [|by right]. intros ->. apply Hq.
      apply list_elem_of_fmap. by exists (q, c').
  + apply elem_of_cons in Hin as [[= -> ->]|Hin].
    * left. split; [done | left].
    * destruct (IH Hnd Hin) as [[H1 H2]|[-> [(c0 & H1 & H2)|[H1 H2]]]].
      -- left. split; [done | by right].
      -- right. split; [done|]. left. exists c0. split; [by right | done].
      -- right. split; [done|]. right. split; [|done].
         intros [?|?]%elem_of_cons; done.
Qed.

(** [counts] lists every rank of the hand once, with the number of times
  it occurs. *)
Lemma counts_spec (l : list Rank) :
let counts := foldl (λ acc r, bump r acc) [] l in
NoDup counts.*1
∧ (∀ r c, (r, c) ∈ counts → c = occ l r)
∧ (∀ r, r ∈ l → r ∈ counts.*1).
Proof.
induction l as [|r l IH] using rev_ind; simpl.
- split_and!; [constructor | by intros ? ? ?%elem_of_nil | by intros ? ?%elem_of_nil].
- rewrite foldl_app. simpl. destruct IH as (Hnd & Hc & Hk).
  set (cs := foldl (λ acc r, bump r acc) [] l) in *.
  split_and!.
  + rewrite bump_keys. case_bool_decide; [done|].
    apply NoDup_app. split_and!; [done| |apply NoDup_singleton].
    intros x Hx Hx'. apply list_elem_of_singleton in Hx' as ->. done.
  + intros r' c' Hin. rewrite count_occ_app. simpl.
    destruct (bump_elem r cs r' c' Hnd Hin) as [[H1 H2]|[-> [(c0 & H1 & H2)|[H1 H2]]]].
    * rewrite (Hc r' c' H2). destruct (Rank_eq_dec r r'); [congruence|]. lia.
    * rewrite H2, (Hc r c0 H1). destruct (Rank_eq_dec r r); [|done]. lia.
    * assert (count_occ Rank_eq_dec l r = 0%nat) as ->.
      { apply count_occ_not_In. intros Hr%list_elem_of_In. by apply H1, Hk. }
      destruct (Rank_eq_dec r r); [|done]. lia.
  + intros r' Hr'. rewrite bump_keys.
    apply elem_of_app in Hr' as [Hr'|Hr'].
    * case_bool_decide; [by apply Hk|]. apply elem_of_app. left. by apply Hk.
    * apply list_elem_of_singleton in Hr' as ->.
      case_bool_decide; [done|]. apply elem_of_app. right. left.
Qed.

Lemma js_sort_sign {A} (cmp cmp' : A → A → Z) (l : list A) :
(∀ x y, (cmp x y <? 0) = (cmp' x y <? 0)) → js_sort cmp l = js_sort cmp' l.
Proof.
intros Hs. unfold js_sort. generalize (@nil A).
induction l as [|x l IH]; intros acc; simpl; [done|].
rewrite IH. f_equal. clear IH.
induction acc as [|y acc IHa]; simpl; [done|]. rewrite Hs. by rewrite IHa.
Qed.

Lemma StronglySorted_at {A} (R : A → A → Prop) (l : list A) (i j : nat) (x y : A) :
StronglySorted R l → (i < j)%nat → l !! i = Some x → l !! j = Some y → R x y.
Proof.
intros Hs. revert i j. induction Hs as [|z l Hs IH Hz]; intros i j Hij Hi Hj; [done|].
destruct i as [|i], j as [|j]; try lia; simpl in *.
- injection Hi as <-. apply (proj1 (Forall_forall _ _) Hz).
  by eapply list_elem_of_lookup_2.
- apply (IH i j); [lia|done..].
Qed.

(** [countsArr]: the entries of [counts], the greatest count first and,
  among equal counts, the highest rank first. *)
Lemma countsArr_spec (l : list Rank) :
let countsArr :=
  js_sort (λ a b : Rank * Z, if decide (b.2 - a.2 = 0) then rankValue b.1 - rankValue a.1
                             else b.2 - a.2)
          (foldl (λ acc r, bump r acc) [] l) in
(∀ i r c, countsArr !! i = Some (r, c) → c = occ l r ∧ 0 < c)
∧ (∀ i j r c r' c', (i < j)%nat →
     countsArr !! i = Some (r, c) → countsArr !! j = Some (r', c') →
     r ≠ r' ∧ c' ≤ c ∧ (c' = c → rankValue r' < rankValue r))
∧ (∀ r, 0 < occ l r → ∃ i, countsArr !! i = Some (r, occ l r)).
Proof.
intros countsArr. destruct (counts_spec l) as (Hnd & Hc & Hk).
set (counts := foldl (λ acc r, bump r acc) [] l) in *.
assert (countsArr ≡ₚ counts) as Hperm by apply js_sort_perm.
assert (∀ r c, (r, c) ∈ counts → 0 < c) as Hpos.
{ intros r c Hin. rewrite (Hc r c Hin).
  assert (r ∈ l) as Hr.
  { destruct (decide (r ∈ l)) as [|Hn]; [done|]. exfalso.
    apply list_elem_of_fmap_2 with (f := fst) in Hin. simpl in Hin.
    clear -Hin Hn. subst counts. revert Hin.
    induction l as [|x l IH] using rev_ind; simpl; [by intros ?%elem_of_nil|].
    rewrite foldl_app. simpl. rewrite bump_keys.
    apply not_elem_of_app in Hn as [Hn Hx]. apply not_elem_of_cons in Hx as [Hx _].
    case_bool_decide; [by apply IH|].
    intros [?|Hs]%elem_of_app; [by apply IH|].
    by apply list_elem_of_singleton in Hs. }
  apply list_elem_of_In, (count_occ_In Rank_eq_dec) in Hr. lia. }
set (key := λ e : Rank * Z, - (e.2 * 13 + rankValue e.1)).
assert (StronglySorted (λ a b, key a ≤ key b) countsArr) as Hsorted.
{ subst countsArr. rewrite (js_sort_sign _ (λ a b, key a - key b)).
  - apply (js_sort_sorted key).
  - intros [r1 c1] [r2 c2]. unfold key. simpl.
    pose proof (rankValue_range r1). pose proof (rankValue_range r2).
    destruct (decide (c2 - c1 = 0)).
    + destruct (Z.ltb_spec (rankValue r2 - rankValue r1) 0),
        (Z.ltb_spec (- (c1 * 13 + rankValue r1) - - (c2 * 13 + rankValue r2)) 0); lia.
    + destruct (Z.ltb_spec (c2 - c1) 0),
        (Z.ltb_spec (- (c1 * 13 + rankValue r1) - - (c2 * 13 + rankValue r2)) 0); lia. }
split_and!.
- intros i r c Hi. apply list_elem_of_lookup_2 in Hi. rewrite Hperm in Hi.
  split; [by apply Hc | by apply (Hpos r)].
- intros i j r c r' c' Hij Hi Hj.
  assert (r ≠ r') as Hne.
  { intros <-.
    assert (NoDup countsArr.*1) as Hnd' by (by rewrite Hperm).
    assert (i = j); [|lia].
    apply (NoDup_lookup countsArr.*1 i j r Hnd'); rewrite list_lookup_fmap.
    - by rewrite Hi.
    - by rewrite Hj. }
  pose proof (StronglySorted_at _ _ i j _ _ Hsorted Hij Hi Hj) as Hle.
  unfold key in Hle. simpl in Hle.
  pose proof (rankValue_range r). pose proof (rankValue_range r').
  split_and!; [done | lia |].
  intros ->. assert (rankValue r' ≠ rankValue r); [|lia].
  intros Heq. apply Hne. symmetry. by apply rankValue_inj.
- intros r Hr.
  assert (r ∈ l) as Hin.
  { apply list_elem_of_In, (count_occ_In Rank_eq_dec). lia. }
  apply Hk, list_elem_of_fmap in Hin as ([r' c] & Heq & Hin). simpl in Heq. subst r'.
  rewrite (Hc r c Hin) in Hin. rewrite <- Hperm in Hin.
  by apply list_elem_of_lookup_1 in Hin.
Qed.

(** X26 — what the names stand for.  When [evaluate5] names a hand
  Royal Flush, Straight Flush or Flush, all its cards share one suit.
  When it names it Four of a Kind, Full House, Three of a Kind, Two Pair
  or One Pair, the ranks of the hand occur with exactly those
  multiplicities, no rank occurs more often than the pattern says, and
  the score is the band of the name plus the index of the rank of the
  largest group (for Two Pair the higher of the first two pairs);
  kickers never enter the score. *)
Theorem evaluate5_name_sound (hand : list Card) (r : Eval5) :
evaluate5 hand = Some r →
let occ rk := Z.of_nat (count_occ Rank_eq_dec (map fst hand) rk) in
(handName r ∈ ["Royal Flush"; "Straight Flush"; "Flush"] →
   ∀ c c', c ∈ hand → c' ∈ hand → c.2 = c'.2)
∧ (handName r = "Four of a Kind" →
     ∃ rk, occ rk = 4 ∧ (∀ x, occ x ≤ 4) ∧ score r = 7000000 + rankValue rk)
∧ (handName r = "Full House" →
     ∃ rk rk', rk ≠ rk' ∧ occ rk = 3 ∧ occ rk' = 2 ∧ (∀ x, occ x ≤ 3)
             ∧ score r = 6000000 + rankValue rk)
∧ (handName r = "Three of a Kind" →
     ∃ rk, occ rk = 3 ∧ (∀ x, occ x ≤ 3) ∧ score r = 3000000 + rankValue rk)
∧ (handName r = "Two Pair" →
     ∃ rk rk', rankValue rk' < rankValue rk ∧ occ rk = 2 ∧ occ rk' = 2
             ∧ (∀ x, occ x ≤ 2) ∧ score r = 2000000 + rankValue rk)
∧ (handName r = "One Pair" →
     ∃ rk, occ rk = 2 ∧ (∀ x, x ≠ rk → occ x ≤ 1) ∧ score r = 1000000 + rankValue rk).
Proof.
intros E. cbv zeta. unfold evaluate5 in E.
set (ranks := js_sort (λ a b, rankValue a - rankValue b) (map fst hand)) in *.
assert (∀ x, count_occ Rank_eq_dec (map fst hand) x = count_occ Rank_eq_dec ranks x)
  as Hsame.
{ apply Permutation_count_occ. symmetry. apply js_sort_perm. }
destruct (countsArr_spec ranks) as (Hocc & Hord & Hex).
destruct (straightCheck _) as [straight hs].
set (flush := forallb _ _) in *.
match type of E with
| context [js_sort ?c ?l !! 0%nat] => set (countsArr := js_sort c l) in *
end.
assert (flush = true → ∀ c c', c ∈ hand → c' ∈ hand → c.2 = c'.2) as Hflush.
{ intros Hf c c' Hc Hc'. apply (proj1 (flush_all_same (map snd hand)) Hf).
  - apply list_elem_of_In, in_map, list_elem_of_In, Hc.
  - apply list_elem_of_In, in_map, list_elem_of_In, Hc'. }
assert (∀ i rk c, countsArr !! i = Some (rk, c) →
          c = Z.of_nat (count_occ Rank_eq_dec (map fst hand) rk) ∧ 0 < c) as Hocc'.
{ intros i rk c Hi. rewrite Hsame. by apply (Hocc i). }
assert (∀ rk, 0 < Z.of_nat (count_occ Rank_eq_dec (map fst hand) rk) →
          ∃ i, countsArr !! i = Some (rk, Z.of_nat (count_occ Rank_eq_dec (map fst hand) rk)))
  as Hex'.
{ intros rk. rewrite Hsame. apply Hex. }
clear Hocc Hex Hsame.
pose (occ := λ rk, Z.of_nat (count_occ Rank_eq_dec (map fst hand) rk)).
destruct (straight && flush) eqn:Esf.
{ apply andb_true_iff in Esf as [_ Hf].
  case_bool_decide; injection E as <-; cbn [handName score];
    (split_and!; [by intros _; apply Hflush | discriminate..]). }
destruct (countsArr !! 0%nat) as [[r0 c0]|] eqn:E0; [|discriminate].
destruct (Hocc' 0%nat r0 c0 E0) as [Hc0 Hpos0].
assert (∀ x, occ x ≤ c0) as Hmax.
{ intros x. destruct (decide (0 < occ x)) as [Hx|Hx]; [|unfold occ in *; lia].
  destruct (Hex' x Hx) as [i Hi]. destruct i as [|i].
  - rewrite E0 in Hi. injection Hi as _ Hi. unfold occ in *; lia.
  - destruct (Hord 0%nat (S i) r0 c0 x (occ x)) as (_ & Hle & _); [lia|done|done|]. exact Hle. }
assert (snd <$> countsArr !! 1%nat = Some 2 →
        ∃ r1, r0 ≠ r1 ∧ occ r1 = 2 ∧ (c0 = 2 → rankValue r1 < rankValue r0)) as Hsecond.
{ intros H1. destruct (countsArr !! 1%nat) as [[r1 c1]|] eqn:E1; [|done].
  simpl in H1. injection H1 as ->.
  destruct (Hord 0%nat 1%nat r0 c0 r1 2) as (Hne & _ & Hlt); [lia|done|done|].
  destruct (Hocc' 1%nat r1 2 E1) as [Ho _].
  exists r1. split_and!; [done | done |]. intros ->. by apply Hlt. }
assert (c0 = 2 → snd <$> countsArr !! 1%nat ≠ Some 2 → ∀ x, x ≠ r0 → occ x ≤ 1) as Hrest.
{ intros -> Hn1 x Hx. destruct (decide (occ x ≤ 1)) as [|Hbig]; [done|]. exfalso.
  destruct (Hex' x) as [i Hi]; [unfold occ in *; lia|]. destruct i as [|i].
  { rewrite E0 in Hi. by injection Hi as -> _. }
  destruct (lookup_lt_is_Some_2 countsArr 1%nat) as [[r1 c1] E1].
  { apply lookup_lt_Some in Hi. unfold occ in *; unfold occ in *; lia. }
  destruct (Hord 0%nat 1%nat r0 2 r1 c1) as (_ & Hle1 & _); [lia|done|done|].
  rewrite E1 in Hn1. simpl in Hn1.
  assert (c1 ≠ 2) as Hc1 by congruence.
  destruct i as [|i].
  - rewrite E1 in Hi. injection Hi as _ Hi. pose proof (Hmax x). unfold occ in *; lia.
  - destruct (Hord 1%nat (S (S i)) r1 c1 x (occ x)) as (_ & Hle & _); [lia|done|done|]. unfold occ in *; lia. }
cbn [fmap] in E.
destruct (bool_decide (c0 = 4)) eqn:B4.
{ apply bool_decide_eq_true in B4 as ->. injection E as <-. cbn [handName score].
  split_and!; try discriminate.
  - intros Hin. exfalso. revert Hin. rewrite !elem_of_cons, elem_of_nil.
    intros [?|[?|[?|?]]]; done.
  - intros _. exists r0. by split_and!. }
destruct (bool_decide (c0 = 3) && bool_decide (snd <$> countsArr !! 1%nat = Some 2)) eqn:B32.
{ apply andb_true_iff in B32 as [->%bool_decide_eq_true H1%bool_decide_eq_true].
  injection E as <-. cbn [handName score].
  destruct (Hsecond H1) as (r1 & Hne & Ho1 & _).
  split_and!; try discriminate.
  - intros Hin. exfalso. revert Hin. rewrite !elem_of_cons, elem_of_nil.
    intros [?|[?|[?|?]]]; done.
  - intros _. exists r0, r1. by split_and!. }
destruct flush eqn:Ef.
{ injection E as <-. cbn [handName score].
  split_and!; try discriminate. intros _. by apply Hflush. }
destruct straight.
{ injection E as <-. cbn [handName score].
  split_and!; try discriminate.
  intros Hin. exfalso. revert Hin. rewrite !elem_of_cons, elem_of_nil.
  intros [?|[?|[?|?]]]; done. }
destruct (bool_decide (c0 = 3)) eqn:B3.
{ apply bool_decide_eq_true in B3 as ->. injection E as <-. cbn [handName score].
  split_and!; try discriminate.
  - intros Hin. exfalso. revert Hin. rewrite !elem_of_cons, elem_of_nil.
    intros [?|[?|[?|?]]]; done.
  - intros _. exists r0. by split_and!. }
destruct (bool_decide (c0 = 2) && bool_decide (snd <$> countsArr !! 1%nat = Some 2)) eqn:B22.
{ apply andb_true_iff in B22 as [->%bool_decide_eq_true H1%bool_decide_eq_true].
  injection E as <-. cbn [handName score].
  destruct (Hsecond H1) as (r1 & Hne & Ho1 & Hlt).
  split_and!; try discriminate.
  - intros Hin. exfalso. revert Hin. rewrite !elem_of_cons, elem_of_nil.
    intros [?|[?|[?|?]]]; done.
  - intros _. exists r0, r1. split_and!; [by apply Hlt|done..]. }
destruct (bool_decide (c0 = 2)) eqn:B2.
{ apply bool_decide_eq_true in B2 as ->. injection E as <-. cbn [handName score].
  rewrite andb_true_l in B22. apply bool_decide_eq_false in B22.
  split_and!; try discriminate.
  - intros Hin. exfalso. revert Hin. rewrite !elem_of_cons, elem_of_nil.
    intros [?|[?|[?|?]]]; done.
  - intros _. exists r0. split_and!; [done| by apply Hrest |done]. }
injection E as <-. cbn [handName score].
split_and!; try discriminate.
intros Hin. exfalso. revert Hin. rewrite !elem_of_cons, elem_of_nil.
intros [?|[?|[?|?]]]; done.
Qed.

Lemma evaluate5_name_sound_witness :
evaluate5 pairOfAces = Some {| score := 1000012; handName := "One Pair" |}
∧ ∃ rk, count_occ Rank_eq_dec (map fst pairOfAces) rk = 2%nat
      ∧ 1000012 = 1000000 + rankValue rk.
Proof.
split; [reflexivity|].
destruct (evaluate5_name_sound pairOfAces {| score := 1000012; handName := "One Pair" |})
  as (_ & _ & _ & _ & _ & Hpair); [reflexivity|].
destruct (Hpair eq_refl) as (rk & Hocc & _ & Hscore).
exists rk. split; [lia | exact Hscore].
Defined.

End Names.

End EvaluatorExtras.

(** ** Further properties of the server *)

Module ServerExtras.
Import Server Accounting ServerFacts.

Section Requests.
Context `{PokerSolver} (now : Z).

(** X6 — an action while no round exists: the sender is told "No game in
  progress" and the table is left as it was, whatever the action. *)
Theorem action_without_round (T : Table) (playerId : PlayerId) (action : string)
  (amount : Z) :
game T = None →
is_Some (players T !! playerId) →
processAction now playerId action amount T
= (Ret tt, T, [SendTo playerId (MError "No game in progress")]).
Proof.
intros Eg Hp. unfold processAction. rewrite run_getT, Eg. by apply run_sendTo.
Qed.

(** X7 — an action kind other than fold, call, check and raise, sent by
  the player to act: the sender is told "Unknown action", the turn timer
  is armed again for the same player with a fresh deadline, and nothing
  else changes — the turn is not consumed. *)
Theorem unknown_action_rejected (T : Table) (g : Game) (cur : Seat) (p : Player)
  (action : string) (amount : Z) :
game T = Some g →
turnSeat g = Some cur →
players T !! pId cur = Some p →
action ≠ "fold" → action ≠ "call" → action ≠ "check" → action ≠ "raise" →
processAction now (pId cur) action amount T
= (Ret tt,
   {| seats := seats T; players := players T;
      game := Some (setTurnEnd (Some (now + 20000)) g);
      dealerIndex := dealerIndex T; turnTimer := Some (pId cur) |},
   [SendTo (pId cur) (MError "Unknown action");
    Broadcast (MTurn (pId cur) (now + 20000))]).
Proof.
intros Eg Ecur Hp Hf Hc Hk Hr. unfold processAction.
rewrite run_getT, Eg, Ecur.
rewrite bool_decide_eq_false_2 by (intros Hne; by apply Hne).
rewrite run_clearTurnTimer_bind, Hp. cbv zeta.
rewrite (bool_decide_eq_false_2 (action = "fold")) by done.
rewrite (bool_decide_eq_false_2 (action = "call" ∨ action = "check")) by (by intros [?|?]).
rewrite (bool_decide_eq_false_2 (action = "raise")) by done.
rewrite run_sendTo_bind by (simpl; eauto).
rewrite (run_startTurnTimer _ _ (setTurnEnd None g) cur) by (simpl; by rewrite ?Eg).
simpl. by destruct g.
Qed.

(** X8 — [startGame] does nothing, and sends nothing, when a round is
  already running or when fewer than two seats hold a player. *)
Theorem startGame_guard (T : Table) (newId : string) (rnd : nat → nat) :
(∃ g, game T = Some g ∧ showdownComplete g = false)
∨ (game T = None ∧ (length (List.filter truthy (seats T)) < 2)%nat) →
startGame now newId rnd T = (Ret tt, T, []).
Proof.
intros [(g & Eg & Hsc)|[Eg Hlen]]; unfold startGame; rewrite run_getT, Eg; simpl.
- rewrite Hsc. rewrite bool_decide_eq_false_2 by discriminate.
  rewrite run_bind. simpl. rewrite run_getT, Eg. done.
- rewrite run_bind. simpl. rewrite run_getT, Eg.
  by rewrite (proj2 (Nat.ltb_lt _ _) Hlen).
Qed.

Lemma exec_takeSeat_ok (T : Table) (wsId : PlayerId) (player : Player) (st : Z) :
players T !! wsId = Some player →
seat player = None →
game T = None →
0 ≤ st ≤ 5 →
seats T !! Z.to_nat st = Some None →
exec (takeSeat now wsId st) T
= setPlayers
    (alter (λ p, setFolded false (setActive true (setSeat (Some (Z.to_nat st)) p)))
           wsId (players T))
    (setSeats (<[Z.to_nat st := Some wsId]> (seats T)) T).
Proof.
intros Hp Hs Hg Hr Hfree. unfold takeSeat. rewrite exec_getT, Hp.
rewrite bool_decide_eq_false_2 by (intros Hn; by apply Hn).
rewrite bool_decide_eq_false_2 by (intros Hn; by apply Hn).
rewrite (proj2 (Z.ltb_ge _ _)) by lia. rewrite (proj2 (Z.ltb_ge _ _)) by lia.
rewrite bool_decide_eq_true_2 by done. simpl.
by rewrite exec_modifyT, exec_modifyPlayer, exec_logToAll, exec_broadcastState_end.
Qed.

Lemma exec_leaveSeat_ok (T : Table) (wsId : PlayerId) (player : Player) (i : nat) :
players T !! wsId = Some player →
game T = None →
seat player = Some i →
exec (leaveSeat now wsId) T
= setPlayers (alter (λ p, setFolded true (setActive false (setSeat None p)))
                    wsId (players T))
    (setSeats (<[i := None]> (seats T)) T).
Proof.
intros Hp Hg Hs. unfold leaveSeat. rewrite exec_getT, Hp.
rewrite bool_decide_eq_false_2 by (intros Hn; by apply Hn). rewrite Hs.
by rewrite exec_modifyT, exec_modifyPlayer, exec_logToAll, exec_broadcastState_end.
Qed.

(** X9 — leave-seat requests: while a round is active the request is
  answered "Game in progress: cannot change seats" and nothing changes;
  with no round, a player without a seat is ignored, and a seated player's
  seat is freed and the player marked inactive and folded. *)
Theorem leave_seat_outcomes (T : Table) (wsId : PlayerId) (player : Player) :
players T !! wsId = Some player →
(game T ≠ None →
   leaveSeat now wsId T
   = (Ret tt, T, [SendTo wsId (MError "Game in progress: cannot change seats")]))
∧ (game T = None → seat player = None → leaveSeat now wsId T = (Ret tt, T, []))
∧ (∀ i, game T = None → seat player = Some i →
     exec (leaveSeat now wsId) T
     = {| seats := <[i := None]> (seats T);
          players := alter (λ p, setFolded true (setActive false (setSeat None p)))
                           wsId (players T);
          game := None; dealerIndex := dealerIndex T; turnTimer := turnTimer T |}).
Proof.
intros Hp. unfold leaveSeat. split_and!.
- intros Hg. rewrite run_getT, Hp. rewrite bool_decide_eq_true_2 by done.
  apply run_sendTo. eauto.
- intros Hg Hs. rewrite run_getT, Hp.
  rewrite bool_decide_eq_false_2 by (intros Hn; by apply Hn). by rewrite Hs.
- intros i Hg Hs. rewrite exec_getT, Hp.
  rewrite bool_decide_eq_false_2 by (intros Hn; by apply Hn). rewrite Hs.
  rewrite exec_modifyT, exec_modifyPlayer, exec_logToAll, exec_broadcastState_end.
  unfold setPlayers, setSeats. simpl. by rewrite Hg.
Qed.

(** X10 — taking a free seat and leaving it again restores the seat
  array; the player ends without a seat, inactive and folded, and no
  other player is touched. *)
Theorem take_then_leave_seat (T : Table) (wsId : PlayerId) (player : Player) (st : Z) :
players T !! wsId = Some player →
seat player = None →
game T = None →
0 ≤ st ≤ 5 →
seats T !! Z.to_nat st = Some None →
exec (leaveSeat now wsId) (exec (takeSeat now wsId st) T)
= setPlayers (<[wsId := setFolded true (setActive false player)]> (players T)) T.
Proof.
intros Hp Hs Hg Hr Hfree.
rewrite (exec_takeSeat_ok T wsId player st) by done.
match goal with |- exec _ ?T1 = _ => set (T1' := T1) end.
assert (players T1' !! wsId
        = Some (setFolded false (setActive true (setSeat (Some (Z.to_nat st)) player))))
  as Hp1 by (subst T1'; simpl; by rewrite lookup_alter_eq, Hp).
rewrite (exec_leaveSeat_ok T1' wsId _ (Z.to_nat st) Hp1) by done.
subst T1'. unfold setPlayers, setSeats. simpl. rewrite Hg. f_equal.
- rewrite list_insert_insert_eq. by apply list_insert_id.
- apply map_eq. intros pid.
  destruct (decide (wsId = pid)) as [<-|Hne].
  + rewrite !lookup_alter_eq, lookup_insert_eq, Hp. simpl. f_equal.
    destruct player. simpl in *. by subst.
  + by rewrite !lookup_alter_ne, lookup_insert_ne.
Qed.

Lemma exec_broadcastState_idle {B} (k : unit → M B) T :
game T = None → exec (broadcastState ≫= k) T = exec (k tt) T.
Proof.
intros Eg. unfold broadcastState. rewrite exec_assoc, exec_getT, Eg.
apply exec_broadcast.
Qed.


(** X12 — showdown teardown: with at least one contesting player,
  [finishShowdown] leaves the seats as they were, drops the round, cancels
  the timer and moves the dealer button one seat on (modulo the number of
  seats).  With no contesting player it returns at once and the round
  stays as it is. *)
Theorem showdown_teardown (T : Table) (g : Game) :
game T = Some g →
(activePlayers (players T) g = [] → finishShowdown now T = (Ret tt, T, []))
∧ (activePlayers (players T) g ≠ [] →
     let T' := exec (finishShowdown now) T in
     seats T' = seats T ∧ game T' = None ∧ turnTimer T' = None
     ∧ dealerIndex T' = ((dealerIndex T + 1) `mod` length (seats T))%nat
     ∧ dom (players T') = dom (players T)).
Proof.
intros Eg. split.
- intros Ea. unfold finishShowdown. rewrite run_getT, Eg.
  by rewrite bool_decide_eq_true_2.
- intros Ha. cbv zeta. rewrite (exec_finishShowdown now T g) by done. simpl.
  split_and!; try done.
  apply set_eq. intros pid. by rewrite !elem_of_dom, payShare_dom.
Qed.

(** X13 — a timeout that finds its player already folded, or no longer
  registered, only uses up the timer: no fold, no message, no change to
  the round.  With no timer pending nothing happens at all. *)
Theorem stale_timeout_is_inert (T : Table) :
(turnTimer T = None → onTurnTimeout now T = (Ret tt, T, []))
∧ (∀ pid, turnTimer T = Some pid →
     folded <$> players T !! pid ≠ Some false →
     onTurnTimeout now T = (Ret tt, setTurnTimer None T, [])).
Proof.
unfold onTurnTimeout. split.
- intros Et. by rewrite run_getT, Et.
- intros pid Et Hf. rewrite run_getT, Et. rewrite run_bind. simpl.
  destruct (players T !! pid) as [p|]; [|done]. simpl in Hf.
  destruct (folded p); [done | by destruct Hf].
Qed.

Lemma substring_length (n m : nat) (s : string) :
(String.length (String.substring n m s) ≤ m)%nat.
Proof.
revert n m. induction s as [|c s IH]; intros [|n] [|m]; simpl; try lia.
- specialize (IH 0%nat m). lia.
- apply IH.
- specialize (IH n (S m)). lia.
Qed.

(** X14 — join requests: a seated player is answered "Already seated,
  cannot join again" and keeps the old name; an unseated player takes the
  given name (the old one when the given name is empty) cut to its first
  20 characters, so a name stored by [join] never exceeds 20 characters;
  nothing else about the player changes. *)
Theorem join_outcomes (T : Table) (wsId : PlayerId) (player : Player) (nm : string) :
players T !! wsId = Some player →
(seat player ≠ None →
   join wsId nm T = (Ret tt, T, [SendTo wsId (MError "Already seated, cannot join again")]))
∧ (seat player = None →
   ∃ nm', exec (join wsId nm) T = setPlayers (<[wsId := setName nm' player]> (players T)) T
        ∧ nm' = String.substring 0 20 (if bool_decide (nm = "") then name player else nm)
        ∧ (String.length nm' ≤ 20)%nat).
Proof.
intros Hp. unfold join. split.
- intros Hs. rewrite run_getT, Hp. rewrite bool_decide_eq_true_2 by done.
  apply run_sendTo. eauto.
- intros Hs. eexists. split_and!; [|reflexivity|apply substring_length].
  rewrite exec_getT, Hp. rewrite bool_decide_eq_false_2 by (intros Hn; by apply Hn).
  cbv zeta. rewrite exec_modifyPlayer, exec_sendTo, exec_broadcastState_end.
  unfold setPlayers. simpl. f_equal.
  apply map_eq. intros pid. destruct (decide (wsId = pid)) as [<-|Hne].
  + by rewrite lookup_alter_eq, lookup_insert_eq, Hp.
  + by rewrite lookup_alter_ne, lookup_insert_ne.
Qed.

End Requests.

(** *** The deck *)

Lemma insert_head_perm {A} (l : list A) (j : nat) (a b : A) :
  l !! j = Some b → b :: <[j := a]> l ≡ₚ a :: l.
Proof.
  revert j. induction l as [|x l IH]; intros [|j] Hj; simplify_eq/=.
  - apply perm_swap.
  - rewrite perm_swap, (IH j Hj). apply perm_swap.
Qed.

Lemma swap_perm (i j : nat) (deck : list Card) : swap i j deck ≡ₚ deck.
Proof.
  unfold swap.
  destruct (deck !! i) as [a|] eqn:Hi; [|done].
  destruct (deck !! j) as [b|] eqn:Hj; [|done].
  revert i j Hi Hj. induction deck as [|x deck IH]; intros [|i] [|j] Hi Hj; simplify_eq/=.
  - done.
  - by apply insert_head_perm.
  - by apply insert_head_perm.
  - f_equiv. by apply IH.
Qed.

Lemma shuffle_perm (rnd : nat → nat) (deck : list Card) : shuffle rnd deck ≡ₚ deck.
Proof.
  unfold shuffle. generalize (rev (seq 1 (length deck - 1))). intros steps.
  revert deck. induction steps as [|i steps IH]; intros deck; simpl; [done|].
  by rewrite IH, swap_perm.
Qed.

(** X15 — [shuffle] only rearranges: for every run of random numbers the
    shuffled array is a permutation of the array it was given.  The deck
    [startGame] plays with therefore holds each of the 52 cards exactly
    once. *)
Theorem shuffle_permutes (rnd : nat → nat) :
  (∀ deck, shuffle rnd deck ≡ₚ deck)
  ∧ length (shuffle rnd mkDeck) = 52%nat
  ∧ NoDup (shuffle rnd mkDeck)
  ∧ ∀ c, c ∈ shuffle rnd mkDeck.
Proof.
  pose proof (shuffle_perm rnd) as Hperm.
  split_and!; [done|..].
  - by rewrite Hperm.
  - rewrite Hperm. apply (bool_decide_unpack _). vm_compute. exact I.
  - intros [r s]. rewrite Hperm.
    destruct r, s; apply (bool_decide_unpack _); vm_compute; exact I.
Qed.

(** *** Turn order *)

Section TurnOrder.
Import Invariants.

Lemma head_filter_Some {A} (P : A → bool) (l : list A) (x : A) :
head (List.filter P l) = Some x →
∃ k, l !! k = Some x ∧ P x = true ∧ ∀ j y, (j < k)%nat → l !! j = Some y → P y = false.
Proof.
induction l as [|y l IH]; simpl; [done|].
destruct (P y) eqn:Hy; simpl.
- intros [= ->]. exists 0%nat. split_and!; [done | done | intros; lia].
- intros (k & Hk & Hx & Hbefore)%IH. exists (S k). split_and!; [done | done|].
  intros [|j] z Hj Hz; simplify_eq/=; [done|]. apply (Hbefore j); [lia | done].
Qed.

Lemma head_filter_None {A} (P : A → bool) (l : list A) :
head (List.filter P l) = None ↔ ∀ y, y ∈ l → P y = false.
Proof.
induction l as [|y l IH]; simpl.
- split; [intros _ z Hz; by apply elem_of_nil in Hz | done].
- destruct (P y) eqn:Hy; simpl.
  + split; [done|]. intros Hall. specialize (Hall y ltac:(left)). congruence.
  + rewrite IH. split.
    * intros Hall z [->|Hz]%elem_of_cons; [done | by apply Hall].
    * intros Hall z Hz. apply Hall. by right.
Qed.

Lemma activePlayers_nil (ps : gmap PlayerId Player) (g : Game) :
activePlayers ps g = [] ↔ ∀ i, contestingAt ps g i = false.
Proof.
unfold activePlayers, contestingAt. split.
- intros Hnil i. destruct (seatOrder g !! i) as [s|] eqn:Hs; [|done].
  destruct (contesting ps (pId s)) eqn:Hc; [|done].
  assert (pId s ∈ List.filter (contesting ps) (map pId (seatOrder g))) as Hin.
  { apply list_elem_of_In, filter_In. split; [|done].
    apply in_map, list_elem_of_In. by eapply list_elem_of_lookup_2. }
  rewrite Hnil in Hin. by apply elem_of_nil in Hin.
- intros Hall. destruct (List.filter _ _) as [|pid l] eqn:Hf; [done|]. exfalso.
  assert (pid ∈ List.filter (contesting ps) (map pId (seatOrder g))) as Hin
    by (rewrite Hf; left).
  apply list_elem_of_In, filter_In in Hin as [Hin Hc].
  apply in_map_iff in Hin as (s & <- & Hs).
  apply list_elem_of_In, list_elem_of_lookup in Hs as [i Hi].
  specialize (Hall i). rewrite Hi in Hall. congruence.
Qed.

(** X16 — [nextActiveIndex(game, fromIndex)]: a result [i] is the
  position of a contesting player, reached from [fromIndex] in [step]
  seats going round [seatOrder], with no contesting player on the seats
  passed on the way (a full round brings the search back to [fromIndex]
  itself); the result is -1 exactly when no seat of [seatOrder] holds a
  contesting player. *)
Theorem nextActiveIndex_finds_next (ps : gmap PlayerId Player) (g : Game) (fromIndex : nat) :
let L := length (seatOrder g) in
(∀ i, nextActiveIndex ps g fromIndex = Some i →
   (i < L)%nat ∧ contestingAt ps g i = true
   ∧ ∃ step, (1 ≤ step ≤ L)%nat ∧ i = ((fromIndex + step) `mod` L)%nat
     ∧ ∀ step', (1 ≤ step' < step)%nat →
                contestingAt ps g ((fromIndex + step') `mod` L)%nat = false)
∧ (nextActiveIndex ps g fromIndex = None ↔ activePlayers ps g = []).
Proof.
intros L. unfold nextActiveIndex. fold L. fold (contestingAt ps g).
assert (L = length (seatOrder g)) as HL by done. clearbody L.
set (f := λ step, ((fromIndex + step) `mod` L)%nat).
assert (∀ step, f step = ((fromIndex + step) `mod` L)%nat) as Hf by done.
clearbody f.
assert (∀ k y, map f (seq 1 L) !! k = Some y ↔ (k < L)%nat ∧ y = f (1 + k)%nat) as Hlook.
{ intros k y. change (map f (seq 1 L)) with (f <$> seq 1 L).
  rewrite list_lookup_fmap. split.
  - destruct (seq 1 L !! k) as [z|] eqn:Hz; [|done]. intros [= <-].
    apply lookup_seq in Hz as [-> ?]. done.
  - intros [Hk ->]. by rewrite (proj2 (lookup_seq 1 L k (1 + k)%nat)). }
split.
- intros i (k & Hk & Hc & Hbefore)%head_filter_Some.
  apply Hlook in Hk as [Hk ->].
  split; [rewrite Hf; apply Nat.mod_upper_bound; lia|]. split; [done|].
  exists (1 + k)%nat. split; [lia|]. split; [apply Hf|].
  intros step' Hstep'. rewrite <- Hf. apply (Hbefore (step' - 1)%nat); [lia|].
  apply Hlook. split; [lia|]. f_equal. lia.
- rewrite head_filter_None, activePlayers_nil. split.
  + intros Hall i. destruct (decide (i < L)%nat) as [Hi|Hi].
    * remember (fromIndex `mod` L)%nat as r eqn:Er.
      assert (r < L)%nat as Hr by (subst r; apply Nat.mod_upper_bound; lia).
      remember (if decide (r < i)%nat then (i - r)%nat else (i + L - r)%nat) as step
        eqn:Es.
      assert (1 ≤ step ≤ L)%nat as Hstep by (subst step; case_decide; lia).
      assert (f step = i) as <-.
      { rewrite Hf, <- Nat.Div0.add_mod_idemp_l, <- Er. subst step.
        case_decide.
        - replace (r + (i - r))%nat with i by lia. by apply Nat.mod_small.
        - replace (r + (i + L - r))%nat with (i + 1 * L)%nat by lia.
          rewrite Nat.Div0.mod_add. by apply Nat.mod_small. }
      apply Hall. apply list_elem_of_lookup. exists (step - 1)%nat.
      apply Hlook. split; [lia|]. f_equal. lia.
    * unfold contestingAt. rewrite lookup_ge_None_2; [done | lia].
  + intros Hall y _. apply Hall.
Qed.
End TurnOrder.

(** *** The order of play *)

Section SeatOrder.
Import Invariants.

Lemma zip_seq_elem {X} (ss : list X) (k i : nat) (o : X) :
(i, o) ∈ zip (seq k (length ss)) ss ↔ (k ≤ i)%nat ∧ ss !! (i - k)%nat = Some o.
Proof.
rewrite list_elem_of_lookup. split.
- intros (j & Hj). apply lookup_zip_with_Some in Hj as (a & b & [= <- <-] & Ha & Hb).
  apply lookup_seq in Ha as [-> ?]. split; [lia|]. by replace (k + j - k)%nat with j by lia.
- intros [Hk Ho]. exists (i - k)%nat. apply lookup_zip_with_Some.
  exists i, o. split_and!; [done | | done].
  apply lookup_seq. apply lookup_lt_Some in Ho. lia.
Qed.

Lemma occupied_elem (ss : list (option PlayerId)) (s : Seat) :
s ∈ occupied ss ↔ ss !! idx s = Some (Some (pId s)).
Proof.
unfold occupied. rewrite list_elem_of_omap. split.
- intros ([i o] & Hin & Hs). apply zip_seq_elem in Hin as [_ Hin].
  simpl in Hs. destruct o as [id|]; [|done]. injection Hs as <-. simpl.
  by rewrite Nat.sub_0_r in Hin.
- intros Hs. exists (idx s, Some (pId s)). split.
  + apply zip_seq_elem. split; [lia|]. by rewrite Nat.sub_0_r.
  + simpl. by destruct s.
Qed.

Lemma occupied_idx_sublist (ss : list (option PlayerId)) (k : nat) :
idx <$> omap (λ e : nat * option PlayerId, (λ id, {| pId := id; idx := e.1 |}) <$> e.2)
             (zip (seq k (length ss)) ss)
`sublist_of` seq k (length ss).
Proof.
revert k. induction ss as [|o ss IH]; intros k; simpl; [done|].
destruct o as [id|]; simpl.
- apply sublist_skip, IH.
- apply sublist_cons, IH.
Qed.

Lemma seatOrder_lists_occupied_seats_aux (T : Table) :
(∀ s, s ∈ handOrder T ↔ seats T !! idx s = Some (Some (pId s)))
∧ NoDup (idx <$> handOrder T).
Proof.
unfold handOrder. split.
- intros s. by rewrite js_sort_elem, occupied_elem.
- rewrite js_sort_perm. eapply sublist_NoDup; [apply NoDup_seq|].
  apply (occupied_idx_sublist (seats T) 0).
Qed.

(** X17 — the [seatOrder] [startGame] builds: it holds exactly the
  occupied seats of the table, each with the player sitting there and
  each once, ordered by [(idx - dealerIndex + 6) % 6], the distance from
  the dealer button going round the table. *)
Theorem seatOrder_lists_occupied_seats (T : Table) :
(∀ s, s ∈ handOrder T ↔ seats T !! idx s = Some (Some (pId s)))
∧ NoDup (idx <$> handOrder T)
∧ StronglySorted (λ a b, seatKey (dealerIndex T) a ≤ seatKey (dealerIndex T) b)
                 (handOrder T).
Proof.
destruct (seatOrder_lists_occupied_seats_aux T) as [Helem Hnd].
split_and!; [done..|].
apply (js_sort_sorted (seatKey (dealerIndex T))).
Qed.

(** X18 — when the seat under the dealer button is occupied, that seat
  itself comes first in [seatOrder] (its distance from the button is 0):
  the player on the button is the one who posts the small blind. *)
Theorem dealer_seat_leads (T : Table) (pid : PlayerId) :
(length (seats T) ≤ 6)%nat →
seats T !! dealerIndex T = Some (Some pid) →
handOrder T !! 0%nat = Some {| pId := pid; idx := dealerIndex T |}.
Proof.
intros Hlen Hd.
destruct (seatOrder_lists_occupied_seats_aux T) as (Helem & _).
pose proof (js_sort_sorted (seatKey (dealerIndex T)) (occupied (seats T))) as Hsorted.
fold (handOrder T) in Hsorted.
set (sd := {| pId := pid; idx := dealerIndex T |}).
assert (sd ∈ handOrder T) as Hsd by (by apply Helem).
assert (dealerIndex T < 6)%nat as Hd6 by (apply lookup_lt_Some in Hd; lia).
destruct (handOrder T) as [|h rest] eqn:Eh; [by apply elem_of_nil in Hsd|].
simpl. f_equal.
assert (h ∈ h :: rest) as Hh by left.
apply Helem in Hh.
assert (idx h < 6)%nat as Hh6 by (apply lookup_lt_Some in Hh; lia).
assert (seatKey (dealerIndex T) h ≤ seatKey (dealerIndex T) sd) as Hle.
{ apply elem_of_cons in Hsd as [<-|Hin]; [lia|].
  apply StronglySorted_inv in Hsorted as [_ Hall].
  by apply (proj1 (Forall_forall _ _) Hall). }
assert (idx h = dealerIndex T) as Hidx.
{ unfold seatKey, sd in Hle. simpl in Hle.
  replace (Z.of_nat (dealerIndex T) - Z.of_nat (dealerIndex T) + 6) with 6 in Hle by lia.
  change (Z.rem 6 6) with 0 in Hle.
  rewrite Z.rem_mod_nonneg in Hle by lia.
  destruct (decide (idx h = dealerIndex T)) as [|Hne]; [done|]. exfalso.
  assert (Z.of_nat (idx h) - Z.of_nat (dealerIndex T) + 6
          = 6 * ((Z.of_nat (idx h) - Z.of_nat (dealerIndex T) + 6) / 6)
            + (Z.of_nat (idx h) - Z.of_nat (dealerIndex T) + 6) `mod` 6) as Hdm
    by (apply Z_div_mod_eq_full).
  pose proof (Z.mod_pos_bound (Z.of_nat (idx h) - Z.of_nat (dealerIndex T) + 6) 6).
  assert ((Z.of_nat (idx h) - Z.of_nat (dealerIndex T) + 6) / 6 = 0
          ∨ (Z.of_nat (idx h) - Z.of_nat (dealerIndex T) + 6) / 6 = 1) as [Hq|Hq]; [|lia..].
  assert (0 ≤ (Z.of_nat (idx h) - Z.of_nat (dealerIndex T) + 6) / 6 < 2); [|lia].
  split; [apply Z.div_pos; lia | apply Z.div_lt_upper_bound; lia]. }
rewrite Hidx, Hd in Hh. injection Hh as Hp. destruct h. simpl in *. by subst.
Qed.
End SeatOrder.

(** *** What a hand in progress changes *)

Section Moves.
Import Invariants.

#[global] Instance sameSeating_refl : Reflexive sameSeating.
Proof. by intros T. Qed.

#[global] Instance sameSeating_trans : Transitive sameSeating.
Proof. intros T1 T2 T3 [H1 H2] [H3 H4]. split; congruence. Qed.

#[global] Instance roundGoesOn_refl : Reflexive roundGoesOn.
Proof. intros T g Eg. exists g. by split_and!. Qed.

#[global] Instance roundGoesOn_trans : Transitive roundGoesOn.
Proof.
intros T1 T2 T3 H12 H23 g3 E3.
destruct (H23 g3 E3) as (g2 & E2 & Hid2 & Hst2 & Hc2 & Hd2 & Hx2).
destruct (H12 g2 E2) as (g1 & E1 & Hid1 & Hst1 & Hc1 & Hd1 & Hx1).
exists g1. split_and!; try done; try congruence; try lia; by etrans.
Qed.

Lemma move_sameSeating T T' : move T T' → sameSeating T T'.
Proof. by destruct 1. Qed.

Lemma nextStage_rank st st' :
nextStage st = Some st' →
stageRank st' = S (stageRank st) ∧ (boardSize st < boardSize st')%nat.
Proof. destruct st; intros [= <-]; simpl; lia. Qed.

Lemma move_roundGoesOn T T' : move T T' → roundGoesOn T T'.
Proof.
destruct 1 as [T ps Hps|T g g' Eg Hid Hst Hc Hd _ _|T g g' cs Eg _ Hid Hst Hc _ Hd _
               |T|T g s Eg _ _|T ps d _]; intros g1 E1; simpl in E1.
- exists g1. by split_and!.
- injection E1 as <-. exists g. rewrite Hst, Hc, Hd. by split_and!.
- injection E1 as <-. exists g. apply nextStage_rank in Hst as [Hr _].
  split_and!; try done; [lia | rewrite Hc; by apply prefix_app_r].
- exists g1. by split_and!.
- exists g1. by split_and!.
- done.
Qed.

Lemma move_boardOk T T' : move T T' → boardOk T → boardOk T'.
Proof.
destruct 1 as [T ps Hps|T g g' Eg Hid Hst Hc Hd _ _|T g g' cs Eg _ Hid Hst Hc Hl Hd _
               |T|T g s Eg _ _|T ps d _]; intros Hok g1 E1; simpl in E1; try by apply Hok.
- injection E1 as <-. rewrite Hst, Hc. by apply Hok.
- injection E1 as <-. rewrite Hc, length_app, Hl, (Hok g Eg).
  apply nextStage_rank in Hst as [_ Hb]. lia.
Qed.

Lemma roundId_turnSeat g g' :
roundId g' = roundId g → turnIndex g' = turnIndex g → turnSeat g' = turnSeat g.
Proof. unfold roundId, turnSeat. intros [= _ -> _ _ _] ->. done. Qed.

Lemma move_timerSound T T' : move T T' → timerSound T → timerSound T'.
Proof.
destruct 1 as [T ps Hps|T g g' Eg Hid Hst Hc Hd _ Hq|T g g' cs Eg Hq Hid Hst Hc Hl Hd _
               |T|T g s Eg Hs He|T ps d _]; intros Hok pid Et; simpl in Et;
  try done; try by apply Hok.
- destruct Hq as [Hq|[Hi He]]; [congruence|].
  destruct (Hok pid Et) as (g0 & s & Eg0 & Hs & Hp & Hend).
  rewrite Eg in Eg0. injection Eg0 as <-.
  exists g', s. simpl. rewrite He. split_and!; try done.
  by rewrite (roundId_turnSeat g g').
- congruence.
- injection Et as <-. by exists g, s.
Qed.

Lemma move_flagClear T T' : move T T' → flagClear T → flagClear T'.
Proof.
destruct 1 as [T ps Hps|T g g' Eg _ _ _ _ Hf _|T g g' cs Eg _ _ _ _ _ _ Hf
               |T|T g s Eg _ _|T ps d _]; intros Hok g1 E1; simpl in E1; try by apply Hok.
- injection E1 as <-. rewrite Hf. by apply Hok.
- injection E1 as <-. rewrite Hf. by apply Hok.
Qed.

Lemma moves_sameSeating T T' : rtc move T T' → sameSeating T T'.
Proof.
induction 1 as [|T1 T2 T3 H12 _ IH]; [done|].
etrans; [by apply move_sameSeating | done].
Qed.

Lemma moves_roundGoesOn T T' : rtc move T T' → roundGoesOn T T'.
Proof.
induction 1 as [|T1 T2 T3 H12 _ IH]; [done|].
etrans; [by apply move_roundGoesOn | done].
Qed.

Lemma moves_boardOk T T' : rtc move T T' → boardOk T → boardOk T'.
Proof. induction 1 as [|T1 T2 T3 H12 _ IH]; [done|]. intros. by eapply IH, move_boardOk. Qed.

Lemma moves_timerSound T T' : rtc move T T' → timerSound T → timerSound T'.
Proof. induction 1 as [|T1 T2 T3 H12 _ IH]; [done|]. intros. by eapply IH, move_timerSound. Qed.

Lemma moves_flagClear T T' : rtc move T T' → flagClear T → flagClear T'.
Proof. induction 1 as [|T1 T2 T3 H12 _ IH]; [done|]. intros. by eapply IH, move_flagClear. Qed.

(** **** The handlers of a hand as sequences of moves *)

Lemma idOf_alter (f : Player → Player) pid (ps : gmap PlayerId Player) :
(∀ p, idOf (f p) = idOf p) → idOf <$> alter f pid ps = idOf <$> ps.
Proof.
intros Hf. apply map_eq. intros i. rewrite !lookup_fmap.
destruct (decide (pid = i)) as [->|Hne].
- rewrite lookup_alter_eq. destruct (ps !! i); simpl; [by rewrite Hf | done].
- by rewrite lookup_alter_ne.
Qed.

Lemma idOf_foldl_alter (f : Player → Player) l (ps : gmap PlayerId Player) :
(∀ p, idOf (f p) = idOf p) →
idOf <$> foldl (λ ps pid, alter f pid ps) ps l = idOf <$> ps.
Proof.
intros Hf. revert ps. induction l as [|pid l IH]; intros ps; simpl; [done|].
by rewrite IH, idOf_alter.
Qed.

Lemma exec_forEach_modifyPlayer {B} (f : Player → Player) l (k : unit → M B) T :
exec (forEach l (λ pid, modifyPlayer pid f) ≫= k) T
= exec (k tt) (setPlayers (foldl (λ ps pid, alter f pid ps) (players T) l) T).
Proof.
unfold forEach. revert T. induction l as [|pid l IH]; intros T; simpl.
- rewrite exec_ret. by destruct T.
- by rewrite exec_assoc, exec_modifyPlayer, IH.
Qed.

Lemma wk_players T0 T ps :
rtc move T0 T → idOf <$> ps = idOf <$> players T → rtc move T0 (setPlayers ps T).
Proof. intros HT Hps. eapply rtc_r; [done | by constructor]. Qed.

Lemma wk_alter T0 T pid f :
rtc move T0 T → (∀ p, idOf (f p) = idOf p) →
rtc move T0 (setPlayers (alter f pid (players T)) T).
Proof. intros HT Hf. by apply wk_players, idOf_alter. Qed.

Lemma wk_game T0 T (f : Game → Game) :
rtc move T0 T →
(∀ g, roundId (f g) = roundId g ∧ stage (f g) = stage g
      ∧ community (f g) = community g ∧ deck (f g) = deck g
      ∧ showdownComplete (f g) = showdownComplete g) →
turnTimer T = None ∨ (∀ g, turnIndex (f g) = turnIndex g ∧ turnEnd (f g) = turnEnd g) →
rtc move T0 (setGame (f <$> game T) T).
Proof.
intros HT Hf Hq. destruct (game T) as [g|] eqn:Eg; simpl.
- eapply rtc_r; [done|]. destruct (Hf g) as (? & ? & ? & ? & ?).
  apply (move_game T g (f g)); try done.
  destruct Hq as [Hq|Hq]; [by left | right; apply Hq].
- replace (setGame None T) with T; [done|]. destruct T; simpl in *. by subst.
Qed.

Lemma wk_clear T0 T :
rtc move T0 T → rtc move T0 (setGame (setTurnEnd None <$> game T) (setTurnTimer None T)).
Proof.
intros HT. apply (wk_game T0 (setTurnTimer None T) (setTurnEnd None)); [|done|by left].
eapply rtc_r; [done | constructor].
Qed.

Section Walk.
Context `{PokerSolver} (now : Z).

Lemma exec_broadcastState_bind {B} (k : unit → M B) T :
exec (broadcastState ≫= k) T = exec (k tt) T ∨ exec (broadcastState ≫= k) T = T.
Proof.
unfold broadcastState. rewrite exec_assoc, exec_getT.
destruct (game T) as [g|]; [destruct (turnSeat g)|].
- left. apply exec_broadcast.
- right. by rewrite exec_throw.
- left. apply exec_broadcast.
Qed.

Lemma walk_startTurnTimer T0 T :
rtc move T0 T → rtc move T0 (exec (startTurnTimer now) T).
Proof.
intros HT. unfold startTurnTimer. rewrite exec_getT.
destruct (game T) as [g|] eqn:Eg; [|done].
rewrite exec_clearTurnTimer.
apply wk_clear in HT. rewrite Eg in *. simpl in HT.
destruct (turnSeat g) as [s|] eqn:Es; [|done].
rewrite exec_modifyGame, exec_broadcast. simpl.
set (T1 := setGame (Some (setTurnEnd None g)) (setTurnTimer None T)) in *.
apply (wk_game T0 T1 (setTurnEnd (Some (now + 20000)))) in HT; [|done|by left].
eapply rtc_r; [exact HT|].
apply (move_arm _ (setTurnEnd (Some (now + 20000)) (setTurnEnd None g)) s); done.
Qed.

Lemma walk_turn T0 T :
rtc move T0 T → rtc move T0 (exec (broadcastState;; startTurnTimer now) T).
Proof.
intros HT. destruct (exec_broadcastState_bind (λ _, startTurnTimer now) T) as [->| ->].
- by apply walk_startTurnTimer.
- done.
Qed.

Lemma exec_awardPotAndEnd T g w rest :
game T = Some g → activePlayers (players T) g = w :: rest →
exec (awardPotAndEnd now) T
= {| seats := seats T;
     players := alter (λ p, setChips (chips p + pot g) p) w (players T);
     game := None;
     dealerIndex := ((dealerIndex T + 1) `mod` length (seats T))%nat;
     turnTimer := None |}.
Proof.
intros Eg Ea. unfold awardPotAndEnd. rewrite exec_getT, Eg, Ea.
rewrite exec_modifyPlayer, exec_modifyGame. cbv zeta.
rewrite exec_broadcast, exec_logToAll, exec_modifyT, exec_clearTurnTimer, exec_modifyT.
rewrite exec_broadcastState_idle by done. reflexivity.
Qed.

Lemma walk_awardPotAndEnd T0 T :
rtc move T0 T → rtc move T0 (exec (awardPotAndEnd now) T).
Proof.
intros HT. destruct (game T) as [g|] eqn:Eg.
- destruct (activePlayers (players T) g) as [|w rest] eqn:Ea.
  + unfold awardPotAndEnd. by rewrite exec_getT, Eg, Ea.
  + rewrite (exec_awardPotAndEnd T g w rest) by done.
    eapply rtc_r; [done|]. by apply move_settle, idOf_alter.
- unfold awardPotAndEnd. by rewrite exec_getT, Eg.
Qed.

Lemma walk_finishShowdown T0 T :
rtc move T0 T → rtc move T0 (exec (finishShowdown now) T).
Proof.
intros HT. destruct (game T) as [g|] eqn:Eg.
- destruct (decide (activePlayers (players T) g = [])) as [Ha|Ha].
  + unfold finishShowdown. rewrite exec_getT, Eg. by rewrite bool_decide_eq_true_2.
  + rewrite (exec_finishShowdown now T g) by done.
    eapply rtc_r; [done|]. by apply move_settle, idOf_foldl_alter.
- unfold finishShowdown. by rewrite exec_getT, Eg.
Qed.

Lemma removelast_prefix {X} (l : list X) : removelast l `prefix_of` l.
Proof.
destruct l as [|x l] using rev_ind; [done|].
rewrite removelast_last. by apply prefix_app_r.
Qed.

Lemma dealCommunity_spec st g :
st ≠ preflop →
∃ cs, community (dealCommunity st g) = community g ++ cs
    ∧ length cs = (boardSize st - boardSize (default preflop
                     (head (List.filter (λ s, bool_decide (nextStage s = Some st))
                                        [preflop; flop; turn]))))%nat
    ∧ deck (dealCommunity st g) `prefix_of` deck g
    ∧ roundId (dealCommunity st g) = roundId g
    ∧ stage (dealCommunity st g) = stage g
    ∧ showdownComplete (dealCommunity st g) = showdownComplete g.
Proof.
intros Hst. destruct st; [done|..]; unfold dealCommunity, pop; simpl.
- eexists. split_and!; try done.
  repeat (etrans; [apply removelast_prefix|]). done.
- eexists. split_and!; try done.
  repeat (etrans; [apply removelast_prefix|]). done.
- eexists. split_and!; try done.
  repeat (etrans; [apply removelast_prefix|]). done.
Qed.

Lemma walk_startBettingRound st T0 T :
rtc move T0 T → turnTimer T = None →
(∀ g, game T = Some g → nextStage (stage g) = Some st) →
rtc move T0 (exec (startBettingRound now st) T).
Proof.
intros HT Hq Hst. unfold startBettingRound. rewrite exec_getT.
destruct (game T) as [g|] eqn:Eg; [|done].
specialize (Hst g eq_refl).
rewrite exec_modifyGame, exec_getT, exec_forEach_modifyPlayer, exec_modifyGame, exec_getT.
simpl. rewrite Eg. simpl.
match goal with
| |- context [setPlayers ?ps _] => set (ps1 := ps)
end.
match goal with
| |- context [dealCommunity st ?g0] => set (g1 := g0)
end.
assert (rtc move T0 (setGame (Some (dealCommunity st g1)) (setPlayers ps1 T))) as HT1.
{ assert (st ≠ preflop) as Hne by (by destruct (stage g); simplify_eq/=).
  destruct (dealCommunity_spec st g1 Hne) as (cs & Hc & Hl & Hd & Hid & Hs & Hf).
  eapply rtc_r.
  - apply (wk_players T0 T ps1); [done|].
    subst ps1. by apply idOf_foldl_alter.
  - apply (move_street _ g _ cs); try done.
    + by rewrite Hs.
    + rewrite Hl, Hs. simpl. by destruct (stage g); simplify_eq/=. }
change (setGame (Some (dealCommunity st g1)) (setPlayers ps1 (setGame (Some g1) T)))
  with (setGame (Some (dealCommunity st g1)) (setPlayers ps1 T)).
split_if.
- by apply walk_awardPotAndEnd.
- by apply walk_turn.
Qed.

Lemma walk_advanceTurnAfterAction kind T0 T :
rtc move T0 T → turnTimer T = None →
rtc move T0 (exec (advanceTurnAfterAction now kind) T).
Proof.
intros HT Hq. unfold advanceTurnAfterAction. rewrite exec_getT.
destruct (game T) as [g0|] eqn:Eg0; [|done].
match goal with
| |- context [exec (_ ≫= ?k) T] => set (rest := k)
end.
assert (∀ T1, rtc move T0 T1 → turnTimer T1 = None →
              rtc move T0 (exec (rest tt) T1)) as Hrest.
2:{ destruct (bool_decide (kind ≠ "fold")).
    - rewrite exec_modifyGame. apply Hrest; [|done].
      apply wk_game; [done|done|by left].
    - rewrite exec_ret. by apply Hrest. }
subst rest. cbv beta. clear HT Hq Eg0 T g0.
intros T1 HT1 Hq1. rewrite exec_getT.
destruct (game T1) as [g|] eqn:Eg; [|done].
destruct (nextActiveIndex (players T1) g (turnIndex g)) as [nextIdx|];
  [|by apply walk_awardPotAndEnd].
rewrite exec_modifyGame, Eg. simpl fmap.
apply (wk_game T0 T1 (setTurnIndex nextIdx)) in HT1; [|done|by left].
rewrite Eg in HT1. simpl in HT1.
split_if; [by apply walk_awardPotAndEnd|].
split_if; [|by apply walk_turn].
rewrite exec_modifyGame. simpl fmap.
match type of HT1 with
| rtc move T0 ?T2 => apply (wk_game T0 T2 (setActionCount 0)) in HT1; [|done|by left]
end.
simpl in HT1.
destruct (stage g) eqn:Est.
- apply walk_startBettingRound; [done|done|]. intros g' [= <-]. simpl. by rewrite Est.
- apply walk_startBettingRound; [done|done|]. intros g' [= <-]. simpl. by rewrite Est.
- apply walk_startBettingRound; [done|done|]. intros g' [= <-]. simpl. by rewrite Est.
- by apply walk_finishShowdown.
Qed.

Lemma walk_processAction playerId action amount T0 T :
rtc move T0 T → rtc move T0 (exec (processAction now playerId action amount) T).
Proof.
intros HT. unfold processAction. rewrite exec_getT.
destruct (game T) as [g|] eqn:Eg; [|by rewrite exec_sendTo_end].
destruct (turnSeat g) as [cur|]; [|done].
split_if; [by rewrite exec_sendTo_end|].
rewrite exec_clearTurnTimer. apply wk_clear in HT.
destruct (players T !! playerId) as [p|]; [|done].
split_if; [|split_if; [|split_if]].
- rewrite exec_modifyPlayer, exec_logToAll, exec_getT.
  apply (wk_alter _ _ playerId (setFolded true)) in HT; [|done].
  split_if; [by apply walk_awardPotAndEnd | by apply walk_advanceTurnAfterAction].
- destruct (bool_decide (Z.max 0 (currentBet g - bet p) = 0)).
  + rewrite exec_logToAll. by apply walk_advanceTurnAfterAction.
  + rewrite exec_assoc, exec_modifyPlayer, exec_assoc, exec_modifyGame,
      exec_assoc, exec_logToAll, exec_broadcast.
    apply walk_advanceTurnAfterAction; [|done].
    apply wk_game; [|done|by left]. by apply wk_alter.
- split_if.
  + rewrite exec_sendTo. by apply walk_startTurnTimer.
  + rewrite exec_modifyPlayer, exec_modifyGame, exec_broadcast, exec_logToAll.
    apply walk_advanceTurnAfterAction; [|done].
    apply wk_game; [|done|by left]. by apply wk_alter.
- rewrite exec_sendTo. by apply walk_startTurnTimer.
Qed.

Lemma walk_onTurnTimeout T0 T :
rtc move T0 T → rtc move T0 (exec (onTurnTimeout now) T).
Proof.
intros HT. unfold onTurnTimeout. rewrite exec_getT.
destruct (turnTimer T) as [curPid|]; [|done].
rewrite exec_modifyT.
assert (rtc move T0 (setTurnTimer None T)) as HT1 by (eapply rtc_r; [done|constructor]).
destruct (players T !! curPid) as [p|]; [|done].
destruct (folded p); [done|].
rewrite exec_modifyPlayer, exec_logToAll, exec_getT. simpl game.
apply (wk_alter _ _ curPid (setFolded true)) in HT1; [|done].
destruct (game T) as [g|]; [|done].
split_if; [by apply walk_awardPotAndEnd | by apply walk_advanceTurnAfterAction].
Qed.

(** An action or a timeout is a sequence of moves. *)
Lemma walk_inHand e T : inHand e = true → rtc move T (exec (handle now e) T).
Proof.
destruct e as [|wsId [| | | |action amount|]| |]; try discriminate; intros _; simpl.
- unfold onMessage. rewrite exec_catch. by apply walk_processAction.
- by apply walk_onTurnTimeout.
Qed.

End Walk.
End Moves.

(** *** Opening a round *)

Section Opening.
Import Invariants.
Context `{PokerSolver} (now : Z).





(** Dealing: each seat of the list whose player is active takes the last
  card of the deck; nothing but the hands and the deck changes. *)
Lemma run_deal_full l g T :
∃ d cs, foldM dealTo g l T = (Ret (setDeck d g), setPlayers cs T, [])
  ∧ (∀ pid, setCards [] <$> cs !! pid = setCards [] <$> players T !! pid)
  ∧ (∀ pid, (λ p, length (cards p)) <$> cs !! pid
            = (λ p, (length (cards p)
                     + (if active p
                        then length (List.filter (λ s, bool_decide (pId s = pid)) l)
                        else 0))%nat) <$> players T !! pid)
  ∧ length d
    = (length (deck g)
       - length (List.filter (λ s, default false (active <$> players T !! pId s)) l))%nat.
Proof.
revert g T. induction l as [|s l IH]; intros g T; simpl.
- exists (deck g), (players T). split_and!.
  + by destruct g, T.
  + done.
  + intros pid. destruct (players T !! pid) as [p|]; simpl; [|done].
    f_equal. destruct (active p); lia.
  + lia.
- rewrite run_bind. unfold dealTo at 1. rewrite run_bind. simpl.
  destruct (players T !! pId s) as [p|] eqn:Ep; simpl; [destruct (active p) eqn:Ea|].
  + unfold pop. rewrite run_bind. simpl.
    set (T1 := setPlayers (alter (λ p, setCards (cards p ++ [last (deck g)]) p)
                                 (pId s) (players T)) T).
    destruct (IH (setDeck (removelast (deck g)) g) T1) as (d & cs & -> & Hcs & Hn & Hd).
    assert (∀ x, active <$> players T1 !! x = active <$> players T !! x) as Hact.
    { intros x. simpl. destruct (decide (pId s = x)) as [<-|Hne].
      - rewrite lookup_alter_eq, Ep. done.
      - by rewrite lookup_alter_ne. }
    exists d, cs. split_and!; [done|..].
    * intros pid. rewrite Hcs. simpl. destruct (decide (pId s = pid)) as [<-|Hne].
      -- rewrite lookup_alter_eq, Ep. done.
      -- by rewrite lookup_alter_ne.
    * intros pid. rewrite Hn. simpl. destruct (decide (pId s = pid)) as [<-|Hne].
      -- rewrite lookup_alter_eq, Ep. simpl. rewrite Ea.
         rewrite bool_decide_eq_true_2 by done. simpl. rewrite length_app. simpl.
         f_equal. lia.
      -- rewrite lookup_alter_ne by done.
         by rewrite bool_decide_eq_false_2 by done.
    * rewrite Hd. simpl deck. rewrite removelast_firstn_len, length_take.
      rewrite (filter_ext_in _ (λ s, default false (active <$> players T !! pId s)))
        by (intros; by rewrite Hact).
      rewrite ?Ep; simpl; rewrite ?Ea; simpl. lia.
  + simpl. destruct (IH g T) as (d & cs & -> & Hcs & Hn & Hd).
    exists d, cs. split_and!; [done|done|..].
    * intros pid. rewrite Hn. destruct (players T !! pid) as [q|] eqn:Eq; simpl; [|done].
      f_equal. destruct (active q) eqn:Eaq; [|done].
      rewrite bool_decide_eq_false_2; [done|]. intros <-. congruence.
    * rewrite Hd. rewrite ?Ep; simpl; rewrite ?Ea; simpl. done.
  + destruct (IH g T) as (d & cs & -> & Hcs & Hn & Hd).
    exists d, cs. split_and!; [done|done|..].
    * intros pid. rewrite Hn. destruct (players T !! pid) as [q|] eqn:Eq; simpl; [|done].
      f_equal. destruct (active q) eqn:Eaq; [|done].
      rewrite bool_decide_eq_false_2; [done|]. intros <-. congruence.
    * rewrite Hd. rewrite ?Ep; simpl. done.
Qed.

Lemma exec_deal_full {B} l g (k : Game → M B) T :
∃ d cs, exec (foldM dealTo g l ≫= k) T = exec (k (setDeck d g)) (setPlayers cs T)
  ∧ (∀ pid, setCards [] <$> cs !! pid = setCards [] <$> players T !! pid)
  ∧ (∀ pid, (λ p, length (cards p)) <$> cs !! pid
            = (λ p, (length (cards p)
                     + (if active p
                        then length (List.filter (λ s, bool_decide (pId s = pid)) l)
                        else 0))%nat) <$> players T !! pid)
  ∧ length d
    = (length (deck g)
       - length (List.filter (λ s, default false (active <$> players T !! pId s)) l))%nat.
Proof.
destruct (run_deal_full l g T) as (d & cs & Hrun & Hcs).
exists d, cs. split; [|done].
unfold exec. rewrite run_bind, Hrun.
by destruct (k (setDeck d g) (setPlayers cs T)) as [[? ?] ?].
Qed.

Lemma idOf_of_cleared (cs ps : gmap PlayerId Player) :
(∀ pid, setCards [] <$> cs !! pid = setCards [] <$> ps !! pid) →
idOf <$> cs = idOf <$> ps.
Proof.
intros Hcs. apply map_eq. intros pid. rewrite !lookup_fmap.
specialize (Hcs pid).
destruct (cs !! pid) as [q|], (ps !! pid) as [p|]; unfold idOf; simplify_eq/=; [|done].
congruence.
Qed.

Lemma exec_forEach_send {B} (l : list Seat) (k : unit → M B) T :
let send := λ s : Seat,
  T ← getT;
  match players T !! pId s with
  | Some p => sendTo (pId s) (MHand (cards p))
  | None => throw
  end in
(exec (forEach l send ≫= k) T = exec (k tt) T
 ∧ ((∀ s, s ∈ l → is_Some (players T !! pId s)) → (forEach l send T).1.1 = Ret tt))
∨ (exec (forEach l send ≫= k) T = T
   ∧ ¬ (∀ s, s ∈ l → is_Some (players T !! pId s))).
Proof.
intros send.
assert (∀ s, send s = (T ← getT;
                       match players T !! pId s with
                       | Some p => sendTo (pId s) (MHand (cards p))
                       | None => throw
                       end)) as Hsend by done.
clearbody send. unfold forEach. induction l as [|s l IH]; simpl.
- left. split; [apply exec_ret | done].
- rewrite exec_assoc. rewrite (Hsend s), exec_assoc, exec_getT.
  destruct (players T !! pId s) as [p|] eqn:Ep.
  + rewrite exec_sendTo. destruct IH as [[-> Hr]|[-> Hno]].
    * left. split; [done|]. intros Hall.
      rewrite run_bind, run_getT, Ep. rewrite run_sendTo by (by rewrite Ep).
      specialize (Hr (λ s Hs, Hall s (list_elem_of_further _ _ _ Hs))).
      destruct (foldM _ tt l T) as [[r T2] o2]. simpl in *. done.
    * right. split; [done|]. intros Hall. apply Hno. intros s' Hs'. apply Hall. by right.
  + right. split; [done|]. intros Hall.
    destruct (Hall s) as [x Hx]; [left|]. congruence.
Qed.

Lemma exec_postBlind_cases {B} pid blind (k : unit → M B) T :
exec (postBlind pid blind ≫= k) T
= match players T !! pid with
  | Some _ =>
      exec (k tt)
        (setPlayers (alter (λ p, setBet blind (setChips (Z.max 0 (chips p - blind)) p))
                           pid (players T)) T)
  | None => T
  end.
Proof.
unfold postBlind. rewrite exec_assoc, exec_getT.
destruct (players T !! pid); [apply exec_modifyPlayer | done].
Qed.

(** The last steps of [startGame]: the hands are sent, the state is
  broadcast and the timer is armed. *)
Lemma opening_tail_shape (l : list Seat) T5 g :
game T5 = Some g →
let T' := exec (forEach l (λ s,
                  T ← getT;
                  match players T !! pId s with
                  | Some p => sendTo (pId s) (MHand (cards p))
                  | None => throw
                  end);;
                broadcastState;;
                startTurnTimer now;;
                logToAll now "New game started.") T5 in
seats T' = seats T5 ∧ players T' = players T5 ∧ dealerIndex T' = dealerIndex T5
∧ ∃ g', game T' = Some g' ∧ setTurnEnd None g' = setTurnEnd None g
      ∧ (turnTimer T' = turnTimer T5 ∨ turnTimer T' = None
         ∨ ∃ s, turnSeat g' = Some s ∧ turnEnd g' = Some (now + 20000)
              ∧ turnTimer T' = Some (pId s)).
Proof.
intros H5g. cbv zeta.
match goal with
| |- context [exec (forEach ?l ?f ≫= ?k) T5] =>
    destruct (exec_forEach_send l k T5) as [[Hex _]|[Hex _]]; cbv zeta in Hex;
      rewrite Hex; clear Hex
end.
2:{ split_and!; try done. exists g. split_and!; try done. by left. }
match goal with
| |- context [exec (broadcastState ≫= ?k) T5] =>
    destruct (exec_broadcastState_bind k T5) as [Hex|Hex]; rewrite Hex; clear Hex
end.
2:{ split_and!; try done. exists g. split_and!; try done. by left. }
assert (∀ T6, exec (startTurnTimer now ≫= λ _, logToAll now "New game started.") T6
              = exec (startTurnTimer now) T6) as Hex.
{ intros T6. rewrite exec_bind. by destruct ((startTurnTimer now T6).1.1). }
rewrite Hex. clear Hex.
unfold startTurnTimer. rewrite exec_getT, H5g, exec_clearTurnTimer.
rewrite H5g. simpl fmap.
destruct (turnSeat g) as [s|] eqn:Es.
- rewrite exec_modifyGame, exec_broadcast. simpl.
  split_and!; try done. eexists. split_and!; [done|done|].
  right; right. exists s. by split_and!.
- simpl. split_and!; try done. eexists. split_and!; [done|done|]. by right; left.
Qed.

Lemma cleared_fields g g' :
setTurnEnd None g' = setTurnEnd None g →
roundId g' = roundId g ∧ stage g' = stage g ∧ community g' = community g
∧ deck g' = deck g ∧ showdownComplete g' = showdownComplete g
∧ pot g' = pot g ∧ currentBet g' = currentBet g ∧ minRaise g' = minRaise g
∧ actionCount g' = actionCount g ∧ turnIndex g' = turnIndex g.
Proof. unfold roundId. intros [=]. by split_and!; try congruence. Qed.

(** What [startGame] can leave behind when no round is on the table. *)
Lemma startGame_shape newId rnd T :
game T = None →
let T' := exec (startGame now newId rnd) T in
seats T' = seats T ∧ idOf <$> players T' = idOf <$> players T
∧ dealerIndex T' = dealerIndex T
∧ ((game T' = None ∧ turnTimer T' = turnTimer T)
   ∨ ∃ g, game T' = Some g ∧ stage g = preflop ∧ community g = []
        ∧ showdownComplete g = false
        ∧ (turnTimer T' = None ∨ turnTimer T' = turnTimer T
           ∨ ∃ s, turnSeat g = Some s ∧ is_Some (turnEnd g)
                ∧ turnTimer T' = Some (pId s))).
Proof.
intros Eg. cbv zeta. remember (exec (startGame now newId rnd) T) as T' eqn:HT'.
unfold startGame in HT'. rewrite exec_getT, Eg in HT'. simpl in HT'.
rewrite exec_ret, exec_getT, Eg in HT'.
destruct (length (List.filter truthy (seats T)) <? 2)%nat;
  [subst T'; split_and!; try done; left; split; [exact Eg | done]|].
rewrite exec_broadcast, exec_modifyT in HT'.
match type of HT' with
| context [exec (foldM dealTo ?g ?l ≫= ?k) ?T1] =>
    destruct (exec_deal_full l g k T1) as (d & cs & Hex & Hcs & _ & _)
end.
rewrite Hex in HT'. clear Hex.
apply idOf_of_cleared in Hcs. simpl in Hcs.
assert (idOf <$> cs = idOf <$> players T) as Hid.
{ rewrite Hcs. rewrite <- map_fmap_compose. apply map_fmap_ext. by intros ? []. }
clear Hcs. cbn [seatOrder setDeck] in HT'.
match type of HT' with
| context [js_sort ?c ?l !! 0%nat] => generalize dependent (js_sort c l)
end.
intros order HT'.
destruct (order !! 0%nat) as [s0|];
  [|subst T'; split_and!; try done; left; split; [exact Eg | done]].
destruct (order !! 1%nat) as [s1|];
  [|subst T'; split_and!; try done; left; split; [exact Eg | done]].
rewrite exec_postBlind_cases in HT'. simpl players in HT'.
destruct (cs !! pId s0) as [q0|];
  [|subst T'; split_and!; try done; left; split; [exact Eg | done]].
cbv zeta in HT'.
rewrite exec_postBlind_cases in HT'. simpl players in HT'.
match type of HT' with
| context [match ?x with Some _ => _ | None => _ end] => destruct x as [q1|]
end.
2:{ subst T'. simpl. split_and!;
      [done | by rewrite ?idOf_alter | done | left; split; [exact Eg | done]]. }
rewrite exec_modifyT in HT'.
match type of HT' with
| _ = exec (forEach ?l _ ≫= _) ?T0 =>
    destruct (opening_tail_shape l T0 _ eq_refl)
      as (Hs & Hp & Hd & g' & Hg' & Hcl & Ht)
end.
rewrite <- HT' in Hs, Hp, Hd, Hg', Ht. clear HT'.
apply cleared_fields in Hcl as (_ & Hst & Hco & _ & Hfl & _).
split_and!.
- by rewrite Hs.
- rewrite Hp. simpl. by rewrite !idOf_alter.
- by rewrite Hd.
- right. exists g'. split_and!; [done|by rewrite Hst|by rewrite Hco|by rewrite Hfl|].
  destruct Ht as [Ht|[Ht|(s & Hseat & Hend & Ht)]].
  + right; left. by rewrite Ht.
  + by left.
  + right; right. exists s. by rewrite Hend.
Qed.








End Opening.

(** *** Invariants of the table *)

Section Reach.
Import Invariants.
Context `{PokerSolver} (now : Z).

Lemma exec_onConnection wsId T :
exec (onConnection wsId) T
= setPlayers (<[wsId := {| name := "Guest" +:+ pretty (size (players T) + 1)%nat;
                           seat := None; chips := 1000; cards := []; folded := true;
                           active := false; bet := 0 |}]> (players T)) T.
Proof.
unfold onConnection. rewrite exec_getT. cbv zeta.
by rewrite exec_modifyT, exec_sendTo, exec_broadcastState_end.
Qed.

Lemma exec_join_cases wsId nm T :
exec (join wsId nm) T = T
∨ ∃ nm', exec (join wsId nm) T = setPlayers (alter (setName nm') wsId (players T)) T.
Proof.
unfold join. rewrite exec_getT.
destruct (players T !! wsId) as [player|]; [|by left].
split_if; [left; by rewrite exec_sendTo_end|].
right. eexists. by rewrite exec_modifyPlayer, exec_sendTo, exec_broadcastState_end.
Qed.

Lemma exec_takeSeat_cases wsId st T :
exec (takeSeat now wsId st) T = T
∨ ∃ player,
    players T !! wsId = Some player ∧ seat player = None ∧ game T = None
    ∧ seats T !! Z.to_nat st = Some None
    ∧ exec (takeSeat now wsId st) T
      = setPlayers
          (alter (λ p, setFolded false (setActive true (setSeat (Some (Z.to_nat st)) p)))
                 wsId (players T))
          (setSeats (<[Z.to_nat st := Some wsId]> (seats T)) T).
Proof.
destruct (players T !! wsId) as [player|] eqn:Hp.
2:{ left. unfold takeSeat. by rewrite exec_getT, Hp. }
destruct (decide (seat player = None)) as [Hs|Hs].
2:{ left. unfold takeSeat. rewrite exec_getT, Hp.
    rewrite bool_decide_eq_true_2 by done. by rewrite exec_sendTo_end. }
destruct (decide (game T = None)) as [Hg|Hg].
2:{ left. unfold takeSeat. rewrite exec_getT, Hp.
    rewrite bool_decide_eq_false_2 by (intros Hn; by apply Hn).
    rewrite bool_decide_eq_true_2 by done. by rewrite exec_sendTo_end. }
destruct (decide (0 ≤ st ≤ 5 ∧ seats T !! Z.to_nat st = Some None)) as [[Hr Hfree]|Hno].
- right. exists player. split_and!; try done. by apply (exec_takeSeat_ok now T wsId player).
- left. unfold takeSeat. rewrite exec_getT, Hp.
  rewrite bool_decide_eq_false_2 by (intros Hn; by apply Hn).
  rewrite bool_decide_eq_false_2 by (intros Hn; by apply Hn).
  destruct (st <? 0) eqn:E1; [done|]. destruct (5 <? st) eqn:E2; [done|].
  apply Z.ltb_ge in E1, E2.
  rewrite bool_decide_eq_false_2; [done|]. intros Hfree. apply Hno. split; [lia|done].
Qed.

Lemma exec_leaveSeat_cases wsId T :
exec (leaveSeat now wsId) T = T
∨ ∃ player i,
    players T !! wsId = Some player ∧ seat player = Some i ∧ game T = None
    ∧ exec (leaveSeat now wsId) T
      = setPlayers (alter (λ p, setFolded true (setActive false (setSeat None p)))
                          wsId (players T))
          (setSeats (<[i := None]> (seats T)) T).
Proof.
destruct (players T !! wsId) as [player|] eqn:Hp.
2:{ left. unfold leaveSeat. by rewrite exec_getT, Hp. }
destruct (decide (game T = None)) as [Hg|Hg].
2:{ left. unfold leaveSeat. rewrite exec_getT, Hp.
    rewrite bool_decide_eq_true_2 by done. by rewrite exec_sendTo_end. }
destruct (seat player) as [i|] eqn:Hs.
- right. exists player, i. split_and!; try done. by apply (exec_leaveSeat_ok now T wsId player).
- left. unfold leaveSeat. rewrite exec_getT, Hp.
  rewrite bool_decide_eq_false_2 by (intros Hn; by apply Hn). by rewrite Hs.
Qed.

(** A disconnect: the round may be settled, then the seat is freed and
  the player dropped. *)
Lemma exec_onClose wsId p T :
players T !! wsId = Some p →
∃ T1, rtc move T T1
    ∧ exec (onClose now wsId) T
      = setPlayers (delete wsId (players T1))
          (setSeats (match seat p with
                     | Some i => <[i := None]> (seats T1)
                     | None => seats T1
                     end) T1).
Proof.
intros Hp. unfold onClose. rewrite exec_getT, Hp, exec_logToAll.
assert (∀ T1, exec ((match seat p with
                     | Some i => modifyT (λ T, setSeats (<[i := None]> (seats T)) T)
                     | None => mret tt
                     end);;
                    modifyT (λ T, setPlayers (delete wsId (players T)) T);;
                    broadcastState) T1
              = setPlayers (delete wsId (players T1))
                  (setSeats (match seat p with
                             | Some i => <[i := None]> (seats T1)
                             | None => seats T1
                             end) T1)) as Hrest.
{ intros T1. destruct (seat p).
  - by rewrite exec_modifyT, exec_modifyT, exec_broadcastState_end.
  - rewrite exec_ret, exec_modifyT, exec_broadcastState_end. by destruct T1. }
destruct (game T) as [g|] eqn:Eg.
- rewrite exec_assoc, exec_modifyPlayer.
  unfold turnPlayerId. rewrite bool_decide_eq_false_2 by done.
  rewrite exec_assoc, exec_ret, exec_assoc, exec_getT. simpl game. rewrite Eg.
  match goal with
  | |- context [exec _ ?T0] =>
      assert (rtc move T T0) as HT0
        by (apply (wk_alter T T wsId (λ p, setActive false (setFolded true p))); done)
  end.
  match goal with
  | |- context [if ?c then awardPotAndEnd now else _] => destruct c
  end.
  + rewrite exec_bind, awardPotAndEnd_returns.
    eexists. split; [|apply Hrest]. by apply walk_awardPotAndEnd.
  + rewrite exec_ret. eexists. split; [|apply Hrest]. done.
- rewrite exec_ret. exists T. split; [done|]. apply Hrest.
Qed.

Lemma exec_startGame_running newId rnd T g :
game T = Some g → showdownComplete g = false → exec (startGame now newId rnd) T = T.
Proof.
intros Eg Hf. unfold startGame. rewrite exec_getT, Eg. simpl. rewrite Hf.
rewrite bool_decide_eq_false_2 by discriminate.
by rewrite exec_ret, exec_getT, Eg.
Qed.

Lemma exec_startGame_flagged newId rnd T g :
game T = Some g → showdownComplete g = true →
exec (startGame now newId rnd) T = exec (startGame now newId rnd) (setGame None T).
Proof.
intros Eg Hf. unfold startGame. rewrite !exec_getT, Eg. simpl. rewrite Hf.
rewrite bool_decide_eq_true_2 by done.
by rewrite exec_modifyT, exec_ret.
Qed.

Lemma startGame_sameSeating newId rnd T :
sameSeating T (exec (startGame now newId rnd) T).
Proof.
destruct (game T) as [g|] eqn:Eg.
- destruct (showdownComplete g) eqn:Hf.
  + rewrite (exec_startGame_flagged newId rnd T g) by done.
    destruct (startGame_shape now newId rnd (setGame None T) eq_refl) as (Hs & Hp & _).
    by split.
  + by rewrite (exec_startGame_running newId rnd T g).
- destruct (startGame_shape now newId rnd T Eg) as (Hs & Hp & _). by split.
Qed.

(** **** Lobby requests leave the round alone *)

Lemma lobby_sameRound e T :
playEvent e = false → (∀ wsId, e ≠ EClose wsId) → sameRound T (exec (handle now e) T).
Proof.
destruct e as [wsId|wsId [nm|st| |newId rnd|action amount|]|wsId|]; try discriminate;
  intros _ Hnc; simpl; unfold onMessage; rewrite ?exec_catch.
- by rewrite exec_onConnection.
- by destruct (exec_join_cases wsId nm T) as [->|(nm' & ->)].
- by destruct (exec_takeSeat_cases wsId st T) as [->|(player & _ & _ & _ & _ & ->)].
- by destruct (exec_leaveSeat_cases wsId T) as [->|(player & i & _ & _ & _ & ->)].
- done.
- by destruct (Hnc wsId).
Qed.

Lemma sameRound_roundGoesOn T T' : sameRound T T' → roundGoesOn T T'.
Proof.
intros (Hg & _ & Hd) g' Eg'. exists g'. rewrite <- Hg. by split_and!.
Qed.

Lemma sameRound_timerSound T T' : sameRound T T' → timerSound T → timerSound T'.
Proof. intros (Hg & Ht & _) Hok pid. rewrite Hg, Ht. apply Hok. Qed.

Lemma sameRound_boardOk T T' : sameRound T T' → boardOk T → boardOk T'.
Proof. intros (Hg & _) Hok g. rewrite Hg. apply Hok. Qed.

Lemma sameRound_flagClear T T' : sameRound T T' → flagClear T → flagClear T'.
Proof. intros (Hg & _) Hok g. rewrite Hg. apply Hok. Qed.

(** Every event takes a table to a table where the round has gone on, has
  ended, or (on [start-game] only) has been opened. *)
Lemma handle_round e T :
isStart e = false → roundGoesOn T (exec (handle now e) T).
Proof.
intros Hns. destruct (inHand e) eqn:Hin.
- by apply moves_roundGoesOn, walk_inHand.
- destruct e as [wsId|wsId data|wsId|]; try discriminate.
  + apply sameRound_roundGoesOn, lobby_sameRound; [|done].
    unfold playEvent. by rewrite Hin, Hns.
  + apply sameRound_roundGoesOn, lobby_sameRound; [|done].
    unfold playEvent. by rewrite Hin, Hns.
  + simpl. destruct (players T !! wsId) as [p|] eqn:Hp.
    * destruct (exec_onClose wsId p T Hp) as (T1 & HT1 & ->).
      etrans; [by apply moves_roundGoesOn|].
      by apply sameRound_roundGoesOn.
    * unfold onClose. by rewrite exec_getT, Hp.
Qed.

Lemma handle_ok e T :
timerSound T ∧ boardOk T ∧ flagClear T →
let T' := exec (handle now e) T in
timerSound T' ∧ boardOk T' ∧ flagClear T'.
Proof.
intros (Ht & Hb & Hf). cbv zeta.
destruct (inHand e) eqn:Hin.
{ pose proof (walk_inHand now e T Hin) as Hw.
  split_and!; [by eapply moves_timerSound|by eapply moves_boardOk|by eapply moves_flagClear]. }
destruct (isStart e) eqn:Hst.
{ destruct e as [|wsId [| | |newId rnd| |]| |]; try discriminate. simpl.
  unfold onMessage. rewrite exec_catch.
  destruct (game T) as [g|] eqn:Eg.
  - by rewrite (exec_startGame_running newId rnd T g Eg (Hf g Eg)).
  - destruct (startGame_shape now newId rnd T Eg) as (_ & _ & _ & Hshape).
    assert (turnTimer T = None) as Hq.
    { destruct (turnTimer T) as [pid|] eqn:Et; [|done].
      destruct (Ht pid Et) as (g & _ & Eg' & _). congruence. }
    destruct Hshape as [[Eg' Et']|(g & Eg' & Hstage & Hcomm & Hflag & Htimer)].
    + split_and!; intros x; rewrite ?Eg', ?Et', ?Hq; done.
    + split_and!.
      * intros pid Et. destruct Htimer as [Hn|[Hn|(s & Hs & He & Hn)]]; [congruence..|].
        rewrite Hn in Et. injection Et as <-. by exists g, s.
      * intros g' Eg''. rewrite Eg' in Eg''. injection Eg'' as <-. by rewrite Hstage, Hcomm.
      * intros g' Eg''. rewrite Eg' in Eg''. by injection Eg'' as <-. }
destruct e as [wsId|wsId data|wsId|]; try discriminate.
- assert (sameRound T (exec (handle now (EConnect wsId)) T)) as Hsr
    by (apply lobby_sameRound; [unfold playEvent; by rewrite Hin, Hst | done]).
  split_and!; [by eapply sameRound_timerSound| by eapply sameRound_boardOk
              | by eapply sameRound_flagClear].
- assert (sameRound T (exec (handle now (EMessage wsId data)) T)) as Hsr
    by (apply lobby_sameRound; [unfold playEvent; by rewrite Hin, Hst | done]).
  split_and!; [by eapply sameRound_timerSound| by eapply sameRound_boardOk
              | by eapply sameRound_flagClear].
- simpl. destruct (players T !! wsId) as [p|] eqn:Hp.
  + destruct (exec_onClose wsId p T Hp) as (T1 & HT1 & ->).
    assert (sameRound T1 (setPlayers (delete wsId (players T1))
              (setSeats match seat p with
                        | Some i => <[i:=None]> (seats T1)
                        | None => seats T1
                        end T1))) as Hsr by done.
    split_and!.
    * eapply sameRound_timerSound; [done|]. by eapply moves_timerSound.
    * eapply sameRound_boardOk; [done|]. by eapply moves_boardOk.
    * eapply sameRound_flagClear; [done|]. by eapply moves_flagClear.
  + unfold onClose. by rewrite exec_getT, Hp.
Qed.

End Reach.

(** *** Seating consistency *)

Section Seating.
Import Invariants.
Context `{PokerSolver} (now : Z).

Lemma sameSeating_seat T T' pid :
sameSeating T T' → seat <$> players T' !! pid = seat <$> players T !! pid.
Proof.
intros [_ Hp]. apply (f_equal (λ m, snd <$> m !! pid)) in Hp.
rewrite !lookup_fmap in Hp. by destruct (players T' !! pid), (players T !! pid).
Qed.

Lemma seatingOk_ext T T' :
seats T' = seats T →
(∀ pid, seat <$> players T' !! pid = seat <$> players T !! pid) →
seatingOk T → seatingOk T'.
Proof.
intros Hs Hp (Hlen & Ha & Hb). unfold seatingOk. rewrite Hs. split_and!; [done|..].
- intros i pid Hi. destruct (Ha i pid Hi) as (p & Hpp & Hsp).
  specialize (Hp pid). rewrite Hpp in Hp.
  destruct (players T' !! pid) as [p'|]; [|done]. exists p'. split; [done|].
  simpl in Hp. congruence.
- intros pid p' i Hp' Hi. specialize (Hp pid). rewrite Hp' in Hp.
  destruct (players T !! pid) as [p|] eqn:Hpp; [|done].
  apply (Hb pid p i Hpp). simpl in Hp. congruence.
Qed.

(** A player gives up the seat, or goes away. *)
Lemma seatingOk_free T wsId p (ps' : gmap PlayerId Player) :
seatingOk T →
players T !! wsId = Some p →
(∀ pid, pid ≠ wsId → ps' !! pid = players T !! pid) →
(∀ p', ps' !! wsId = Some p' → seat p' = None) →
seatingOk (setPlayers ps'
             (setSeats (match seat p with
                        | Some i => <[i := None]> (seats T)
                        | None => seats T
                        end) T)).
Proof.
intros (Hlen & Ha & Hb) Hp Hother Hself. unfold seatingOk. simpl.
assert (∀ j pid, seats T !! j = Some (Some pid) → seat p ≠ Some j →
          ∃ p0, ps' !! pid = Some p0 ∧ seat p0 = Some j) as Ha'.
{ intros j pid Hj Hne. destruct (Ha j pid Hj) as (p0 & Hp0 & Hs0).
  exists p0. split; [|done]. rewrite Hother; [done|]. intros ->. congruence. }
assert (∀ pid p' j, ps' !! pid = Some p' → seat p' = Some j →
          seats T !! j = Some (Some pid) ∧ seat p ≠ Some j) as Hb'.
{ intros pid p' j Hp' Hj.
  assert (pid ≠ wsId) as Hne by (intros ->; specialize (Hself p' Hp'); congruence).
  rewrite Hother in Hp' by done. split; [by apply (Hb pid p')|].
  intros Hpj. pose proof (Hb wsId p j Hp Hpj) as H1. pose proof (Hb pid p' j Hp' Hj) as H2.
  congruence. }
destruct (seat p) as [i|] eqn:Hsp.
- split_and!.
  + by rewrite length_insert.
  + intros j pid Hj. destruct (decide (i = j)) as [->|Hne].
    * apply list_lookup_insert_Some in Hj as [(_ & [=] & _)|[? _]]; done.
    * rewrite list_lookup_insert_ne in Hj by done. apply Ha'; [done|congruence].
  + intros pid p' j Hp' Hj. destruct (Hb' pid p' j Hp' Hj) as [Hseat Hne].
    rewrite list_lookup_insert_ne; [done|congruence].
- split_and!; [done|..].
  + intros j pid Hj. by apply Ha'.
  + intros pid p' j Hp' Hj. by apply (Hb' pid p' j).
Qed.

Lemma seatingOk_take T wsId player i :
seatingOk T →
players T !! wsId = Some player → seat player = None →
seats T !! i = Some None →
seatingOk (setPlayers
             (alter (λ p, setFolded false (setActive true (setSeat (Some i) p)))
                    wsId (players T))
             (setSeats (<[i := Some wsId]> (seats T)) T)).
Proof.
intros (Hlen & Ha & Hb) Hp Hs Hfree. unfold seatingOk. simpl.
pose proof (lookup_lt_Some _ _ _ Hfree) as Hi.
split_and!.
- by rewrite length_insert.
- intros j pid Hj. destruct (decide (i = j)) as [<-|Hne].
  + rewrite list_lookup_insert_eq in Hj by done. injection Hj as <-.
    rewrite lookup_alter_eq, Hp. by eexists.
  + rewrite list_lookup_insert_ne in Hj by done.
    destruct (Ha j pid Hj) as (p0 & Hp0 & Hs0). exists p0. split; [|done].
    rewrite lookup_alter_ne; [done|]. intros <-. congruence.
- intros pid p' j Hp' Hj. destruct (decide (wsId = pid)) as [<-|Hne].
  + rewrite lookup_alter_eq, Hp in Hp'. simpl in Hp'. injection Hp' as <-.
    simpl in Hj. injection Hj as <-. by rewrite list_lookup_insert_eq.
  + rewrite lookup_alter_ne in Hp' by done.
    pose proof (Hb pid p' j Hp' Hj) as Hseat.
    rewrite list_lookup_insert_ne; [done|]. intros <-. congruence.
Qed.

Lemma seatingOk_connect T wsId player :
seatingOk T → players T !! wsId = None → seat player = None →
seatingOk (setPlayers (<[wsId := player]> (players T)) T).
Proof.
intros (Hlen & Ha & Hb) Hfresh Hs. unfold seatingOk. simpl. split_and!; [done|..].
- intros j pid Hj. destruct (Ha j pid Hj) as (p0 & Hp0 & Hs0). exists p0. split; [|done].
  rewrite lookup_insert_ne; [done|]. intros <-. congruence.
- intros pid p' j Hp' Hj. destruct (decide (wsId = pid)) as [<-|Hne].
  + rewrite lookup_insert_eq in Hp'. injection Hp' as <-. congruence.
  + rewrite lookup_insert_ne in Hp' by done. by apply (Hb pid p').
Qed.

Lemma handle_seatingOk e T :
seatingOk T →
(∀ wsId, e = EConnect wsId → players T !! wsId = None) →
seatingOk (exec (handle now e) T).
Proof.
intros Hok Hfresh.
assert (∀ T', sameSeating T T' → seatingOk T') as Hsame.
{ intros T' Hs. apply (seatingOk_ext T T'); [apply Hs | | done].
  intros pid. by apply sameSeating_seat. }
destruct e as [wsId|wsId [nm|st| |newId rnd|action amount|]|wsId|]; simpl;
  unfold onMessage; rewrite ?exec_catch.
- rewrite exec_onConnection. apply seatingOk_connect; [done| by apply Hfresh | done].
- destruct (exec_join_cases wsId nm T) as [->|(nm' & ->)]; [done|].
  apply (seatingOk_ext T); [done| |done]. intros pid. simpl.
  destruct (decide (wsId = pid)) as [<-|Hne].
  + rewrite lookup_alter_eq. by destruct (players T !! wsId).
  + by rewrite lookup_alter_ne.
- destruct (exec_takeSeat_cases now wsId st T)
    as [->|(player & Hp & Hs & _ & Hfree & ->)]; [done|].
  by apply (seatingOk_take T wsId player).
- destruct (exec_leaveSeat_cases now wsId T)
    as [->|(player & i & Hp & Hs & _ & ->)]; [done|].
  pose proof (seatingOk_free T wsId player
                (alter (λ p, setFolded true (setActive false (setSeat None p)))
                       wsId (players T)) Hok Hp) as Hfree.
  rewrite Hs in Hfree. apply Hfree.
  + intros pid Hne. by rewrite lookup_alter_ne.
  + intros p'. rewrite lookup_alter_eq, Hp. by intros [= <-].
- apply Hsame, startGame_sameSeating.
- by apply Hsame, moves_sameSeating, walk_processAction.
- done.
- destruct (players T !! wsId) as [p|] eqn:Hp.
  + destruct (exec_onClose now wsId p T Hp) as (T1 & HT1 & ->).
    apply moves_sameSeating in HT1.
    pose proof (sameSeating_seat T T1 wsId HT1) as Hs1. rewrite Hp in Hs1.
    destruct (players T1 !! wsId) as [p1|] eqn:Hp1; [|done].
    simpl in Hs1. injection Hs1 as Hs1. rewrite <- Hs1.
    apply (seatingOk_free T1 wsId p1); [by apply Hsame|done|..].
    * intros pid Hne. by rewrite lookup_delete_ne.
    * intros p'. by rewrite lookup_delete_eq.
  + unfold onClose. by rewrite exec_getT, Hp.
- by apply Hsame, moves_sameSeating, walk_onTurnTimeout.
Qed.

Lemma handle_sameSeating e T :
playEvent e = true → sameSeating T (exec (handle now e) T).
Proof.
intros Hplay. destruct (inHand e) eqn:Hin.
- by apply moves_sameSeating, walk_inHand.
- destruct e as [|wsId [| | |newId rnd| |]| |]; try discriminate. simpl.
  unfold onMessage. rewrite exec_catch. apply startGame_sameSeating.
Qed.

End Seating.

(** *** Runs of events *)

Section Runs.
Import Invariants.
Context `{PokerSolver}.

Lemma run_snoc T es e : run T (es ++ [e]) = exec (handle e.1 e.2) (run T es).
Proof. unfold run. by rewrite foldl_app. Qed.

Lemma reachable_ok es :
timerSound (run TABLE0 es) ∧ boardOk (run TABLE0 es) ∧ flagClear (run TABLE0 es).
Proof.
induction es as [|e es IH] using rev_ind.
- by split_and!.
- rewrite run_snoc. by apply handle_ok.
Qed.

(** X20 — the turn timer.  In every table the server can reach, a pending
  timer is the one of the player seated at the turn index of the current
  round, and that round carries a deadline: whenever the round is
  dropped or the turn moves, the timer has been cancelled first. *)
Theorem pending_timer_is_for_turn_player (es : list (Z * Event)) (pid : PlayerId) :
turnTimer (run TABLE0 es) = Some pid →
∃ g s, game (run TABLE0 es) = Some g ∧ turnSeat g = Some s ∧ pId s = pid
     ∧ is_Some (turnEnd g).
Proof. apply (reachable_ok es). Qed.

(** X21 — the board.  In every table the server can reach, the round
  shows no community card before the flop, three on the flop, four on
  the turn and five on the river. *)
Theorem board_matches_stage (es : list (Z * Event)) (g : Game) :
game (run TABLE0 es) = Some g → length (community g) = boardSize (stage g).
Proof. apply (reachable_ok es). Qed.

(** X22 — [showdownComplete] is never seen set: [finishShowdown] sets it
  on a round it drops in the same step.  The reset at the top of
  [startGame] therefore never runs, and a start-game request made during
  a round changes nothing. *)
Theorem showdown_flag_never_seen (es : list (Z * Event)) (g : Game) :
game (run TABLE0 es) = Some g →
showdownComplete g = false
∧ ∀ now newId rnd, exec (startGame now newId rnd) (run TABLE0 es) = run TABLE0 es.
Proof.
intros Eg. destruct (reachable_ok es) as (_ & _ & Hf).
split; [by apply Hf|]. intros now newId rnd.
apply (exec_startGame_running now newId rnd _ g); [done | by apply Hf].
Qed.

(** X23 — playing does not move anyone: over any sequence of actions,
  timeouts and start-game requests the seat array, the set of connected
  players and every player's name and seat stay as they were. *)
Theorem play_keeps_seating (T : Table) (es : list (Z * Event)) :
Forall (λ e, playEvent e.2 = true) es →
seats (run T es) = seats T
∧ dom (players (run T es)) = dom (players T)
∧ ∀ pid, (λ p, (name p, seat p)) <$> players (run T es) !! pid
         = (λ p, (name p, seat p)) <$> players T !! pid.
Proof.
intros Hall.
assert (sameSeating T (run T es)) as [Hs Hp].
{ induction es as [|e es IH] using rev_ind; [done|].
  apply Forall_app in Hall as [Hes He]. rewrite Forall_singleton in He.
  rewrite run_snoc. etrans; [by apply IH|]. by apply handle_sameSeating. }
split_and!; [done|..].
- apply (f_equal dom) in Hp. by rewrite !dom_fmap_L in Hp.
- intros pid. apply (f_equal (λ m, m !! pid)) in Hp. by rewrite !lookup_fmap in Hp.
Qed.

(** X24 — a round only goes forward.  Over any sequence of events without
  a start-game request, a round found at the end is the round that was
  there at the beginning: same id, order of play, blinds and dealer
  position, at the same or a later stage, its board extended at the end
  and its deck shortened at the end; and the dealer button has not
  moved. *)
Theorem round_only_goes_forward (T : Table) (es : list (Z * Event)) (g' : Game) :
Forall (λ e, isStart e.2 = false) es →
game (run T es) = Some g' →
∃ g, game T = Some g
   ∧ gameId g' = gameId g ∧ seatOrder g' = seatOrder g
   ∧ smallBlind g' = smallBlind g ∧ bigBlind g' = bigBlind g
   ∧ gDealerIndex g' = gDealerIndex g
   ∧ (stageRank (stage g) ≤ stageRank (stage g'))%nat
   ∧ community g `prefix_of` community g'
   ∧ deck g' `prefix_of` deck g
   ∧ dealerIndex (run T es) = dealerIndex T.
Proof.
intros Hall Eg'.
assert (roundGoesOn T (run T es)) as Hr.
{ clear Eg'. induction es as [|e es IH] using rev_ind; [done|].
  apply Forall_app in Hall as [Hes He]. rewrite Forall_singleton in He.
  rewrite run_snoc. etrans; [by apply IH|]. by apply handle_round. }
destruct (Hr g' Eg') as (g & Eg & Hid & Hst & Hc & Hd & Hdi).
exists g. unfold roundId in Hid. injection Hid as ? ? ? ? ?. by split_and!.
Qed.

(** X25 — seats and players agree.  If every occupied seat names a
  registered player whose [seat] is that seat, and every player's [seat]
  names a seat occupied by that player, then the same holds after any
  event, provided a new connection comes with an id not in use (ids are
  fresh uuids). *)
Theorem seating_stays_consistent (now : Z) (e : Event) (T : Table) :
seatingOk T →
(∀ wsId, e = EConnect wsId → players T !! wsId = None) →
seatingOk (exec (handle now e) T).
Proof. apply handle_seatingOk. Qed.

End Runs.

(** *** The preconditions at work on concrete tables *)

Section Samples.
Import Invariants.

Lemma action_without_round_witness :
game lobby012 = None
∧ processAction 3 "a" "check" 0 lobby012
  = (Ret tt, lobby012, [SendTo "a" (MError "No game in progress")]).
Proof.
split; [vm_compute; reflexivity|].
apply (action_without_round 3 lobby012 "a" "check" 0);
  [vm_compute; reflexivity | vm_compute; eauto].
Defined.

Lemma unknown_action_rejected_witness :
turnSeat <$> game started012 = Some (Some {| pId := "c"; idx := 2 |})
∧ (processAction 3 "c" "dance" 0 started012).2
  = [SendTo "c" (MError "Unknown action"); Broadcast (MTurn "c" 20003)].
Proof.
split; [vm_compute; reflexivity|].
assert (∃ g, game started012 = Some g ∧ turnSeat g = Some {| pId := "c"; idx := 2 |})
  as (g & Hg & Hts).
{ eexists. split; vm_compute; reflexivity. }
assert (∃ pc, players started012 !! "c" = Some pc) as [pc Hc] by (vm_compute; eauto).
pose proof (unknown_action_rejected 3 started012 g
              {| pId := "c"; idx := 2 |} pc "dance" 0 Hg Hts Hc) as HH.
cbn [pId] in HH. rewrite HH; [reflexivity | discriminate..].
Defined.

Lemma startGame_guard_witness :
length (List.filter truthy (seats oneSeated)) = 1%nat
∧ startGame 2 "round-1" noShuffle oneSeated = (Ret tt, oneSeated, []).
Proof.
split; [vm_compute; reflexivity|].
apply (startGame_guard 2 oneSeated "round-1" noShuffle).
right. split; [vm_compute; reflexivity | vm_compute; lia].
Defined.

Lemma leave_seat_outcomes_witness :
seats lobby012 = [Some "a"; Some "b"; Some "c"; None; None; None]
∧ seats (exec (leaveSeat 2 "b") lobby012) = [Some "a"; None; Some "c"; None; None; None]
∧ leaveSeat 3 "b" started012
  = (Ret tt, started012, [SendTo "b" (MError "Game in progress: cannot change seats")]).
Proof.
assert (∃ pb, players lobby012 !! "b" = Some pb ∧ seat pb = Some 1%nat) as (pb & Hb & Hsb).
{ eexists. split; vm_compute; reflexivity. }
assert (∃ pb, players started012 !! "b" = Some pb) as (pb' & Hb').
{ eexists. vm_compute. reflexivity. }
pose proof (leave_seat_outcomes 2 lobby012 "b" pb Hb) as (_ & _ & Hleave).
pose proof (leave_seat_outcomes 3 started012 "b" pb' Hb') as (Hbusy & _).
split_and!.
- vm_compute. reflexivity.
- rewrite (Hleave 1%nat); [vm_compute; reflexivity | vm_compute; reflexivity | exact Hsb].
- apply Hbusy. vm_compute. discriminate.
Defined.

Lemma take_then_leave_seat_witness :
seats oneSeated !! 3%nat = Some None
∧ seats (exec (leaveSeat 2 "b") (exec (takeSeat 2 "b" 3) oneSeated)) = seats oneSeated.
Proof.
split; [vm_compute; reflexivity|].
assert (∃ pb, players oneSeated !! "b" = Some pb ∧ seat pb = None) as (pb & Hb & Hsb).
{ eexists. split; vm_compute; reflexivity. }
rewrite (take_then_leave_seat 2 oneSeated "b" pb 3 Hb Hsb);
  [reflexivity | vm_compute; reflexivity | lia | vm_compute; reflexivity].
Defined.

Lemma showdown_teardown_witness :
dealerIndex river012 = 0%nat
∧ game (exec (finishShowdown 5) river012) = None
∧ dealerIndex (exec (finishShowdown 5) river012) = 1%nat.
Proof.
split; [vm_compute; reflexivity|].
assert (∃ g, game river012 = Some g ∧ activePlayers (players river012) g ≠ [])
  as (g & Hg & Hne).
{ eexists. split; [vm_compute; reflexivity | vm_compute; discriminate]. }
destruct (showdown_teardown 5 river012 g Hg) as [_ Hdown].
destruct (Hdown Hne) as (_ & Hgame & _ & Hdealer & _).
split; [exact Hgame|]. rewrite Hdealer. vm_compute. reflexivity.
Defined.

Lemma join_outcomes_witness :
join "b" "Bartholomew the Magnificent" oneSeated ≠ (Ret tt, oneSeated, [])
∧ name <$> players (exec (join "b" "Bartholomew the Magnificent") oneSeated) !! "b"
  = Some "Bartholomew the Magn"
∧ join "a" "Al" oneSeated
  = (Ret tt, oneSeated, [SendTo "a" (MError "Already seated, cannot join again")]).
Proof.
assert (∃ pa, players oneSeated !! "a" = Some pa ∧ seat pa = Some 0%nat) as (pa & Ha & Hsa).
{ eexists. split; vm_compute; reflexivity. }
assert (∃ pb, players oneSeated !! "b" = Some pb ∧ seat pb = None) as (pb & Hb & Hsb).
{ eexists. split; vm_compute; reflexivity. }
pose proof (join_outcomes oneSeated "a" pa "Al" Ha) as (Hseated & _).
pose proof (join_outcomes oneSeated "b" pb "Bartholomew the Magnificent" Hb)
  as (_ & Hfree).
destruct (Hfree Hsb) as (nm' & Hex & Hnm & _).
split_and!.
- vm_compute. discriminate.
- rewrite Hex. cbn [players setPlayers]. rewrite lookup_insert_eq.
  cbn [fmap option_fmap option_map name setName]. rewrite Hnm. vm_compute. reflexivity.
- apply Hseated. rewrite Hsa. discriminate.
Defined.

Lemma dealer_seat_leads_witness :
dealerIndex lobby012 = 0%nat
∧ handOrder lobby012 !! 0%nat = Some {| pId := "a"; idx := 0 |}.
Proof.
split; [vm_compute; reflexivity|].
apply (dealer_seat_leads lobby012 "a"); [vm_compute; lia | vm_compute; reflexivity].
Defined.

(** The lobby of three seated players is consistent: it is reached from
  the empty table through connections with fresh ids. *)
Lemma seatingOk_TABLE0 : seatingOk TABLE0.
Proof.
split_and!; [done|..].
- intros i pid Hi. apply lookup_replicate in Hi as [[=] _].
- intros pid p i Hp. simpl in Hp. by rewrite lookup_empty in Hp.
Qed.

Lemma seatingOk_lobby012 : seatingOk lobby012.
Proof.
assert (lobby012 = run TABLE0 (seated 0 1 2)) as -> by (vm_compute; reflexivity).
unfold run, seated. cbn [foldl fst snd].
repeat (apply handle_seatingOk;
        [|first [ discriminate | intros ? [= <-]; vm_compute; reflexivity ]]).
apply seatingOk_TABLE0.
Qed.


Lemma pending_timer_is_for_turn_player_witness :
turnTimer (run TABLE0 (seated 0 1 2 ++ [deal])) = Some "c"
∧ ∃ g s, game (run TABLE0 (seated 0 1 2 ++ [deal])) = Some g
       ∧ turnSeat g = Some s ∧ pId s = "c" ∧ is_Some (turnEnd g).
Proof.
split; [vm_compute; reflexivity|].
apply (pending_timer_is_for_turn_player (seated 0 1 2 ++ [deal]) "c").
vm_compute. reflexivity.
Defined.

Lemma board_matches_stage_witness :
∃ g, game (run TABLE0 (seated 0 1 2 ++ [deal] ++ toRiver)) = Some g
   ∧ stage g = river ∧ length (community g) = 5%nat.
Proof.
assert (∃ g, game (run TABLE0 (seated 0 1 2 ++ [deal] ++ toRiver)) = Some g
           ∧ stage g = river) as (g & Hg & Hst).
{ eexists. split; vm_compute; reflexivity. }
exists g. split_and!; [exact Hg | exact Hst |].
rewrite (board_matches_stage _ g Hg), Hst. reflexivity.
Defined.

Lemma showdown_flag_never_seen_witness :
∃ g, game (run TABLE0 (seated 0 1 2 ++ [deal])) = Some g
   ∧ showdownComplete g = false
   ∧ exec (startGame 9 "round-2" noShuffle) (run TABLE0 (seated 0 1 2 ++ [deal]))
     = run TABLE0 (seated 0 1 2 ++ [deal]).
Proof.
assert (∃ g, game (run TABLE0 (seated 0 1 2 ++ [deal])) = Some g) as (g & Hg).
{ eexists. vm_compute. reflexivity. }
destruct (showdown_flag_never_seen _ g Hg) as [Hflag Hstart].
exists g. split_and!; [exact Hg | exact Hflag | apply Hstart].
Defined.

Lemma play_keeps_seating_witness :
stage <$> game (run started012 toRiver) = Some river
∧ seats (run started012 toRiver) = seats started012.
Proof.
split; [vm_compute; reflexivity|].
apply (play_keeps_seating started012 toRiver).
repeat constructor.
Defined.

Lemma round_only_goes_forward_witness :
∃ g g', game started012 = Some g ∧ game (run started012 toRiver) = Some g'
      ∧ stage g = preflop ∧ stage g' = river
      ∧ seatOrder g' = seatOrder g ∧ deck g' `prefix_of` deck g.
Proof.
assert (∃ g g', game started012 = Some g ∧ game (run started012 toRiver) = Some g'
              ∧ stage g = preflop ∧ stage g' = river) as (g & g' & Hg & Hg' & Hs & Hs').
{ eexists _, _. split_and!; vm_compute; reflexivity. }
destruct (round_only_goes_forward started012 toRiver g')
  as (g0 & Hg0 & _ & Hord & _ & _ & _ & _ & _ & Hdeck & _);
  [repeat constructor | exact Hg' |].
rewrite Hg in Hg0. injection Hg0 as <-.
exists g, g'. by split_and!.
Defined.

Lemma seating_stays_consistent_witness :
players lobby012 !! "d" = None
∧ seatingOk (exec (handle 5 (EConnect "d")) lobby012)
∧ seatingOk (exec (handle 5 (EMessage "b" LeaveSeat)) lobby012).
Proof.
split_and!.
- vm_compute. reflexivity.
- apply (seating_stays_consistent 5 (EConnect "d") lobby012
           seatingOk_lobby012).
  intros wsId [= <-]. vm_compute. reflexivity.
- apply (seating_stays_consistent 5 (EMessage "b" LeaveSeat) lobby012
           seatingOk_lobby012).
  intros wsId. discriminate.
Defined.

End Samples.

End ServerExtras.
